(** * Lowering for AMD64/x86: a shallow embedding of [lowerxarch.cpp]

    The development follows [src/coreclr/jit/lowerxarch.cpp].  LIR nodes live
    in an arena indexed by handles (the C++ [GenTree*]); the block range is the
    ordered list of the handles of one basic block; every lowering routine is a
    function on the lowering state.  Routines of the JIT that are defined in
    other translation units ([lower.cpp], [lir.cpp], [gentree.cpp], ...) are
    fields of the [Compiler] record when the file only calls them, and small
    definitions with a doc comment that says so when their behaviour is needed. *)

From Stdlib Require Import ZArith Lia.
From stdpp Require Import base decidable option list gmap.

Set Warnings "-clear-no-such-hyp".

(** ** Enumerations *)

Inductive var_types : Set :=
  | TYP_VOID | TYP_BYTE | TYP_UBYTE | TYP_SHORT | TYP_USHORT
  | TYP_INT | TYP_UINT | TYP_LONG | TYP_ULONG | TYP_FLOAT | TYP_DOUBLE
  | TYP_REF | TYP_BYREF | TYP_STRUCT
  | TYP_SIMD8 | TYP_SIMD12 | TYP_SIMD16 | TYP_SIMD32 | TYP_SIMD64 | TYP_MASK.

#[global] Instance var_types_eq_dec : EqDecision var_types.
Proof. solve_decision. Defined.

(** The JIT base type of a SIMD node is carried as its precise [var_types]
    ([GetSimdBaseType] is [GetSimdBaseJitType] read through that identification). *)
Abbreviation CorInfoType := var_types (only parsing).
Abbreviation CORINFO_TYPE_INT := TYP_INT (only parsing).

Inductive genTreeOps : Set :=
  | GT_NONE | GT_NOP
  | GT_LCL_VAR | GT_LCL_FLD | GT_LCL_ADDR | GT_STORE_LCL_VAR | GT_STORE_LCL_FLD
  | GT_CNS_INT | GT_CNS_LNG | GT_CNS_DBL | GT_CNS_VEC
  | GT_NOT | GT_NEG | GT_CAST | GT_BSWAP | GT_BSWAP16
  | GT_IND | GT_STOREIND | GT_LEA | GT_LONG
  | GT_ADD | GT_SUB | GT_MUL | GT_DIV | GT_MOD
  | GT_OR | GT_XOR | GT_AND | GT_AND_NOT
  | GT_LSH | GT_RSH | GT_RSZ | GT_ROL | GT_ROR | GT_LSH_HI | GT_RSH_LO
  | GT_EQ | GT_NE | GT_LT | GT_SETCC
  | GT_HWINTRINSIC.

#[global] Instance genTreeOps_eq_dec : EqDecision genTreeOps.
Proof. solve_decision. Defined.

Inductive NamedIntrinsic : Set :=
  | NI_Illegal
  | NI_Vector128_Create | NI_Vector256_Create | NI_Vector512_Create
  | NI_Vector128_CreateScalar | NI_Vector256_CreateScalar | NI_Vector512_CreateScalar
  | NI_Vector128_CreateScalarUnsafe
  | NI_Vector128_GetElement | NI_Vector256_GetElement | NI_Vector512_GetElement
  | NI_Vector128_ToScalar | NI_Vector256_ToScalar | NI_Vector512_ToScalar
  | NI_Vector128_ConditionalSelect | NI_Vector256_ConditionalSelect
  | NI_Vector512_ConditionalSelect
  | NI_SSE42_BlendVariable | NI_AVX_BlendVariable | NI_AVX2_BlendVariable
  | NI_AVX512_BlendVariableMask | NI_AVX512_TernaryLogic
  | NI_AVX512_ConvertMaskToVector | NI_AVX512_ConvertVectorToMask
  | NI_AVX2_ResetLowestSetBit | NI_AVX2_X64_ResetLowestSetBit
  | NI_AVX2_BroadcastScalarToVector128 | NI_AVX2_BroadcastScalarToVector256
  | NI_AVX512_BroadcastScalarToVector512
  | NI_X86Base_Add | NI_X86Base_And | NI_X86Base_CompareEqual.

#[global] Instance NamedIntrinsic_eq_dec : EqDecision NamedIntrinsic.
Proof. solve_decision. Defined.

Inductive InstructionSet : Set :=
  | InstructionSet_SSE42 | InstructionSet_AVX | InstructionSet_AVX2
  | InstructionSet_AVX2_X64 | InstructionSet_AVX512.

#[global] Instance InstructionSet_eq_dec : EqDecision InstructionSet.
Proof. solve_decision. Defined.

(** Which of the three inputs a ternary-logic control byte uses. *)
Inductive TernaryLogicUseFlags : Set :=
  | TLUF_None | TLUF_A | TLUF_B | TLUF_C | TLUF_AB | TLUF_AC | TLUF_BC | TLUF_ABC.

#[global] Instance TernaryLogicUseFlags_eq_dec : EqDecision TernaryLogicUseFlags.
Proof. solve_decision. Defined.

(** The status a [GT_STOREIND] caches about being a read-modify-write store. *)
Inductive RMWStatus : Set :=
  | STOREIND_RMW_STATUS_UNKNOWN
  | STOREIND_RMW_DST_IS_OP1
  | STOREIND_RMW_DST_IS_OP2
  | STOREIND_RMW_UNSUPPORTED_ADDR
  | STOREIND_RMW_UNSUPPORTED_OPER
  | STOREIND_RMW_UNSUPPORTED_TYPE
  | STOREIND_RMW_INDIR_UNEQUAL.

#[global] Instance RMWStatus_eq_dec : EqDecision RMWStatus.
Proof. solve_decision. Defined.

(** ** Nodes *)

(** A handle into the node arena: the C++ [GenTree*]; [0] is [nullptr]. *)
Abbreviation GenTreePtr := nat (only parsing).

(** The 64 bytes of a vector constant ([simd_t::u8]), lowest address first. *)
Abbreviation simd_t := (list Z) (only parsing).

(** One node.  [gtFlags] and [gtLIRFlags] are bit sets in the C++; the record
    has one boolean per bit that this file tests or sets.  The payload fields
    are those of the node subclasses the lowering routines read:
    [GenTreeIntConCommon] ([gtIconVal]), [GenTreeDblCon] ([gtDconVal], the
    constant carried as its bit pattern: lowering never computes with it),
    [GenTreeLclVarCommon] ([gtLclNum], [gtLclOffs]), [GenTreeAddrMode] (base and
    index are operands 1 and 2, [gtScale], [gtOffset]), [GenTreeHWIntrinsic],
    [GenTreeVecCon] and [GenTreeStoreInd]. *)
Record GenTree : Type := mkGenTree {
  gtOper : genTreeOps;
  gtType : var_types;
  gtOperands : list GenTreePtr;
  GTF_OVERFLOW : bool;
  GTF_SET_FLAGS : bool;
  GTF_CONTAINED : bool;
  GTF_IND_REQ_ADDR_IN_REG : bool;
  GTF_EXCEPT : bool;
  GTF_IND_NONFAULTING : bool;
  LIR_Mark : bool;
  LIR_UnusedValue : bool;
  LIR_RegOptional : bool;
  gtIconVal : Z;
  gtDconVal : Z;
  gtLclNum : nat;
  gtLclOffs : nat;
  gtScale : nat;
  gtOffset : Z;
  gtHWIntrinsicId : NamedIntrinsic;
  gtSimdBaseJitType : CorInfoType;
  gtSimdSize : nat;
  gtSimdVal : simd_t;
  gtRMWStatus : RMWStatus
}.

(** A zero-initialised node of the given operator and type, as the node
    constructors of [gentree.h] leave the fields they are not told about. *)
Definition gtNewNode (oper : genTreeOps) (type : var_types) (ops : list GenTreePtr) : GenTree :=
  {| gtOper := oper; gtType := type; gtOperands := ops;
     GTF_OVERFLOW := false; GTF_SET_FLAGS := false; GTF_CONTAINED := false;
     GTF_IND_REQ_ADDR_IN_REG := false; GTF_EXCEPT := false; GTF_IND_NONFAULTING := false;
     LIR_Mark := false; LIR_UnusedValue := false; LIR_RegOptional := false;
     gtIconVal := 0; gtDconVal := 0; gtLclNum := 0; gtLclOffs := 0;
     gtScale := 0; gtOffset := 0;
     gtHWIntrinsicId := NI_Illegal; gtSimdBaseJitType := TYP_VOID; gtSimdSize := 0;
     gtSimdVal := replicate 64 0%Z; gtRMWStatus := STOREIND_RMW_STATUS_UNKNOWN |}.

Section setters.
Context (n : GenTree).

Definition set_gtOper (v : genTreeOps) : GenTree :=
  mkGenTree v (gtType n) (gtOperands n) (GTF_OVERFLOW n) (GTF_SET_FLAGS n)
    (GTF_CONTAINED n) (GTF_IND_REQ_ADDR_IN_REG n) (GTF_EXCEPT n) (GTF_IND_NONFAULTING n)
    (LIR_Mark n) (LIR_UnusedValue n) (LIR_RegOptional n) (gtIconVal n) (gtDconVal n)
    (gtLclNum n) (gtLclOffs n) (gtScale n) (gtOffset n) (gtHWIntrinsicId n)
    (gtSimdBaseJitType n) (gtSimdSize n) (gtSimdVal n) (gtRMWStatus n).

Definition set_gtType (v : var_types) : GenTree :=
  mkGenTree (gtOper n) v (gtOperands n) (GTF_OVERFLOW n) (GTF_SET_FLAGS n)
    (GTF_CONTAINED n) (GTF_IND_REQ_ADDR_IN_REG n) (GTF_EXCEPT n) (GTF_IND_NONFAULTING n)
    (LIR_Mark n) (LIR_UnusedValue n) (LIR_RegOptional n) (gtIconVal n) (gtDconVal n)
    (gtLclNum n) (gtLclOffs n) (gtScale n) (gtOffset n) (gtHWIntrinsicId n)
    (gtSimdBaseJitType n) (gtSimdSize n) (gtSimdVal n) (gtRMWStatus n).

Definition set_gtOperands (v : list GenTreePtr) : GenTree :=
  mkGenTree (gtOper n) (gtType n) v (GTF_OVERFLOW n) (GTF_SET_FLAGS n) (GTF_CONTAINED n)
    (GTF_IND_REQ_ADDR_IN_REG n) (GTF_EXCEPT n) (GTF_IND_NONFAULTING n) (LIR_Mark n)
    (LIR_UnusedValue n) (LIR_RegOptional n) (gtIconVal n) (gtDconVal n) (gtLclNum n)
    (gtLclOffs n) (gtScale n) (gtOffset n) (gtHWIntrinsicId n) (gtSimdBaseJitType n)
    (gtSimdSize n) (gtSimdVal n) (gtRMWStatus n).

Definition set_GTF_CONTAINED (v : bool) : GenTree :=
  mkGenTree (gtOper n) (gtType n) (gtOperands n) (GTF_OVERFLOW n) (GTF_SET_FLAGS n) v
    (GTF_IND_REQ_ADDR_IN_REG n) (GTF_EXCEPT n) (GTF_IND_NONFAULTING n) (LIR_Mark n)
    (LIR_UnusedValue n) (LIR_RegOptional n) (gtIconVal n) (gtDconVal n) (gtLclNum n)
    (gtLclOffs n) (gtScale n) (gtOffset n) (gtHWIntrinsicId n) (gtSimdBaseJitType n)
    (gtSimdSize n) (gtSimdVal n) (gtRMWStatus n).

Definition set_GTF_EXCEPT (v : bool) : GenTree :=
  mkGenTree (gtOper n) (gtType n) (gtOperands n) (GTF_OVERFLOW n) (GTF_SET_FLAGS n)
    (GTF_CONTAINED n) (GTF_IND_REQ_ADDR_IN_REG n) v (GTF_IND_NONFAULTING n) (LIR_Mark n)
    (LIR_UnusedValue n) (LIR_RegOptional n) (gtIconVal n) (gtDconVal n) (gtLclNum n)
    (gtLclOffs n) (gtScale n) (gtOffset n) (gtHWIntrinsicId n) (gtSimdBaseJitType n)
    (gtSimdSize n) (gtSimdVal n) (gtRMWStatus n).

Definition set_GTF_IND_NONFAULTING (v : bool) : GenTree :=
  mkGenTree (gtOper n) (gtType n) (gtOperands n) (GTF_OVERFLOW n) (GTF_SET_FLAGS n)
    (GTF_CONTAINED n) (GTF_IND_REQ_ADDR_IN_REG n) (GTF_EXCEPT n) v (LIR_Mark n)
    (LIR_UnusedValue n) (LIR_RegOptional n) (gtIconVal n) (gtDconVal n) (gtLclNum n)
    (gtLclOffs n) (gtScale n) (gtOffset n) (gtHWIntrinsicId n) (gtSimdBaseJitType n)
    (gtSimdSize n) (gtSimdVal n) (gtRMWStatus n).

Definition set_LIR_Mark (v : bool) : GenTree :=
  mkGenTree (gtOper n) (gtType n) (gtOperands n) (GTF_OVERFLOW n) (GTF_SET_FLAGS n)
    (GTF_CONTAINED n) (GTF_IND_REQ_ADDR_IN_REG n) (GTF_EXCEPT n) (GTF_IND_NONFAULTING n)
    v (LIR_UnusedValue n) (LIR_RegOptional n) (gtIconVal n) (gtDconVal n) (gtLclNum n)
    (gtLclOffs n) (gtScale n) (gtOffset n) (gtHWIntrinsicId n) (gtSimdBaseJitType n)
    (gtSimdSize n) (gtSimdVal n) (gtRMWStatus n).

Definition set_LIR_UnusedValue (v : bool) : GenTree :=
  mkGenTree (gtOper n) (gtType n) (gtOperands n) (GTF_OVERFLOW n) (GTF_SET_FLAGS n)
    (GTF_CONTAINED n) (GTF_IND_REQ_ADDR_IN_REG n) (GTF_EXCEPT n) (GTF_IND_NONFAULTING n)
    (LIR_Mark n) v (LIR_RegOptional n) (gtIconVal n) (gtDconVal n) (gtLclNum n)
    (gtLclOffs n) (gtScale n) (gtOffset n) (gtHWIntrinsicId n) (gtSimdBaseJitType n)
    (gtSimdSize n) (gtSimdVal n) (gtRMWStatus n).

Definition set_LIR_RegOptional (v : bool) : GenTree :=
  mkGenTree (gtOper n) (gtType n) (gtOperands n) (GTF_OVERFLOW n) (GTF_SET_FLAGS n)
    (GTF_CONTAINED n) (GTF_IND_REQ_ADDR_IN_REG n) (GTF_EXCEPT n) (GTF_IND_NONFAULTING n)
    (LIR_Mark n) (LIR_UnusedValue n) v (gtIconVal n) (gtDconVal n) (gtLclNum n)
    (gtLclOffs n) (gtScale n) (gtOffset n) (gtHWIntrinsicId n) (gtSimdBaseJitType n)
    (gtSimdSize n) (gtSimdVal n) (gtRMWStatus n).

Definition set_gtIconVal (v : Z) : GenTree :=
  mkGenTree (gtOper n) (gtType n) (gtOperands n) (GTF_OVERFLOW n) (GTF_SET_FLAGS n)
    (GTF_CONTAINED n) (GTF_IND_REQ_ADDR_IN_REG n) (GTF_EXCEPT n) (GTF_IND_NONFAULTING n)
    (LIR_Mark n) (LIR_UnusedValue n) (LIR_RegOptional n) v (gtDconVal n) (gtLclNum n)
    (gtLclOffs n) (gtScale n) (gtOffset n) (gtHWIntrinsicId n) (gtSimdBaseJitType n)
    (gtSimdSize n) (gtSimdVal n) (gtRMWStatus n).

Definition set_gtDconVal (v : Z) : GenTree :=
  mkGenTree (gtOper n) (gtType n) (gtOperands n) (GTF_OVERFLOW n) (GTF_SET_FLAGS n)
    (GTF_CONTAINED n) (GTF_IND_REQ_ADDR_IN_REG n) (GTF_EXCEPT n) (GTF_IND_NONFAULTING n)
    (LIR_Mark n) (LIR_UnusedValue n) (LIR_RegOptional n) (gtIconVal n) v (gtLclNum n)
    (gtLclOffs n) (gtScale n) (gtOffset n) (gtHWIntrinsicId n) (gtSimdBaseJitType n)
    (gtSimdSize n) (gtSimdVal n) (gtRMWStatus n).

Definition set_gtLclNum (v : nat) : GenTree :=
  mkGenTree (gtOper n) (gtType n) (gtOperands n) (GTF_OVERFLOW n) (GTF_SET_FLAGS n)
    (GTF_CONTAINED n) (GTF_IND_REQ_ADDR_IN_REG n) (GTF_EXCEPT n) (GTF_IND_NONFAULTING n)
    (LIR_Mark n) (LIR_UnusedValue n) (LIR_RegOptional n) (gtIconVal n) (gtDconVal n) v
    (gtLclOffs n) (gtScale n) (gtOffset n) (gtHWIntrinsicId n) (gtSimdBaseJitType n)
    (gtSimdSize n) (gtSimdVal n) (gtRMWStatus n).

Definition set_gtScale (v : nat) : GenTree :=
  mkGenTree (gtOper n) (gtType n) (gtOperands n) (GTF_OVERFLOW n) (GTF_SET_FLAGS n)
    (GTF_CONTAINED n) (GTF_IND_REQ_ADDR_IN_REG n) (GTF_EXCEPT n) (GTF_IND_NONFAULTING n)
    (LIR_Mark n) (LIR_UnusedValue n) (LIR_RegOptional n) (gtIconVal n) (gtDconVal n)
    (gtLclNum n) (gtLclOffs n) v (gtOffset n) (gtHWIntrinsicId n) (gtSimdBaseJitType n)
    (gtSimdSize n) (gtSimdVal n) (gtRMWStatus n).

Definition set_gtOffset (v : Z) : GenTree :=
  mkGenTree (gtOper n) (gtType n) (gtOperands n) (GTF_OVERFLOW n) (GTF_SET_FLAGS n)
    (GTF_CONTAINED n) (GTF_IND_REQ_ADDR_IN_REG n) (GTF_EXCEPT n) (GTF_IND_NONFAULTING n)
    (LIR_Mark n) (LIR_UnusedValue n) (LIR_RegOptional n) (gtIconVal n) (gtDconVal n)
    (gtLclNum n) (gtLclOffs n) (gtScale n) v (gtHWIntrinsicId n) (gtSimdBaseJitType n)
    (gtSimdSize n) (gtSimdVal n) (gtRMWStatus n).

Definition set_gtHWIntrinsicId (v : NamedIntrinsic) : GenTree :=
  mkGenTree (gtOper n) (gtType n) (gtOperands n) (GTF_OVERFLOW n) (GTF_SET_FLAGS n)
    (GTF_CONTAINED n) (GTF_IND_REQ_ADDR_IN_REG n) (GTF_EXCEPT n) (GTF_IND_NONFAULTING n)
    (LIR_Mark n) (LIR_UnusedValue n) (LIR_RegOptional n) (gtIconVal n) (gtDconVal n)
    (gtLclNum n) (gtLclOffs n) (gtScale n) (gtOffset n) v (gtSimdBaseJitType n)
    (gtSimdSize n) (gtSimdVal n) (gtRMWStatus n).

Definition set_gtSimdBaseJitType (v : CorInfoType) : GenTree :=
  mkGenTree (gtOper n) (gtType n) (gtOperands n) (GTF_OVERFLOW n) (GTF_SET_FLAGS n)
    (GTF_CONTAINED n) (GTF_IND_REQ_ADDR_IN_REG n) (GTF_EXCEPT n) (GTF_IND_NONFAULTING n)
    (LIR_Mark n) (LIR_UnusedValue n) (LIR_RegOptional n) (gtIconVal n) (gtDconVal n)
    (gtLclNum n) (gtLclOffs n) (gtScale n) (gtOffset n) (gtHWIntrinsicId n) v
    (gtSimdSize n) (gtSimdVal n) (gtRMWStatus n).

Definition set_gtSimdSize (v : nat) : GenTree :=
  mkGenTree (gtOper n) (gtType n) (gtOperands n) (GTF_OVERFLOW n) (GTF_SET_FLAGS n)
    (GTF_CONTAINED n) (GTF_IND_REQ_ADDR_IN_REG n) (GTF_EXCEPT n) (GTF_IND_NONFAULTING n)
    (LIR_Mark n) (LIR_UnusedValue n) (LIR_RegOptional n) (gtIconVal n) (gtDconVal n)
    (gtLclNum n) (gtLclOffs n) (gtScale n) (gtOffset n) (gtHWIntrinsicId n)
    (gtSimdBaseJitType n) v (gtSimdVal n) (gtRMWStatus n).

Definition set_gtSimdVal (v : simd_t) : GenTree :=
  mkGenTree (gtOper n) (gtType n) (gtOperands n) (GTF_OVERFLOW n) (GTF_SET_FLAGS n)
    (GTF_CONTAINED n) (GTF_IND_REQ_ADDR_IN_REG n) (GTF_EXCEPT n) (GTF_IND_NONFAULTING n)
    (LIR_Mark n) (LIR_UnusedValue n) (LIR_RegOptional n) (gtIconVal n) (gtDconVal n)
    (gtLclNum n) (gtLclOffs n) (gtScale n) (gtOffset n) (gtHWIntrinsicId n)
    (gtSimdBaseJitType n) (gtSimdSize n) v (gtRMWStatus n).

Definition set_gtRMWStatus (v : RMWStatus) : GenTree :=
  mkGenTree (gtOper n) (gtType n) (gtOperands n) (GTF_OVERFLOW n) (GTF_SET_FLAGS n)
    (GTF_CONTAINED n) (GTF_IND_REQ_ADDR_IN_REG n) (GTF_EXCEPT n) (GTF_IND_NONFAULTING n)
    (LIR_Mark n) (LIR_UnusedValue n) (LIR_RegOptional n) (gtIconVal n) (gtDconVal n)
    (gtLclNum n) (gtLclOffs n) (gtScale n) (gtOffset n) (gtHWIntrinsicId n)
    (gtSimdBaseJitType n) (gtSimdSize n) (gtSimdVal n) v.
End setters.

(** ** Type predicates

    [vartype.h] is not part of this file; the predicates are written out for
    the types of the data model. *)

(** Modelled from the spec: [varTypeIsSmall], true for the integer types
    narrower than 32 bits ("sub-32-bit" operands; i8 and i16 in the data model). *)
Definition varTypeIsSmall (t : var_types) : bool :=
  match t with
  | TYP_BYTE | TYP_UBYTE | TYP_SHORT | TYP_USHORT => true
  | _ => false
  end.

(** Modelled from the spec: [varTypeIsByte], the two 8-bit integer types. *)
Definition varTypeIsByte (t : var_types) : bool :=
  match t with TYP_BYTE | TYP_UBYTE => true | _ => false end.

(** Modelled from the spec: [varTypeIsFloating], f32 and f64 of the data model. *)
Definition varTypeIsFloating (t : var_types) : bool :=
  match t with TYP_FLOAT | TYP_DOUBLE => true | _ => false end.

(** Modelled from the spec: [varTypeIsIntegral], i8 .. i64 of the data model in
    both signednesses. *)
Definition varTypeIsIntegral (t : var_types) : bool :=
  match t with
  | TYP_BYTE | TYP_UBYTE | TYP_SHORT | TYP_USHORT
  | TYP_INT | TYP_UINT | TYP_LONG | TYP_ULONG => true
  | _ => false
  end.

(** Modelled from the spec: [varTypeIsSIMD], SIMD8/12/16/32/64 of the data model. *)
Definition varTypeIsSIMD (t : var_types) : bool :=
  match t with
  | TYP_SIMD8 | TYP_SIMD12 | TYP_SIMD16 | TYP_SIMD32 | TYP_SIMD64 => true
  | _ => false
  end.

(** Modelled from the spec: [genTypeSize], the width in bytes of a value of the
    type; references are pointer sized, which [ptrSize] supplies. *)
Definition genTypeSize (ptrSize : nat) (t : var_types) : nat :=
  match t with
  | TYP_VOID | TYP_STRUCT => 0
  | TYP_BYTE | TYP_UBYTE => 1
  | TYP_SHORT | TYP_USHORT => 2
  | TYP_INT | TYP_UINT | TYP_FLOAT => 4
  | TYP_LONG | TYP_ULONG | TYP_DOUBLE | TYP_SIMD8 | TYP_MASK => 8
  | TYP_REF | TYP_BYREF => ptrSize
  | TYP_SIMD12 => 12
  | TYP_SIMD16 => 16
  | TYP_SIMD32 => 32
  | TYP_SIMD64 => 64
  end.

(** ** The lowering state *)

(** The state the lowering routines of this file read and update: the node
    arena of the compilation, the block range being lowered ([BlockRange()]),
    and the scratch side-effect accumulator [m_scratchSideEffects], kept as
    the list of nodes added to it since it was last cleared. *)
Record Lowering : Type := mkLowering {
  gtNodes : gmap nat GenTree;
  m_blockRange : list GenTreePtr;
  m_scratchSideEffects : list GenTreePtr
}.

Definition set_gtNodes (f : gmap nat GenTree → gmap nat GenTree) (s : Lowering) : Lowering :=
  mkLowering (f (gtNodes s)) (m_blockRange s) (m_scratchSideEffects s).

Definition set_blockRange (f : list GenTreePtr → list GenTreePtr) (s : Lowering) : Lowering :=
  mkLowering (gtNodes s) (f (m_blockRange s)) (m_scratchSideEffects s).

Definition set_scratchSideEffects (l : list GenTreePtr) (s : Lowering) : Lowering :=
  mkLowering (gtNodes s) (m_blockRange s) l.

(** Reading through a handle.  A handle that is not in the arena reads as a
    [GT_NONE] node; the theorems below only speak about handles that are. *)
Definition gt (s : Lowering) (p : GenTreePtr) : GenTree :=
  default (gtNewNode GT_NONE TYP_VOID []) (gtNodes s !! p).

(** In-place update of the node behind a handle. *)
Definition gtUpd (p : GenTreePtr) (f : GenTree → GenTree) (s : Lowering) : Lowering :=
  set_gtNodes (alter f p) s.

(** [node->Op(i)], operands counted from 1 as in the source; [gtGetOp1] and
    [gtGetOp2] are [Op 1] and [Op 2]. *)
Definition Op (s : Lowering) (p : GenTreePtr) (i : nat) : GenTreePtr :=
  default 0 (gtOperands (gt s p) !! pred i).

Definition gtGetOp1 (s : Lowering) (p : GenTreePtr) : GenTreePtr := Op s p 1.
Definition gtGetOp2 (s : Lowering) (p : GenTreePtr) : GenTreePtr := Op s p 2.

(** Allocation of a node: a handle that the arena does not hold yet and that
    is not the null handle [0]. *)
Definition gtAlloc (n : GenTree) (s : Lowering) : GenTreePtr * Lowering :=
  let p := fresh ({[0]} ∪ dom (gtNodes s)) in
  (p, set_gtNodes (insert p n) s).

(** ** Node queries of [gentree.h] *)

Definition OperIs (s : Lowering) (p : GenTreePtr) (o : genTreeOps) : bool :=
  bool_decide (gtOper (gt s p) = o).

Definition TypeIs (s : Lowering) (p : GenTreePtr) (t : var_types) : bool :=
  bool_decide (gtType (gt s p) = t).

Definition isContained (s : Lowering) (p : GenTreePtr) : bool := GTF_CONTAINED (gt s p).

Definition IsCnsIntOrI (s : Lowering) (p : GenTreePtr) : bool := OperIs s p GT_CNS_INT.

(** Modelled from the spec: [IsIntegralConst(c)], the node is an integer
    constant ([GT_CNS_INT], or [GT_CNS_LNG] for a long on a 32-bit target)
    whose value is [c]. *)
Definition IsIntegralConst (s : Lowering) (p : GenTreePtr) (c : Z) : bool :=
  (OperIs s p GT_CNS_INT || OperIs s p GT_CNS_LNG) && bool_decide (gtIconVal (gt s p) = c).

Definition OperIsHWIntrinsic (s : Lowering) (p : GenTreePtr) : bool := OperIs s p GT_HWINTRINSIC.

(** Modelled from the spec: "Contain a child — marking it as a memory/immediate
    operand of the parent"; [MakeSrcContained(parent, child)] sets the child's
    contained flag, [ClearContained] clears it together with reg-optional, and
    [MakeSrcRegOptional] sets reg-optional. *)
Definition SetContained (p : GenTreePtr) : Lowering → Lowering :=
  gtUpd p (λ n, set_GTF_CONTAINED n true).

Definition ClearContained (p : GenTreePtr) : Lowering → Lowering :=
  gtUpd p (λ n, set_LIR_RegOptional (set_GTF_CONTAINED n false) false).

Definition MakeSrcContained (parent child : GenTreePtr) : Lowering → Lowering :=
  SetContained child.

Definition SetRegOptional (p : GenTreePtr) : Lowering → Lowering :=
  gtUpd p (λ n, set_LIR_RegOptional n true).

Definition MakeSrcRegOptional (parent child : GenTreePtr) : Lowering → Lowering :=
  SetRegOptional child.

Definition SetUnusedValue (p : GenTreePtr) : Lowering → Lowering :=
  gtUpd p (λ n, set_LIR_UnusedValue n true).

Definition ChangeOper (p : GenTreePtr) (o : genTreeOps) : Lowering → Lowering :=
  gtUpd p (λ n, set_gtOper n o).

Definition ChangeType (p : GenTreePtr) (t : var_types) : Lowering → Lowering :=
  gtUpd p (λ n, set_gtType n t).

Definition SetIconValue (p : GenTreePtr) (v : Z) : Lowering → Lowering :=
  gtUpd p (λ n, set_gtIconVal n v).

(** [node->ResetHWIntrinsicId(id, ops...)]: the node keeps its identity, type
    and SIMD fields and gets a new intrinsic id and operand list. *)
Definition ResetHWIntrinsicId (p : GenTreePtr) (id : NamedIntrinsic) (ops : list GenTreePtr)
    : Lowering → Lowering :=
  gtUpd p (λ n, set_gtOperands (set_gtHWIntrinsicId n id) ops).

(** ** The block range

    Modelled from the spec: the BlockRange is "an ordered mutable sequence of
    nodes for one basic block, supporting insert-before, insert-after, remove,
    and forward/backward traversal"; [lir.cpp] is not part of this file. *)

Fixpoint insert_before (pos : GenTreePtr) (new : list GenTreePtr) (l : list GenTreePtr)
    : list GenTreePtr :=
  match l with
  | [] => []
  | x :: l' => if decide (x = pos) then new ++ x :: l' else x :: insert_before pos new l'
  end.

Fixpoint insert_after (pos : GenTreePtr) (new : list GenTreePtr) (l : list GenTreePtr)
    : list GenTreePtr :=
  match l with
  | [] => []
  | x :: l' => if decide (x = pos) then x :: new ++ l' else x :: insert_after pos new l'
  end.

Definition BlockRange_Remove (p : GenTreePtr) : Lowering → Lowering :=
  set_blockRange (filter (λ x, x ≠ p)).

Definition BlockRange_InsertBefore (pos : GenTreePtr) (new : list GenTreePtr)
    : Lowering → Lowering :=
  set_blockRange (insert_before pos new).

Definition BlockRange_InsertAfter (pos : GenTreePtr) (new : list GenTreePtr)
    : Lowering → Lowering :=
  set_blockRange (insert_after pos new).

(** The nodes of the range after [p] (the walk from [p->gtNext]) and before
    [p], nearest first (the walk from [p->gtPrev]). *)
Fixpoint nodes_after (p : GenTreePtr) (l : list GenTreePtr) : list GenTreePtr :=
  match l with
  | [] => []
  | x :: l' => if decide (x = p) then l' else nodes_after p l'
  end.

Definition nodes_before (p : GenTreePtr) (l : list GenTreePtr) : list GenTreePtr :=
  nodes_after p (reverse l).

Definition gtNext (s : Lowering) (p : GenTreePtr) : option GenTreePtr :=
  head (nodes_after p (m_blockRange s)).

Definition gtPrev (s : Lowering) (p : GenTreePtr) : option GenTreePtr :=
  head (nodes_before p (m_blockRange s)).

(** Modelled from the spec: a Use is "a handle (node, operand-slot,
    containing-range) used to replace a subtree with another value; when a node
    has no use in the range, it is an unused value".  The user is the first
    node after the definition that has an operand edge to it. *)
Record LIR_Use : Type := mkUse { Use_User : GenTreePtr; Use_Slot : nat }.

Fixpoint index_of (p : GenTreePtr) (l : list GenTreePtr) : option nat :=
  match l with
  | [] => None
  | x :: l' => if decide (x = p) then Some 0 else S <$> index_of p l'
  end.

Fixpoint find_use (s : Lowering) (def : GenTreePtr) (l : list GenTreePtr) : option LIR_Use :=
  match l with
  | [] => None
  | u :: l' =>
      match index_of def (gtOperands (gt s u)) with
      | Some i => Some (mkUse u i)
      | None => find_use s def l'
      end
  end.

Definition BlockRange_TryGetUse (s : Lowering) (def : GenTreePtr) : option LIR_Use :=
  find_use s def (nodes_after def (m_blockRange s)).

(** [use.ReplaceWith(newNode)]: the operand slot of the user now holds [newNode]. *)
Definition Use_ReplaceWith (use : LIR_Use) (new : GenTreePtr) : Lowering → Lowering :=
  gtUpd (Use_User use) (λ n, set_gtOperands n (<[Use_Slot use := new]> (gtOperands n))).

(** ** The compiler environment

    What the lowering routines consume from the rest of the JIT and do not
    define themselves: the options and the build target, the ISA-availability
    predicates, the local-variable table, and the routines of [lower.cpp],
    [gentree.cpp] and [sideeffects.h] that [lowerxarch.cpp] calls.  The last
    group of fields stands for parts of [lowerxarch.cpp] that lie outside the
    properties established here. *)
Record Compiler : Type := mkCompiler {
  opts_MinOpts : bool;
  opts_OptimizationEnabled : bool;
  TARGET_X86 : bool;
  TARGET_64BIT : bool;
  compOpportunisticallyDependsOn : InstructionSet → bool;
  canUseEmbeddedBroadcast : bool;
  canUseVexEncoding : bool;
  lvaIsAddressExposed : nat → bool;
  ImmedValNeedsReloc : GenTree → bool;
  FitsInAddrBase : GenTree → bool;
  IsVectorPerElementMask : Lowering → GenTreePtr → var_types → nat → bool;
  IsHWIntrinsicCreateConstant : Lowering → GenTreePtr → option simd_t;
  isEmbeddedBroadcastCompatibleHWIntrinsic : Lowering → GenTreePtr → bool;
  LowerNode : GenTreePtr → Lowering → option GenTreePtr * Lowering;
  ReplaceWithLclVar : LIR_Use → Lowering → GenTreePtr * Lowering;
  IsInvariantInRange : Lowering → GenTreePtr → GenTreePtr → bool;
  IsSafeToContainMem : Lowering → GenTreePtr → GenTreePtr → bool;
  IsSafeToMarkRegOptional : Lowering → GenTreePtr → GenTreePtr → bool;
  IsContainableMemoryOp : Lowering → GenTreePtr → bool;
  IsContainableMemoryOpSize : Lowering → GenTreePtr → GenTreePtr → bool;
  IsContainableLclAddr : Lowering → GenTreePtr → nat → bool;
  IndirsAreEquivalent : Lowering → GenTreePtr → GenTreePtr → bool;
  SetRegOptionalForBinOp : GenTreePtr → bool → bool → Lowering → Lowering;
  SideEffects_InterferesWith : Lowering → list GenTreePtr → GenTreePtr → bool;
  ContainCheckHWIntrinsic : GenTreePtr → Lowering → Lowering;
  ContainCheckFloatBinary : GenTreePtr → Lowering → Lowering;
  ContainCheckStoreIndir_HWIntrinsicData : GenTreePtr → GenTreePtr → Lowering → Lowering;
  HWIntrinsicOperandSupport : Lowering → GenTreePtr → GenTreePtr → bool * bool * nat * nat;
  IsContainableHWIntrinsicOp_IntrinsicChild :
    Lowering → GenTreePtr → GenTreePtr → bool → nat → bool;
  IsInvariant : Lowering → GenTreePtr → bool;
  OperMayThrow : Lowering → GenTreePtr → bool;
  LIR_Use_ReplaceWithLclVar : LIR_Use → Lowering → Lowering;
  gtCloneExpr : GenTreePtr → Lowering → GenTreePtr * Lowering;
  gtNewNullCheck : GenTreePtr → Lowering → GenTreePtr * Lowering;
  TernaryLogicInfo_GetAllUseFlags : Z → TernaryLogicUseFlags;
  TernaryLogicInfo_GetTernaryControlByte : Z → Z → Z → Z → Z;
  LowerHWIntrinsicTernaryLogic_Select : GenTreePtr → Lowering → Lowering;
  LowerHWIntrinsicGetElement_Extract : GenTreePtr → Lowering → option GenTreePtr * Lowering;
  LowerHWIntrinsicCreate_NonConstant : GenTreePtr → Lowering → option GenTreePtr * Lowering
}.

(** [TARGET_POINTER_SIZE]. *)
Definition ptrSize (comp : Compiler) : nat := if TARGET_64BIT comp then 8 else 4.

Definition genTypeSizeOf (comp : Compiler) (s : Lowering) (p : GenTreePtr) : nat :=
  genTypeSize (ptrSize comp) (gtType (gt s p)).

(** ** Operator kinds

    The operator tables of [gtlist.h], restricted to the operators above. *)

(** Modelled from the spec: operators with one operand edge. *)
Definition OperIsUnary (o : genTreeOps) : bool :=
  match o with
  | GT_NOP | GT_STORE_LCL_VAR | GT_STORE_LCL_FLD | GT_NOT | GT_NEG | GT_CAST
  | GT_BSWAP | GT_BSWAP16 | GT_IND => true
  | _ => false
  end.

(** Modelled from the spec: operators with two operand edges. *)
Definition OperIsBinary (o : genTreeOps) : bool :=
  match o with
  | GT_STOREIND | GT_LEA | GT_LONG | GT_ADD | GT_SUB | GT_MUL | GT_DIV | GT_MOD
  | GT_OR | GT_XOR | GT_AND | GT_AND_NOT | GT_LSH | GT_RSH | GT_RSZ | GT_ROL | GT_ROR
  | GT_LSH_HI | GT_RSH_LO | GT_EQ | GT_NE | GT_LT => true
  | _ => false
  end.

Definition OperIsShift (o : genTreeOps) : bool :=
  match o with GT_LSH | GT_RSH | GT_RSZ => true | _ => false end.

Definition OperIsRotate (o : genTreeOps) : bool :=
  match o with GT_ROL | GT_ROR => true | _ => false end.

Definition OperIsShiftOrRotate (o : genTreeOps) : bool := OperIsShift o || OperIsRotate o.

(** Modelled from the spec: the commutative binary operators. *)
Definition OperIsCommutative (o : genTreeOps) : bool :=
  match o with GT_ADD | GT_MUL | GT_OR | GT_XOR | GT_AND => true | _ => false end.

Definition OperIsCompare (o : genTreeOps) : bool :=
  match o with GT_EQ | GT_NE | GT_LT => true | _ => false end.

(** Modelled from the spec: the operators with a read-modify-write memory form;
    the header comment of [IsRMWMemOpRootedAtStoreInd] lists add, sub, xor, or,
    and, the shifts, and not/neg, and its body also tests rotates. *)
Definition OperIsRMWMemOp (o : genTreeOps) : bool :=
  match o with
  | GT_ADD | GT_SUB | GT_AND | GT_OR | GT_XOR | GT_NOT | GT_NEG => true
  | _ => OperIsShiftOrRotate o
  end.

(** Modelled from the spec: arithmetic that can be overflow-checked. *)
Definition OperMayOverflow (o : genTreeOps) : bool :=
  match o with GT_ADD | GT_SUB | GT_MUL | GT_CAST => true | _ => false end.

Definition gtOverflow (s : Lowering) (p : GenTreePtr) : bool := GTF_OVERFLOW (gt s p).

Definition gtOverflowEx (s : Lowering) (p : GenTreePtr) : bool :=
  OperMayOverflow (gtOper (gt s p)) && GTF_OVERFLOW (gt s p).

(** Modelled from the spec: a local address with offset zero. *)
Definition IsLclVarAddr (s : Lowering) (p : GenTreePtr) : bool :=
  OperIs s p GT_LCL_ADDR && bool_decide (gtLclOffs (gt s p) = 0).

(** ** Immediate containment and indirections *)

(** Modelled from the spec: "an integer constant fitting signed 32 bits". *)
Definition IsIntCnsFitsInI32 (s : Lowering) (p : GenTreePtr) : bool :=
  IsCnsIntOrI s p &&
  bool_decide (- 2 ^ 31 ≤ gtIconVal (gt s p))%Z && bool_decide (gtIconVal (gt s p) < 2 ^ 31)%Z.

(** [Lowering::IsContainableImmed] *)
Definition IsContainableImmed (comp : Compiler) (s : Lowering)
    (parentNode childNode : GenTreePtr) : bool :=
  if negb (IsIntCnsFitsInI32 s childNode) then false
  else if ImmedValNeedsReloc comp (gt s childNode) then false
  else true.

(** [Lowering::ContainCheckIndir] *)
Definition ContainCheckIndir (comp : Compiler) (node : GenTreePtr) (s : Lowering) : Lowering :=
  let addr := gtGetOp1 s node in
  if TypeIs s node TYP_STRUCT then s
  else if GTF_IND_REQ_ADDR_IN_REG (gt s node) then s
  else if OperIs s addr GT_LCL_ADDR
          && IsContainableLclAddr comp s addr (genTypeSizeOf comp s node)
  then MakeSrcContained node addr s
  else if IsCnsIntOrI s addr then
    if (negb (TypeIs s addr TYP_SIMD12) || negb (ImmedValNeedsReloc comp (gt s addr)))
       && FitsInAddrBase comp (gt s addr)
    then MakeSrcContained node addr s
    else s
  else if OperIs s addr GT_LEA && IsInvariantInRange comp s addr node
  then MakeSrcContained node addr s
  else s.

(** [Lowering::ContainCheckStoreIndir].  The switch over the intrinsic id of a
    hardware-intrinsic source is [ContainCheckStoreIndir_HWIntrinsicData]. *)
Definition ContainCheckStoreIndir (comp : Compiler) (node : GenTreePtr) (s : Lowering)
    : Lowering :=
  let src := gtGetOp2 s node in
  let s1 :=
    if IsContainableImmed comp s node src
       && (negb (IsIntegralConst s src 0) || varTypeIsSmall (gtType (gt s node)))
    then MakeSrcContained node src s
    else s in
  let s2 :=
    if opts_OptimizationEnabled comp then
      if (OperIs s1 src GT_BSWAP || OperIs s1 src GT_BSWAP16)
         && compOpportunisticallyDependsOn comp InstructionSet_AVX2
      then
        let swapSize := if OperIs s1 src GT_BSWAP16 then 2 else genTypeSizeOf comp s1 src in
        if bool_decide (swapSize = genTypeSizeOf comp s1 node)
           && IsInvariantInRange comp s1 src node
        then MakeSrcContained node src (ClearContained (gtGetOp1 s1 src) s1)
        else s1
      else if OperIsHWIntrinsic s1 src
      then ContainCheckStoreIndir_HWIntrinsicData comp node src s1
      else s1
    else s1 in
  ContainCheckIndir comp node s2.

(** ** The read-modify-write detector *)

Definition SetRMWStatus (p : GenTreePtr) (st : RMWStatus) : Lowering → Lowering :=
  gtUpd p (λ n, set_gtRMWStatus n st).

Definition SetRMWStatusDefault (p : GenTreePtr) : Lowering → Lowering :=
  SetRMWStatus p STOREIND_RMW_STATUS_UNKNOWN.

Definition GetRMWStatus (s : Lowering) (p : GenTreePtr) : RMWStatus := gtRMWStatus (gt s p).

Definition RMWStatus_IsRMW (st : RMWStatus) : bool :=
  match st with STOREIND_RMW_DST_IS_OP1 | STOREIND_RMW_DST_IS_OP2 => true | _ => false end.

Definition RMWStatus_IsNonRMW (st : RMWStatus) : bool :=
  match st with
  | STOREIND_RMW_UNSUPPORTED_ADDR | STOREIND_RMW_UNSUPPORTED_OPER
  | STOREIND_RMW_UNSUPPORTED_TYPE | STOREIND_RMW_INDIR_UNEQUAL => true
  | _ => false
  end.

Definition IsRMWMemoryOp (s : Lowering) (p : GenTreePtr) : bool := RMWStatus_IsRMW (GetRMWStatus s p).
Definition IsNonRMWMemoryOp (s : Lowering) (p : GenTreePtr) : bool :=
  RMWStatus_IsNonRMW (GetRMWStatus s p).
Definition IsRMWDstOp1 (s : Lowering) (p : GenTreePtr) : bool :=
  bool_decide (GetRMWStatus s p = STOREIND_RMW_DST_IS_OP1).

Definition SetMark (p : GenTreePtr) (b : bool) : Lowering → Lowering :=
  gtUpd p (λ n, set_LIR_Mark n b).

Definition ClearRegOptional (p : GenTreePtr) : Lowering → Lowering :=
  gtUpd p (λ n, set_LIR_RegOptional n false).

(** [m_scratchSideEffects.AddNode(comp, node)] *)
Definition SideEffects_AddNode (p : GenTreePtr) (s : Lowering) : Lowering :=
  set_scratchSideEffects (p :: m_scratchSideEffects s) s.

(** The inner loop of [IsRMWIndirCandidate] that clears the leftover mark bits,
    walking backwards from the current node; [None] is the walk leaving the
    range with marks outstanding (a null [gtPrev]). *)
Fixpoint IsRMWIndirCandidate_clearMarks (l : list GenTreePtr) (markCount : nat) (s : Lowering)
    : option Lowering :=
  match markCount with
  | O => Some s
  | S markCount' =>
      match l with
      | [] => None
      | node :: l' =>
          if LIR_Mark (gt s node)
          then IsRMWIndirCandidate_clearMarks l' markCount' (SetMark node false s)
          else IsRMWIndirCandidate_clearMarks l' markCount s
      end
  end.

(** The backwards crawl of [IsRMWIndirCandidate] from [storeInd->gtPrev]: [l]
    is the part of the range still ahead of the crawl, nearest node first. *)
Fixpoint IsRMWIndirCandidate_walk (comp : Compiler) (l : list GenTreePtr) (markCount : nat)
    (s : Lowering) : option (bool * Lowering) :=
  match markCount with
  | O => Some (true, s)
  | S markCount' =>
      match l with
      | [] => None
      | node :: l' =>
          if negb (LIR_Mark (gt s node))
          then IsRMWIndirCandidate_walk comp l' markCount (SideEffects_AddNode node s)
          else
            let s1 := SetMark node false s in
            if SideEffects_InterferesWith comp s1 (m_scratchSideEffects s1) node
            then s2 ← IsRMWIndirCandidate_clearMarks (node :: l') markCount' s1;
                 Some (false, s2)
            else
              let ops := gtOperands (gt s1 node) in
              let s2 := foldl (λ s' o, SetMark o true s') s1 ops in
              IsRMWIndirCandidate_walk comp l' (markCount' + length ops) s2
      end
  end.

(** [Lowering::IsRMWIndirCandidate] *)
Definition IsRMWIndirCandidate (comp : Compiler) (operand storeInd : GenTreePtr) (s : Lowering)
    : option (bool * Lowering) :=
  if negb (OperIs s operand GT_IND) then Some (false, s)
  else
    let srcAddr := gtGetOp1 s operand in
    let dstAddr := gtGetOp1 s storeInd in
    if bool_decide (gtOper (gt s srcAddr) ≠ gtOper (gt s dstAddr))
       || negb (IndirsAreEquivalent comp s operand storeInd)
    then Some (false, s)
    else
      let s1 := set_scratchSideEffects [] s in
      let s2 := SetMark operand true s1 in
      IsRMWIndirCandidate_walk comp (nodes_before storeInd (m_blockRange s2)) 1 s2.

(** What [IsRMWMemOpRootedAtStoreInd] hands back: its boolean and the two out
    parameters ([0] for [nullptr]). *)
Record RMWResult : Type := mkRMWResult {
  rmwFound : bool;
  outIndirCandidate : GenTreePtr;
  outIndirOpSource : GenTreePtr
}.

Definition rmwNo : RMWResult := mkRMWResult false 0 0.

(** The tail of [IsRMWMemOpRootedAtStoreInd], reached once a candidate and a
    status are chosen: the destination address must still be safe to move. *)
Definition IsRMWMemOpRootedAtStoreInd_finish (comp : Compiler) (storeInd indirDst : GenTreePtr)
    (indirCandidate indirOpSource : GenTreePtr) (status : RMWStatus) (s : Lowering)
    : RMWResult * Lowering :=
  if negb (IsSafeToContainMem comp s storeInd indirDst)
  then (rmwNo, SetRMWStatus storeInd STOREIND_RMW_UNSUPPORTED_ADDR s)
  else (mkRMWResult true indirCandidate indirOpSource, SetRMWStatus storeInd status s).

(** [Lowering::IsRMWMemOpRootedAtStoreInd] *)
Definition IsRMWMemOpRootedAtStoreInd (comp : Compiler) (tree : GenTreePtr) (s : Lowering)
    : option (RMWResult * Lowering) :=
  let storeInd := tree in
  if IsNonRMWMemoryOp s storeInd then Some (rmwNo, s)
  else
    let indirDst := gtGetOp1 s storeInd in
    let indirSrc := gtGetOp2 s storeInd in
    let oper := gtOper (gt s indirSrc) in
    if IsRMWMemoryOp s storeInd then
      if OperIsBinary oper then
        if IsRMWDstOp1 s storeInd
        then Some (mkRMWResult true (gtGetOp1 s indirSrc) (gtGetOp2 s indirSrc), s)
        else Some (mkRMWResult true (gtGetOp2 s indirSrc) (gtGetOp1 s indirSrc), s)
      else Some (mkRMWResult true (gtGetOp1 s indirSrc) (gtGetOp1 s indirSrc), s)
    else if negb (OperIs s indirDst GT_LEA || OperIs s indirDst GT_LCL_VAR
                  || OperIs s indirDst GT_CNS_INT)
            && negb (IsLclVarAddr s indirDst)
    then Some (rmwNo, SetRMWStatus storeInd STOREIND_RMW_UNSUPPORTED_ADDR s)
    else if gtOverflowEx s indirSrc
    then Some (rmwNo, SetRMWStatus storeInd STOREIND_RMW_UNSUPPORTED_OPER s)
    else if OperIsBinary oper then
      if negb (OperIsRMWMemOp oper)
      then Some (rmwNo, SetRMWStatus storeInd STOREIND_RMW_UNSUPPORTED_OPER s)
      else if OperIsShiftOrRotate oper && varTypeIsSmall (gtType (gt s storeInd))
      then Some (rmwNo, SetRMWStatus storeInd STOREIND_RMW_UNSUPPORTED_TYPE s)
      else
        '(isOp2, s2) ← (if OperIsCommutative oper
                        then IsRMWIndirCandidate comp (gtGetOp2 s indirSrc) storeInd s
                        else Some (false, s));
        if (isOp2 : bool)
        then Some (IsRMWMemOpRootedAtStoreInd_finish comp storeInd indirDst
                     (gtGetOp2 s2 indirSrc) (gtGetOp1 s2 indirSrc) STOREIND_RMW_DST_IS_OP2 s2)
        else
          '(isOp1, s1) ← IsRMWIndirCandidate comp (gtGetOp1 s2 indirSrc) storeInd s2;
          if (isOp1 : bool)
          then Some (IsRMWMemOpRootedAtStoreInd_finish comp storeInd indirDst
                       (gtGetOp1 s1 indirSrc) (gtGetOp2 s1 indirSrc) STOREIND_RMW_DST_IS_OP1 s1)
          else Some (rmwNo, SetRMWStatus storeInd STOREIND_RMW_UNSUPPORTED_ADDR s1)
    else if OperIsUnary oper then
      if bool_decide (oper ≠ GT_NOT) && bool_decide (oper ≠ GT_NEG)
      then Some (rmwNo, SetRMWStatus storeInd STOREIND_RMW_UNSUPPORTED_OPER s)
      else if bool_decide (gtOper (gt s (gtGetOp1 s indirSrc)) ≠ GT_IND)
      then Some (rmwNo, SetRMWStatus storeInd STOREIND_RMW_UNSUPPORTED_ADDR s)
      else
        '(isOp1, s1) ← IsRMWIndirCandidate comp (gtGetOp1 s indirSrc) storeInd s;
        if (isOp1 : bool)
        then Some (IsRMWMemOpRootedAtStoreInd_finish comp storeInd indirDst
                     (gtGetOp1 s1 indirSrc) (gtGetOp1 s1 indirSrc) STOREIND_RMW_DST_IS_OP1 s1)
        else Some (rmwNo, SetRMWStatus storeInd STOREIND_RMW_UNSUPPORTED_ADDR s1)
    else Some (rmwNo, SetRMWStatus storeInd STOREIND_RMW_UNSUPPORTED_OPER s).

(** [Lowering::IsBinOpInRMWStoreInd] *)
Definition IsBinOpInRMWStoreInd (comp : Compiler) (tree : GenTreePtr) (s : Lowering)
    : option (bool * Lowering) :=
  if bool_decide (gtOper (gt s (gtGetOp1 s tree)) ≠ GT_IND)
     && bool_decide (gtOper (gt s (gtGetOp2 s tree)) ≠ GT_IND)
  then Some (false, s)
  else
    match BlockRange_TryGetUse s tree with
    | None => Some (false, s)
    | Some use =>
        if bool_decide (gtOper (gt s (Use_User use)) ≠ GT_STOREIND)
           || bool_decide (gtGetOp2 s (Use_User use) ≠ tree)
        then Some (false, s)
        else
          '(r, s1) ← IsRMWMemOpRootedAtStoreInd comp (Use_User use) s;
          Some (rmwFound r, s1)
    end.

(** [Lowering::LowerRMWMemOp] *)
Definition LowerRMWMemOp (comp : Compiler) (storeInd : GenTreePtr) (s : Lowering)
    : option (bool * Lowering) :=
  '(r, s1) ← IsRMWMemOpRootedAtStoreInd comp storeInd s;
  if negb (rmwFound r) then Some (false, s1)
  else
    let indirCandidate := outIndirCandidate r in
    let indirOpSource := outIndirOpSource r in
    let indirDst := gtGetOp1 s1 storeInd in
    let indirSrc := gtGetOp2 s1 storeInd in
    let oper := gtOper (gt s1 indirSrc) in
    let s2 := ClearRegOptional (gtGetOp1 s1 indirSrc) s1 in
    let s3 :=
      if OperIsBinary oper then
        let s' := if IsContainableMemoryOp comp s2 indirOpSource
                  then ClearContained indirOpSource s2 else s2 in
        ClearRegOptional (gtGetOp2 s' indirSrc) s'
      else s2 in
    let s4 := SetContained indirSrc s3 in
    let s5 := SetContained indirCandidate s4 in
    let indirCandidateChild := gtGetOp1 s5 indirCandidate in
    let s6 := SetContained indirCandidateChild s5 in
    if OperIs s6 indirCandidateChild GT_LEA then
      let addrMode := indirCandidateChild in
      let s7 := if bool_decide (gtGetOp1 s6 addrMode ≠ 0)
                then SetContained (gtGetOp1 s6 addrMode) s6 else s6 in
      let s8 := if bool_decide (gtGetOp2 s7 addrMode ≠ 0)
                then SetContained (gtGetOp2 s7 addrMode) s7 else s7 in
      Some (true, SetContained indirDst s8)
    else if OperIs s6 indirCandidateChild GT_LCL_ADDR
            && IsContainableLclAddr comp s6 indirCandidateChild (genTypeSizeOf comp s6 storeInd)
    then Some (true, SetContained indirDst s6)
    else if IsCnsIntOrI s6 indirCandidateChild
            && FitsInAddrBase comp (gt s6 indirCandidateChild)
    then Some (true, SetContained indirDst s6)
    else Some (true, s6).

(** The part of [LowerStoreIndir] after the read-modify-write recognition. *)
Definition LowerStoreIndir_containment (comp : Compiler) (node : GenTreePtr) (s : Lowering)
    : option GenTreePtr * Lowering :=
  let data := gtGetOp2 s node in
  let s1 :=
    if varTypeIsByte (gtType (gt s node))
       && (OperIsCompare (gtOper (gt s data)) || OperIs s data GT_SETCC)
    then ChangeType data TYP_BYTE s
    else s in
  let s2 := ContainCheckStoreIndir comp node s1 in
  (gtNext s2 node, s2).

(** [Lowering::LowerStoreIndir] *)
Definition LowerStoreIndir (comp : Compiler) (node : GenTreePtr) (s : Lowering)
    : option (option GenTreePtr * Lowering) :=
  let s1 := SetRMWStatusDefault node s in
  if negb (varTypeIsFloating (gtType (gt s1 node))) then
    '(isRMW, s2) ← LowerRMWMemOp comp node s1;
    if (isRMW : bool) then Some (gtNext s2 node, s2)
    else Some (LowerStoreIndir_containment comp node s2)
  else Some (LowerStoreIndir_containment comp node s1).

(** ** Shifts, binary operators and multiplication by a constant *)

(** [Lowering::ContainCheckShiftRotate] *)
Definition ContainCheckShiftRotate (comp : Compiler) (node : GenTreePtr) (s : Lowering)
    : Lowering :=
  let source := gtGetOp1 s node in
  let shiftBy := gtGetOp2 s node in
  let s1 :=
    if TARGET_X86 comp && (OperIs s node GT_LSH_HI || OperIs s node GT_RSH_LO)
    then MakeSrcContained node source s else s in
  let s2 :=
    if IsContainableImmed comp s1 node shiftBy
       && bool_decide (gtIconVal (gt s1 shiftBy) ≤ 255)%Z
       && bool_decide (0 ≤ gtIconVal (gt s1 shiftBy))%Z
    then MakeSrcContained node shiftBy s1 else s1 in
  let canContainSource :=
    negb (isContained s2 source)
    && bool_decide (genTypeSizeOf comp s2 node ≤ genTypeSizeOf comp s2 source) in
  if canContainSource && negb (GTF_SET_FLAGS (gt s2 node))
     && negb (eqb (isContained s2 shiftBy) (OperIsShift (gtOper (gt s2 node))))
     && compOpportunisticallyDependsOn comp InstructionSet_AVX2
  then
    if IsContainableMemoryOp comp s2 source && IsSafeToContainMem comp s2 node source
    then MakeSrcContained node source s2
    else if IsSafeToMarkRegOptional comp s2 node source
    then MakeSrcRegOptional node source s2
    else s2
  else s2.

(** [Lowering::ContainCheckBinary] *)
Definition ContainCheckBinary (comp : Compiler) (node : GenTreePtr) (s : Lowering)
    : option Lowering :=
  if varTypeIsFloating (gtType (gt s node)) then Some (ContainCheckFloatBinary comp node s)
  else
    let op1 := gtGetOp1 s node in
    let op2 := gtGetOp2 s node in
    if IsContainableImmed comp s node op2 then Some (MakeSrcContained node op2 s)
    else
      '(binOpInRMW, s1) ← IsBinOpInRMWStoreInd comp node s;
      if (binOpInRMW : bool) then Some s1
      else
        let operand2 :=
          if IsContainableMemoryOpSize comp s1 node op2 && IsContainableMemoryOp comp s1 op2
             && IsSafeToContainMem comp s1 node op2
          then Some op2 else None in
        let operand :=
          match operand2 with
          | Some o => Some o
          | None =>
              if OperIsCommutative (gtOper (gt s1 node)) then
                if IsContainableImmed comp s1 node op1 then Some op1
                else if IsContainableMemoryOpSize comp s1 node op1
                        && IsContainableMemoryOp comp s1 op1
                        && IsSafeToContainMem comp s1 node op1
                then Some op1 else None
              else None
          end in
        match operand with
        | Some o => Some (MakeSrcContained node o s1)
        | None =>
            let isSafeToContainOp1 := IsSafeToMarkRegOptional comp s1 node op1 in
            let isSafeToContainOp2 := IsSafeToMarkRegOptional comp s1 node op2 in
            Some (SetRegOptionalForBinOp comp node isSafeToContainOp1 isSafeToContainOp2 s1)
        end.

(** Modelled from the spec: [isPow2], "c = 2ⁿ"; written as the usual bit test
    on a signed value ([utils.h] is not part of this file). *)
Definition isPow2 (i : Z) : bool := (0 <? i)%Z && (Z.land (i - 1) i =? 0)%Z.

(** Modelled from the spec: [genLog2], the [n] of "c = 2ⁿ". *)
Definition genLog2 (v : Z) : Z := Z.log2 v.

(** A 64-bit [ssize_t] with its wrap-around (the x64 build, where the
    additions of [TryLowerMulWithConstant] are reached). *)
Definition ssize_t_wrap (v : Z) : Z := ((v + 2 ^ 63) mod 2 ^ 64 - 2 ^ 63)%Z.

(** Modelled from the spec: [gtNewOperNode], a new node of the given operator,
    type and operands ("nodes are created by the middle-end or by lowering itself"). *)
Definition gtNewOperNode (oper : genTreeOps) (type : var_types) (op1 op2 : GenTreePtr)
    : Lowering → GenTreePtr * Lowering :=
  gtAlloc (gtNewNode oper type [op1; op2]).

(** Modelled from the spec: [gtClone] of a leaf, a new node with the fields of
    the cloned one. *)
Definition gtClone (p : GenTreePtr) (s : Lowering) : GenTreePtr * Lowering :=
  gtAlloc (gt s p) s.

Definition SetOp (p : GenTreePtr) (i : nat) (o : GenTreePtr) : Lowering → Lowering :=
  gtUpd p (λ n, set_gtOperands n (<[pred i := o]> (gtOperands n))).

(** [Lowering::TryLowerMulWithConstant] *)
Definition TryLowerMulWithConstant (comp : Compiler) (node : GenTreePtr) (s : Lowering)
    : option (option GenTreePtr * Lowering) :=
  if opts_MinOpts comp then Some (None, s)
  else if negb (varTypeIsIntegral (gtType (gt s node))) then Some (None, s)
  else if gtOverflow s node then Some (None, s)
  else
    let op1 := gtGetOp1 s node in
    let op2 := gtGetOp2 s node in
    if isContained s op1 || isContained s op2 then Some (None, s)
    else if negb (IsCnsIntOrI s op2) then Some (None, s)
    else
      let cns := op2 in
      let cnsVal := gtIconVal (gt s cns) in
      if bool_decide (cnsVal = 3%Z) || bool_decide (cnsVal = 5%Z) || bool_decide (cnsVal = 9%Z)
      then Some (None, s)
      else if isPow2 cnsVal then
        let shiftAmount := genLog2 cnsVal in
        let s1 := SetIconValue cns shiftAmount s in
        let s2 := ChangeOper node GT_LSH s1 in
        Some (Some node, ContainCheckShiftRotate comp node s2)
      else if TARGET_X86 comp then Some (None, s)
      else
        let cnsValPlusOne := ssize_t_wrap (cnsVal + 1) in
        let cnsValMinusOne := ssize_t_wrap (cnsVal - 1) in
        let useSub := isPow2 cnsValPlusOne in
        if negb useSub && negb (isPow2 cnsValMinusOne) then Some (None, s)
        else
          let '(op1, s1) := ReplaceWithLclVar comp (mkUse node 0) s in
          let '(cnsVal, s2) :=
            if useSub then (cnsValPlusOne, ChangeOper node GT_SUB s1)
            else (cnsValMinusOne, ChangeOper node GT_ADD s1) in
          let shiftAmount := genLog2 cnsVal in
          let s3 := SetIconValue cns shiftAmount s2 in
          let '(lsh, s4) := gtNewOperNode GT_LSH (gtType (gt s3 node)) op1 cns s3 in
          let s5 := SetOp node 1 lsh s4 in
          let '(clone, s6) := gtClone op1 s5 in
          let s7 := SetOp node 2 clone s6 in
          let s8 := BlockRange_Remove op1 s7 in
          let s9 := BlockRange_Remove cns s8 in
          let s10 := BlockRange_InsertBefore node [gtGetOp2 s9 node] s9 in
          let s11 := BlockRange_InsertBefore node [cns] s10 in
          let s12 := BlockRange_InsertBefore node [op1] s11 in
          let s13 := BlockRange_InsertBefore node [gtGetOp1 s12 node] s12 in
          s14 ← ContainCheckBinary comp node s13;
          Some (Some node, ContainCheckShiftRotate comp (gtGetOp1 s14 node) s14).

(** ** Scalar bit-manipulation peephole *)

(** Modelled from the spec: [gtNewScalarHWIntrinsicNode], a new scalar
    hardware-intrinsic node of the given type, operand and intrinsic id. *)
Definition gtNewScalarHWIntrinsicNode (type : var_types) (op1 : GenTreePtr)
    (id : NamedIntrinsic) : Lowering → GenTreePtr * Lowering :=
  gtAlloc (set_gtHWIntrinsicId (gtNewNode GT_HWINTRINSIC type [op1]) id).

(** [Lowering::TryLowerAndOpToResetLowestSetBit] *)
Definition TryLowerAndOpToResetLowestSetBit (comp : Compiler) (andNode : GenTreePtr)
    (s : Lowering) : option GenTreePtr * Lowering :=
  let op1 := gtGetOp1 s andNode in
  if negb (OperIs s op1 GT_LCL_VAR) || lvaIsAddressExposed comp (gtLclNum (gt s op1))
  then (None, s)
  else
    let op2 := gtGetOp2 s andNode in
    if negb (OperIs s op2 GT_ADD) then (None, s)
    else
      let addOp2 := gtGetOp2 s op2 in
      if negb (IsIntegralConst s addOp2 (-1)) then (None, s)
      else
        let addOp1 := gtGetOp1 s op2 in
        if negb (OperIs s addOp1 GT_LCL_VAR)
           || bool_decide (gtLclNum (gt s addOp1) ≠ gtLclNum (gt s op1))
        then (None, s)
        else if GTF_SET_FLAGS (gt s addOp2) || GTF_SET_FLAGS (gt s op2)
                || GTF_SET_FLAGS (gt s andNode)
        then (None, s)
        else
          let intrinsic :=
            if TypeIs s op1 TYP_LONG
               && compOpportunisticallyDependsOn comp InstructionSet_AVX2_X64
            then Some NI_AVX2_X64_ResetLowestSetBit
            else if compOpportunisticallyDependsOn comp InstructionSet_AVX2
            then Some NI_AVX2_ResetLowestSetBit
            else None in
          match intrinsic with
          | None => (None, s)
          | Some intrinsic =>
              match BlockRange_TryGetUse s andNode with
              | None => (None, s)
              | Some use =>
                  let '(blsrNode, s1) :=
                    gtNewScalarHWIntrinsicNode (gtType (gt s andNode)) op1 intrinsic s in
                  let s2 := BlockRange_InsertBefore andNode [blsrNode] s1 in
                  let s3 := Use_ReplaceWith use blsrNode s2 in
                  let s4 := BlockRange_Remove andNode s3 in
                  let s5 := BlockRange_Remove op2 s4 in
                  let s6 := BlockRange_Remove addOp1 s5 in
                  let s7 := BlockRange_Remove addOp2 s6 in
                  (Some blsrNode, ContainCheckHWIntrinsic comp blsrNode s7)
              end
          end.

(** ** Hardware intrinsics *)

(** Modelled from the spec: [gtNewIconNode], a new integer constant node. *)
Definition gtNewIconNode (value : Z) (type : var_types) : Lowering → GenTreePtr * Lowering :=
  gtAlloc (set_gtIconVal (gtNewNode GT_CNS_INT type []) value).

(** Modelled from the spec: [gtNewSimdHWIntrinsicNode], a new hardware-intrinsic
    node carrying its intrinsic id, SIMD base type and SIMD size. *)
Definition gtNewSimdHWIntrinsicNode (type : var_types) (ops : list GenTreePtr)
    (id : NamedIntrinsic) (simdBaseJitType : CorInfoType) (simdSize : nat)
    : Lowering → GenTreePtr * Lowering :=
  gtAlloc (set_gtSimdSize (set_gtSimdBaseJitType
             (set_gtHWIntrinsicId (gtNewNode GT_HWINTRINSIC type ops) id)
             simdBaseJitType) simdSize).

(** Modelled from the spec: [gtNewSimdBinOpNode], the new SIMD node that
    denotes [oper(op1, op2)] on vectors of the given base type and size; the
    node records the operator and the operands in the order given. *)
Definition gtNewSimdBinOpNode (oper : genTreeOps) (type : var_types) (op1 op2 : GenTreePtr)
    (simdBaseJitType : CorInfoType) (simdSize : nat) : Lowering → GenTreePtr * Lowering :=
  gtAlloc (set_gtSimdSize (set_gtSimdBaseJitType (gtNewNode oper type [op1; op2])
             simdBaseJitType) simdSize).

(** Modelled from the spec: [gtNewSimdCvtVectorToMaskNode], the new node that
    converts a vector of per-element masks to a [TYP_MASK] value. *)
Definition gtNewSimdCvtVectorToMaskNode (type : var_types) (op1 : GenTreePtr)
    (simdBaseJitType : CorInfoType) (simdSize : nat) : Lowering → GenTreePtr * Lowering :=
  gtNewSimdHWIntrinsicNode type [op1] NI_AVX512_ConvertVectorToMask simdBaseJitType simdSize.

Definition OperIsConvertMaskToVector (s : Lowering) (p : GenTreePtr) : bool :=
  OperIsHWIntrinsic s p && bool_decide (gtHWIntrinsicId (gt s p) = NI_AVX512_ConvertMaskToVector).

(** The bytes of a vector constant that its type covers. *)
Definition VecCon_bytes (n : GenTree) : list Z := take (genTypeSize 8 (gtType n)) (gtSimdVal n).

(** Modelled from the spec: the "all-zero" and "all-ones" tests of a vector
    constant, and "all elements equal to the same scalar" of a base type. *)
Definition VecCon_IsZero (n : GenTree) : bool := forallb (Z.eqb 0) (VecCon_bytes n).

Definition VecCon_IsAllBitsSet (n : GenTree) : bool := forallb (Z.eqb 255) (VecCon_bytes n).

Definition simd_elem (v : list Z) (elemSize i : nat) : list Z :=
  take elemSize (drop (i * elemSize) v).

Definition VecCon_IsBroadcast (n : GenTree) (simdBaseType : var_types) : bool :=
  let elemSize := genTypeSize 8 simdBaseType in
  let count := genTypeSize 8 (gtType n) `div` elemSize in
  forallb (λ i, bool_decide (simd_elem (gtSimdVal n) elemSize i = simd_elem (gtSimdVal n) elemSize 0))
          (seq 0 count).

Definition IsCnsVec (s : Lowering) (p : GenTreePtr) : bool := OperIs s p GT_CNS_VEC.

Definition IsVectorZero (s : Lowering) (p : GenTreePtr) : bool :=
  IsCnsVec s p && VecCon_IsZero (gt s p).

(** Modelled from the spec: a floating-point constant other than positive zero. *)
Definition IsCnsNonZeroFltOrDbl (s : Lowering) (p : GenTreePtr) : bool :=
  OperIs s p GT_CNS_DBL && negb (gtDconVal (gt s p) =? 0)%Z.

(** Little-endian reading of the lanes of a [simd_t]. *)
Definition le_unsigned (l : list Z) : Z := foldr (λ b acc, (b + 256 * acc)%Z) 0%Z l.

Definition to_signed (bits : Z) (v : Z) : Z :=
  if (v <? 2 ^ (bits - 1))%Z then v else (v - 2 ^ bits)%Z.

Definition simd_u32 (v : list Z) (i : nat) : Z := le_unsigned (simd_elem v 4 i).
Definition simd_i32 (v : list Z) (i : nat) : Z := to_signed 32 (simd_u32 v i).
Definition simd_u64 (v : list Z) (i : nat) : Z := le_unsigned (simd_elem v 8 i).
Definition simd_i64 (v : list Z) (i : nat) : Z := to_signed 64 (simd_u64 v i).

(** Modelled from the spec: the constant operators and the local-variable
    accesses of the operator enumeration; an address-mode node is a [GT_LEA]. *)
Definition OperIsConst (o : genTreeOps) : bool :=
  match o with GT_CNS_INT | GT_CNS_LNG | GT_CNS_DBL | GT_CNS_VEC => true | _ => false end.

Definition OperIsLocal (o : genTreeOps) : bool :=
  match o with
  | GT_LCL_VAR | GT_LCL_FLD | GT_STORE_LCL_VAR | GT_STORE_LCL_FLD => true
  | _ => false
  end.

Definition OperIsAddrMode (o : genTreeOps) : bool :=
  match o with GT_LEA => true | _ => false end.

Definition INT32_MAX : Z := (2 ^ 31 - 1)%Z.

(** [static_cast<uint8_t>] and the wrap-around of [int32_t] arithmetic. *)
Definition uint8_t_cast (v : Z) : Z := (v mod 256)%Z.
Definition int32_t_wrap (v : Z) : Z := ((v + 2 ^ 31) mod 2 ^ 32 - 2 ^ 31)%Z.

(** [TYP_I_IMPL], the native integer type. *)
Definition TYP_I_IMPL (comp : Compiler) : var_types :=
  if TARGET_64BIT comp then TYP_LONG else TYP_INT.

(** Modelled from the spec: [new GenTreeAddrMode], a new "LEA (address-mode)
    node: base + index*scale + disp" ([0] for an absent base or index). *)
Definition gtNewAddrMode (type : var_types) (base index : GenTreePtr) (scale : nat)
    (offset : Z) : Lowering → GenTreePtr * Lowering :=
  gtAlloc (set_gtOffset (set_gtScale (gtNewNode GT_LEA type [base; index]) scale) offset).

(** Modelled from the spec: [gtNewIndir], a new indirection of the given type
    and address that takes over the non-faulting flag it is given. *)
Definition gtNewIndir (type : var_types) (addr : GenTreePtr) (nonFaulting : bool)
    : Lowering → GenTreePtr * Lowering :=
  gtAlloc (set_GTF_IND_NONFAULTING (gtNewNode GT_IND type [addr]) nonFaulting).

(** The element offset that a constant index contributes to an address:
    [(static_cast<uint8_t>(index) % count) * elemSize]. *)
Definition GetElement_addOffset (index : Z) (count elemSize : nat) : Z :=
  ((uint8_t_cast index mod Z.of_nat count) * Z.of_nat elemSize)%Z.

(** The block of [LowerHWIntrinsicGetElement] that forces the side effects of
    an indirection that cannot be moved; it yields the address to build on. *)
Definition LowerHWIntrinsicGetElement_ForceIndir (comp : Compiler) (node indir : GenTreePtr)
    (s : Lowering) : GenTreePtr * Lowering :=
  let addr := gtGetOp1 s indir in
  let canMoveTheIndirLater := IsInvariantInRange comp s indir node in
  if negb canMoveTheIndirLater then
    let '(addr, s1) :=
      if negb (IsInvariant comp s addr || OperIsLocal (gtOper (gt s addr))) then
        let s' := ClearContained addr s in
        let s'' := LIR_Use_ReplaceWithLclVar comp (mkUse indir 0) s' in
        (gtGetOp1 s'' indir, s'')
      else (addr, s) in
    let s2 :=
      if OperMayThrow comp s1 indir then
        let '(addrClone, sa) := gtCloneExpr comp addr s1 in
        let '(nullcheck, sb) := gtNewNullCheck comp addrClone sa in
        let sc := BlockRange_InsertBefore indir [addrClone; nullcheck] sb in
        let sd := (LowerNode comp nullcheck sc).2 in
        gtUpd indir (λ n, set_GTF_IND_NONFAULTING n true) sd
      else s1 in
    (addr, gtUpd indir (λ n, set_GTF_EXCEPT n false) s2)
  else (addr, s).

(** The choice of base, index, scale and offset of the new address mode in
    [LowerHWIntrinsicGetElement], with the removals it performs. *)
Definition LowerHWIntrinsicGetElement_NewAddr (comp : Compiler) (node addr op2 : GenTreePtr)
    (simdSize elemSize count : nat) (s : Lowering)
    : GenTreePtr * GenTreePtr * nat * Z * Lowering :=
  if OperIsAddrMode (gtOper (gt s addr)) then
    let addrMode := addr in
    let newBase := gtGetOp1 s addrMode in
    let newIndex := gtGetOp2 s addrMode in
    let newScale := gtScale (gt s addrMode) in
    let newOffset := gtOffset (gt s addrMode) in
    if OperIsConst (gtOper (gt s op2)) && (newOffset <? INT32_MAX - Z.of_nat simdSize)%Z then
      let s1 := BlockRange_Remove addrMode s in
      let s2 := BlockRange_Remove op2 s1 in
      let addOffset := GetElement_addOffset (gtIconVal (gt s2 op2)) count elemSize in
      (newBase, newIndex, newScale, int32_t_wrap (newOffset + addOffset), s2)
    else if bool_decide (newIndex = 0) then
      let s1 := BlockRange_Remove addrMode s in
      (newBase, op2, elemSize, newOffset, s1)
    else if bool_decide (gtScale (gt s addrMode) = elemSize) then
      let s1 := BlockRange_Remove addrMode s in
      let '(newIndex, s2) := gtNewOperNode GT_ADD (TYP_I_IMPL comp) newIndex op2 s1 in
      let s3 := BlockRange_InsertBefore node [newIndex] s2 in
      let s4 := (LowerNode comp newIndex s3).2 in
      (newBase, newIndex, newScale, newOffset, s4)
    else (addrMode, op2, elemSize, 0%Z, s)
  else if OperIsConst (gtOper (gt s op2)) then
    let s1 := BlockRange_Remove op2 s in
    (addr, 0, 0, GetElement_addOffset (gtIconVal (gt s1 op2)) count elemSize, s1)
  else (addr, op2, elemSize, 0%Z, s).

(** [Lowering::LowerHWIntrinsicGetElement].  The extraction of a constant
    element from a vector that is not loaded through an indirection (the rest
    of the routine) is [LowerHWIntrinsicGetElement_Extract]. *)
Definition LowerHWIntrinsicGetElement (comp : Compiler) (node : GenTreePtr) (s : Lowering)
    : option GenTreePtr * Lowering :=
  let simdBaseJitType := gtSimdBaseJitType (gt s node) in
  let simdBaseType := simdBaseJitType in
  let simdSize := gtSimdSize (gt s node) in
  let op1 := Op s node 1 in
  let op2 := Op s node 2 in
  if IsIntegralConst s op2 0 then
    let s1 := BlockRange_Remove op2 s in
    let intrinsicId :=
      if bool_decide (simdSize = 64) then NI_Vector512_ToScalar
      else if bool_decide (simdSize = 32) then NI_Vector256_ToScalar
      else NI_Vector128_ToScalar in
    let s2 := ResetHWIntrinsicId node intrinsicId [op1] s1 in
    LowerNode comp node s2
  else
    let elemSize := genTypeSize (ptrSize comp) simdBaseType in
    let count := simdSize `div` elemSize in
    if OperIs s op1 GT_IND then
      let indir := op1 in
      let '(addr, s1) := LowerHWIntrinsicGetElement_ForceIndir comp node indir s in
      let '(newBase, newIndex, newScale, newOffset, s2) :=
        LowerHWIntrinsicGetElement_NewAddr comp node addr op2 simdSize elemSize count s1 in
      let s3 := if bool_decide (newBase ≠ 0) then ClearContained newBase s2 else s2 in
      let s4 := if bool_decide (newIndex ≠ 0) then ClearContained newIndex s3 else s3 in
      let '(newAddr, s5) :=
        gtNewAddrMode (gtType (gt s4 addr)) newBase newIndex newScale newOffset s4 in
      let s6 := BlockRange_InsertBefore node [newAddr] s5 in
      let '(newIndir, s7) :=
        gtNewIndir simdBaseJitType newAddr (GTF_IND_NONFAULTING (gt s6 indir)) s6 in
      let s8 := BlockRange_InsertBefore node [newIndir] s7 in
      let s9 :=
        match BlockRange_TryGetUse s8 node with
        | Some use => Use_ReplaceWith use newIndir s8
        | None => SetUnusedValue newIndir s8
        end in
      let s10 := BlockRange_Remove op1 s9 in
      let s11 := BlockRange_Remove node s10 in
      LowerNode comp newAddr s11
    else if negb (OperIsConst (gtOper (gt s op2))) then
      let s1 := ContainCheckHWIntrinsic comp node s in
      (gtNext s1 node, s1)
    else LowerHWIntrinsicGetElement_Extract comp node s.

(** The code of [LowerHWIntrinsicCndSel] after the per-element-mask block:
    a ternary-logic node under AVX-512, else the and/and-not/or expansion. *)
Definition LowerHWIntrinsicCndSel_NoBlend (comp : Compiler) (node : GenTreePtr)
    (op1 op2 op3 : GenTreePtr) (s : Lowering) : option GenTreePtr * Lowering :=
  let simdType := gtType (gt s node) in
  let simdBaseJitType := gtSimdBaseJitType (gt s node) in
  let simdSize := gtSimdSize (gt s node) in
  if compOpportunisticallyDependsOn comp InstructionSet_AVX512 then
    let ternaryLogicId := NI_AVX512_TernaryLogic in
    let '(control, s1) := gtNewIconNode 202 TYP_INT s in
    let s2 := BlockRange_InsertBefore node [control] s1 in
    let s3 := ResetHWIntrinsicId node ternaryLogicId [op1; op2; op3; control] s2 in
    LowerNode comp node s3
  else
    let '(_, s1) := ReplaceWithLclVar comp (mkUse node 0) s in
    let op1 := Op s1 node 1 in
    let '(tmp1, s2) := gtClone op1 s1 in
    let s3 := BlockRange_InsertAfter op1 [tmp1] s2 in
    let '(tmp2, s4) := gtNewSimdBinOpNode GT_AND simdType op1 op2 simdBaseJitType simdSize s3 in
    let s5 := BlockRange_InsertAfter op2 [tmp2] s4 in
    let s6 := (LowerNode comp tmp2 s5).2 in
    let '(tmp3, s7) :=
      gtNewSimdBinOpNode GT_AND_NOT simdType op3 tmp1 simdBaseJitType simdSize s6 in
    let s8 := BlockRange_InsertAfter op3 [tmp3] s7 in
    let s9 := (LowerNode comp tmp3 s8).2 in
    let '(tmp4, s10) := gtNewSimdBinOpNode GT_OR simdType tmp2 tmp3 simdBaseJitType simdSize s9 in
    let s11 := BlockRange_InsertBefore node [tmp4] s10 in
    let s12 :=
      match BlockRange_TryGetUse s11 node with
      | Some use => Use_ReplaceWith use tmp4 s11
      | None => SetUnusedValue tmp4 s11
      end in
    let s13 := BlockRange_Remove node s12 in
    LowerNode comp tmp4 s13.

(** [Lowering::LowerHWIntrinsicCndSel] *)
Definition LowerHWIntrinsicCndSel (comp : Compiler) (node : GenTreePtr) (s : Lowering)
    : option GenTreePtr * Lowering :=
  let simdType := gtType (gt s node) in
  let simdBaseJitType := gtSimdBaseJitType (gt s node) in
  let simdBaseType := simdBaseJitType in
  let simdSize := gtSimdSize (gt s node) in
  let op1 := Op s node 1 in
  let op2 := Op s node 2 in
  let op3 := Op s node 3 in
  if IsVectorPerElementMask comp s op1 simdBaseType simdSize then
    let isOp1CvtMaskToVector := OperIsConvertMaskToVector s op1 in
    if bool_decide (simdSize = 64) || isOp1CvtMaskToVector then
      let '(maskNode, s1) :=
        if isOp1CvtMaskToVector then
          let cvtMaskToVector := op1 in
          let maskNode := Op s cvtMaskToVector 1 in
          let s' := BlockRange_Remove op1 s in
          let maskBaseJitType := gtSimdBaseJitType (gt s' cvtMaskToVector) in
          (maskNode, gtUpd node (λ n, set_gtSimdBaseJitType n maskBaseJitType) s')
        else
          let '(maskNode, s') :=
            gtNewSimdCvtVectorToMaskNode TYP_MASK op1 simdBaseJitType simdSize s in
          (maskNode, BlockRange_InsertBefore node [maskNode] s') in
      let s2 := ResetHWIntrinsicId node NI_AVX512_BlendVariableMask [op3; op2; maskNode] s1 in
      LowerNode comp node s2
    else if IsVectorZero s op2 || IsVectorZero s op3 then
      let '(binOp, s1) :=
        if IsVectorZero s op3 then
          let '(binOp, s') := gtNewSimdBinOpNode GT_AND simdType op1 op2 simdBaseJitType simdSize s in
          (binOp, BlockRange_Remove op3 s')
        else
          let '(binOp, s') :=
            gtNewSimdBinOpNode GT_AND_NOT simdType op3 op1 simdBaseJitType simdSize s in
          (binOp, BlockRange_Remove op2 s') in
      let s2 := BlockRange_InsertAfter node [binOp] s1 in
      let s3 :=
        match BlockRange_TryGetUse s2 node with
        | Some use => Use_ReplaceWith use binOp s2
        | None => SetUnusedValue binOp s2
        end in
      let s4 := BlockRange_Remove node s3 in
      LowerNode comp binOp s4
    else
      let blendVariableId :=
        if bool_decide (simdSize = 32) then
          if varTypeIsFloating simdBaseType then NI_AVX_BlendVariable
          else if compOpportunisticallyDependsOn comp InstructionSet_AVX2
          then NI_AVX2_BlendVariable
          else NI_Illegal
        else if compOpportunisticallyDependsOn comp InstructionSet_SSE42
        then NI_SSE42_BlendVariable
        else NI_Illegal in
      if bool_decide (blendVariableId ≠ NI_Illegal) then
        let s1 := ResetHWIntrinsicId node blendVariableId [op3; op2; op1] s in
        LowerNode comp node s1
      else LowerHWIntrinsicCndSel_NoBlend comp node op1 op2 op3 s
  else LowerHWIntrinsicCndSel_NoBlend comp node op1 op2 op3 s.

(** Modelled from the spec: [gtNewZeroConNode] and [gtNewAllBitsSetConNode],
    new vector constants with every byte [0x00], respectively [0xFF]. *)
Definition gtNewZeroConNode (type : var_types) : Lowering → GenTreePtr * Lowering :=
  gtAlloc (gtNewNode GT_CNS_VEC type []).

Definition gtNewAllBitsSetConNode (type : var_types) : Lowering → GenTreePtr * Lowering :=
  gtAlloc (set_gtSimdVal (gtNewNode GT_CNS_VEC type []) (replicate 64 255%Z)).

(** The truth tables of the three inputs of a ternary-logic control byte. *)
Definition TernaryLogic_A : Z := 240.
Definition TernaryLogic_B : Z := 204.
Definition TernaryLogic_C : Z := 170.

(** [static_cast<uint8_t>((x & y) | (z & ~y))]: [y ? x : z]. *)
Definition TernaryLogic_SelectByte (x y z : Z) : Z :=
  uint8_t_cast (Z.lor (Z.land x y) (Z.land z (Z.lxor y 255))).

(** The six control bytes of the first [case] list of
    [LowerHWIntrinsicTernaryLogic], those that work as a conditional select. *)
Definition TernaryLogic_IsSelectControl (control : Z) : bool :=
  let A := TernaryLogic_A in
  let B := TernaryLogic_B in
  let C := TernaryLogic_C in
  bool_decide (control ∈ [TernaryLogic_SelectByte C A B; TernaryLogic_SelectByte C B A;
                          TernaryLogic_SelectByte B C A; TernaryLogic_SelectByte B A C;
                          TernaryLogic_SelectByte A B C; TernaryLogic_SelectByte A C B]).

(** [std::swap(node->Op(i), node->Op(j))] *)
Definition SwapOps (p : GenTreePtr) (i j : nat) (s : Lowering) : Lowering :=
  let oi := Op s p i in
  let oj := Op s p j in
  SetOp p j oi (SetOp p i oj s).

(** The "if the operand is not a constant vector, flag it unused and put a
    zero vector in its place" step of [LowerHWIntrinsicTernaryLogic]. *)
Definition TernaryLogic_ZeroOperand (node : GenTreePtr) (i : nat) (simdType : var_types)
    (s : Lowering) : Lowering :=
  let op := Op s node i in
  if negb (IsCnsVec s op) then
    let s1 := SetUnusedValue op s in
    let '(zero, s2) := gtNewZeroConNode simdType s1 in
    let s3 := BlockRange_InsertBefore node [zero] s2 in
    SetOp node i zero s3
  else s.

(** The operand swaps of the [default] case of [LowerHWIntrinsicTernaryLogic]
    with the fix-up of the control byte: the new control, the new use flags. *)
Definition TernaryLogic_Normalize (comp : Compiler) (node op4 : GenTreePtr) (control : Z)
    (useFlags : TernaryLogicUseFlags) (s : Lowering) : Z * TernaryLogicUseFlags * Lowering :=
  let A := TernaryLogic_A in
  let B := TernaryLogic_B in
  let C := TernaryLogic_C in
  match useFlags with
  | TLUF_A =>
      let s1 := SwapOps node 1 3 s in
      let control' := TernaryLogicInfo_GetTernaryControlByte comp control C B A in
      (control', TLUF_C, SetIconValue op4 control' s1)
  | TLUF_B =>
      let s1 := SwapOps node 2 3 s in
      let control' := TernaryLogicInfo_GetTernaryControlByte comp control A C B in
      (control', TLUF_C, SetIconValue op4 control' s1)
  | TLUF_AB =>
      let s1 := SwapOps node 1 2 (SwapOps node 2 3 s) in
      let control' := TernaryLogicInfo_GetTernaryControlByte comp control B C A in
      (control', TLUF_BC, SetIconValue op4 control' s1)
  | TLUF_AC =>
      let s1 := SwapOps node 1 2 s in
      let control' := TernaryLogicInfo_GetTernaryControlByte comp control B A C in
      (control', TLUF_BC, SetIconValue op4 control' s1)
  | _ => (control, useFlags, s)
  end.

(** The second [switch (useFlags)]: the replacement node ([0] for none). *)
Definition TernaryLogic_Replacement (node : GenTreePtr) (simdType : var_types) (control : Z)
    (useFlags : TernaryLogicUseFlags) (s : Lowering) : GenTreePtr * Lowering :=
  let op1 := Op s node 1 in
  let op2 := Op s node 2 in
  let op3 := Op s node 3 in
  match useFlags with
  | TLUF_None =>
      let s1 := SetUnusedValue op3 (SetUnusedValue op2 (SetUnusedValue op1 s)) in
      let '(replacementNode, s2) :=
        if bool_decide (control = 0%Z) then gtNewZeroConNode simdType s1
        else gtNewAllBitsSetConNode simdType s1 in
      (replacementNode, BlockRange_InsertBefore node [replacementNode] s2)
  | TLUF_C =>
      if bool_decide (control = TernaryLogic_C) then
        (op3, SetUnusedValue op2 (SetUnusedValue op1 s))
      else
        (0, TernaryLogic_ZeroOperand node 2 simdType (TernaryLogic_ZeroOperand node 1 simdType s))
  | TLUF_BC => (0, TernaryLogic_ZeroOperand node 1 simdType s)
  | _ => (0, s)
  end.

(** [Lowering::LowerHWIntrinsicTernaryLogic].  The body of the case of the
    six select controls is [LowerHWIntrinsicTernaryLogic_Select]. *)
Definition LowerHWIntrinsicTernaryLogic (comp : Compiler) (node : GenTreePtr) (s : Lowering)
    : option GenTreePtr * Lowering :=
  let simdType := gtType (gt s node) in
  let op4 := Op s node 4 in
  let finish := λ s', let s'' := ContainCheckHWIntrinsic comp node s' in (gtNext s'' node, s'') in
  if IsCnsIntOrI s op4 then
    let control := uint8_t_cast (gtIconVal (gt s op4)) in
    let useFlags := TernaryLogicInfo_GetAllUseFlags comp control in
    if TernaryLogic_IsSelectControl control
    then finish (LowerHWIntrinsicTernaryLogic_Select comp node s)
    else
      let '(control, useFlags, s1) := TernaryLogic_Normalize comp node op4 control useFlags s in
      let '(replacementNode, s2) := TernaryLogic_Replacement node simdType control useFlags s1 in
      if bool_decide (replacementNode ≠ 0) then
        let s3 :=
          match BlockRange_TryGetUse s2 node with
          | Some use => Use_ReplaceWith use replacementNode s2
          | None => SetUnusedValue replacementNode s2
          end in
        let next := gtNext s3 node in
        let s4 := BlockRange_Remove op4 s3 in
        let s5 := BlockRange_Remove node s4 in
        (next, s5)
      else finish s2
  else finish s.

(** Modelled from the spec: [gtNewVconNode], a new vector-constant node of the
    given SIMD type with all 64 bytes zero. *)
Definition gtNewVconNode (type : var_types) : Lowering → GenTreePtr * Lowering :=
  gtAlloc (gtNewNode GT_CNS_VEC type []).

(** [memcpy(&vecCon->gtSimdVal, &simdVal, simdSize)] on the 64-byte value. *)
Definition simd_memcpy (dst src : list Z) (size : nat) : list Z :=
  take size src ++ drop size dst.

(** The removal loop of [LowerHWIntrinsicCreate] over the operands. *)
Definition LowerHWIntrinsicCreate_RemoveArg (comp : Compiler) (s : Lowering) (arg : GenTreePtr)
    : Lowering :=
  let s1 :=
    if negb (TARGET_64BIT comp) && OperIs s arg GT_LONG
    then BlockRange_Remove (gtGetOp2 s arg) (BlockRange_Remove (gtGetOp1 s arg) s)
    else s in
  BlockRange_Remove arg s1.

(** [Lowering::LowerHWIntrinsicCreate].  The lowering of a construction that is
    not constant is [LowerHWIntrinsicCreate_NonConstant]. *)
Definition LowerHWIntrinsicCreate (comp : Compiler) (node : GenTreePtr) (s : Lowering)
    : option GenTreePtr * Lowering :=
  let simdSize := gtSimdSize (gt s node) in
  let simdType :=
    if bool_decide (simdSize = 8) && bool_decide (gtType (gt s node) = TYP_DOUBLE)
    then TYP_SIMD8 else gtType (gt s node) in
  match IsHWIntrinsicCreateConstant comp s node with
  | Some simdVal =>
      let s1 := foldl (LowerHWIntrinsicCreate_RemoveArg comp) s (gtOperands (gt s node)) in
      let '(vecCon, s2) := gtNewVconNode simdType s1 in
      let s3 := gtUpd vecCon (λ n, set_gtSimdVal n (simd_memcpy (gtSimdVal n) simdVal simdSize)) s2 in
      let s4 := BlockRange_InsertBefore node [vecCon] s3 in
      let s5 :=
        match BlockRange_TryGetUse s4 node with
        | Some use => Use_ReplaceWith use vecCon s4
        | None => SetUnusedValue vecCon s4
        end in
      let s6 := BlockRange_Remove node s5 in
      (gtNext s6 vecCon, s6)
  | None => LowerHWIntrinsicCreate_NonConstant comp node s
  end.

(** ** Embedded broadcast *)

(** [Lowering::IsContainableHWIntrinsicOp]: the result and the out parameter
    [supportsRegOptional].  The switch over the parent's category is
    [HWIntrinsicOperandSupport] (it yields [supportsMemoryOp],
    [supportsSIMDLoad], [expectedSize] and [operandSize]); the switch over a
    hardware-intrinsic child is [IsContainableHWIntrinsicOp_IntrinsicChild]. *)
Definition IsContainableHWIntrinsicOp (comp : Compiler) (s : Lowering)
    (parentNode childNode : GenTreePtr) : bool * bool :=
  let '(supportsMemoryOp, supportsSIMDLoad, expectedSize, operandSize) :=
    HWIntrinsicOperandSupport comp s parentNode childNode in
  let supportsMemoryOp := supportsMemoryOp && bool_decide (expectedSize ≤ operandSize) in
  let supportsSIMDLoad := supportsSIMDLoad && supportsMemoryOp in
  let supportsUnalignedLoad :=
    bool_decide (expectedSize < genTypeSize 8 TYP_SIMD16) || canUseVexEncoding comp in
  let supportsRegOptional :=
    supportsMemoryOp && supportsUnalignedLoad
    && IsSafeToMarkRegOptional comp s parentNode childNode in
  if negb (OperIsHWIntrinsic s childNode) then
    let canBeContained :=
      if supportsMemoryOp then
        if IsContainableMemoryOp comp s childNode
        then supportsUnalignedLoad && IsSafeToContainMem comp s parentNode childNode
        else if IsCnsNonZeroFltOrDbl s childNode then true
        else if IsCnsVec s childNode
        then negb (VecCon_IsAllBitsSet (gt s childNode)) && negb (VecCon_IsZero (gt s childNode))
        else false
      else false in
    (canBeContained, supportsRegOptional)
  else
    (IsContainableHWIntrinsicOp_IntrinsicChild comp s parentNode childNode
       supportsSIMDLoad expectedSize,
     supportsRegOptional).

(** Modelled from the spec: [gtNewDconNodeF] / [gtNewDconNodeD], a new
    floating-point constant of the given type, and [gtNewLconNode], a new
    64-bit integer constant (a [GT_CNS_INT] of type long on a 64-bit target). *)
Definition gtNewDconNode (bits : Z) (type : var_types) : Lowering → GenTreePtr * Lowering :=
  gtAlloc (set_gtDconVal (gtNewNode GT_CNS_DBL type []) bits).

Definition gtNewLconNode (comp : Compiler) (value : Z) : Lowering → GenTreePtr * Lowering :=
  gtAlloc (set_gtIconVal
             (gtNewNode (if TARGET_64BIT comp then GT_CNS_INT else GT_CNS_LNG) TYP_LONG [])
             value).

(** The [switch (simdBaseType)] of [TryFoldCnsVecForEmbeddedBroadcast] that
    builds the scalar constant; [None] is its [unreached()] default. *)
Definition TryFoldCnsVec_constScalar (comp : Compiler) (simdBaseType : var_types)
    (simdVal : list Z) (s : Lowering) : option (GenTreePtr * Lowering) :=
  match simdBaseType with
  | TYP_FLOAT => Some (gtNewDconNode (simd_u32 simdVal 0) TYP_FLOAT s)
  | TYP_DOUBLE => Some (gtNewDconNode (simd_u64 simdVal 0) TYP_DOUBLE s)
  | TYP_INT => Some (gtNewIconNode (simd_i32 simdVal 0) simdBaseType s)
  | TYP_UINT =>
      Some (gtNewIconNode
              (if TARGET_64BIT comp then simd_u32 simdVal 0 else simd_i32 simdVal 0) TYP_INT s)
  | TYP_LONG | TYP_ULONG => Some (gtNewLconNode comp (simd_i64 simdVal 0) s)
  | _ => None
  end.

(** [Lowering::TryFoldCnsVecForEmbeddedBroadcast] *)
Definition TryFoldCnsVecForEmbeddedBroadcast (comp : Compiler) (parentNode childNode : GenTreePtr)
    (s : Lowering) : option Lowering :=
  if negb (canUseEmbeddedBroadcast comp) then Some (MakeSrcContained parentNode childNode s)
  else
    let simdType := gtType (gt s childNode) in
    let simdBaseType := gtSimdBaseJitType (gt s parentNode) in
    let simdBaseJitType := gtSimdBaseJitType (gt s parentNode) in
    let isCreatedFromScalar :=
      if varTypeIsSmall simdBaseType then false
      else VecCon_IsBroadcast (gt s childNode) simdBaseType in
    if isCreatedFromScalar then
      let broadcastName :=
        if bool_decide (simdType = TYP_SIMD32) then NI_AVX2_BroadcastScalarToVector256
        else if bool_decide (simdType = TYP_SIMD64) then NI_AVX512_BroadcastScalarToVector512
        else NI_AVX2_BroadcastScalarToVector128 in
      '(constScalar, s1) ←
        TryFoldCnsVec_constScalar comp simdBaseType (gtSimdVal (gt s childNode)) s;
      let '(createScalar, s2) :=
        gtNewSimdHWIntrinsicNode TYP_SIMD16 [constScalar] NI_Vector128_CreateScalarUnsafe
          simdBaseJitType 16 s1 in
      let '(broadcastNode, s3) :=
        gtNewSimdHWIntrinsicNode simdType [createScalar] broadcastName simdBaseJitType
          (genTypeSize (ptrSize comp) simdType) s2 in
      let s4 := BlockRange_InsertBefore childNode [broadcastNode] s3 in
      let s5 := BlockRange_InsertBefore broadcastNode [createScalar] s4 in
      let s6 := BlockRange_InsertBefore createScalar [constScalar] s5 in
      let s7 :=
        match BlockRange_TryGetUse s6 childNode with
        | Some use => Use_ReplaceWith use broadcastNode s6
        | None => SetUnusedValue broadcastNode s6
        end in
      let s8 := BlockRange_Remove childNode s7 in
      let s9 := (LowerNode comp createScalar s8).2 in
      let s10 := (LowerNode comp broadcastNode s9).2 in
      let s11 :=
        if varTypeIsFloating simdBaseType then MakeSrcContained broadcastNode createScalar s10
        else if bool_decide (gtType (gt s10 constScalar) ∈ [TYP_INT; TYP_UINT; TYP_LONG; TYP_ULONG])
        then MakeSrcContained broadcastNode constScalar s10
        else s10 in
      Some (MakeSrcContained parentNode broadcastNode s11)
    else Some (MakeSrcContained parentNode childNode s).

(** [Lowering::TryMakeSrcContainedOrRegOptional] *)
Definition TryMakeSrcContainedOrRegOptional (comp : Compiler) (parentNode childNode : GenTreePtr)
    (s : Lowering) : option Lowering :=
  let '(isContainable, supportsRegOptional) :=
    IsContainableHWIntrinsicOp comp s parentNode childNode in
  if isContainable then
    if IsCnsVec s childNode && isEmbeddedBroadcastCompatibleHWIntrinsic comp s parentNode
    then TryFoldCnsVecForEmbeddedBroadcast comp parentNode childNode s
    else Some (MakeSrcContained parentNode childNode s)
  else if supportsRegOptional then Some (MakeSrcRegOptional parentNode childNode s)
  else Some s.

(** ** Example environments and block ranges *)

(** A stand-in for [Lowering::ReplaceWithLclVar] in the examples, following
    the picture in the comment of [LowerHWIntrinsicCndSel]: the definition is
    stored to a temporary ([STORE_LCL_VAR]) and the use reads it back through
    a new [LCL_VAR]. *)
Definition ReplaceWithLclVar_example (use : LIR_Use) (s : Lowering) : GenTreePtr * Lowering :=
  let def := default 0 (gtOperands (gt s (Use_User use)) !! Use_Slot use) in
  let lclNum := 100 + size (gtNodes s) in
  let '(store, s1) :=
    gtAlloc (set_gtLclNum (gtNewNode GT_STORE_LCL_VAR (gtType (gt s def)) [def]) lclNum) s in
  let '(load, s2) :=
    gtAlloc (set_gtLclNum (gtNewNode GT_LCL_VAR (gtType (gt s def)) []) lclNum) s1 in
  let s3 := BlockRange_InsertAfter def [store; load] s2 in
  (load, Use_ReplaceWith use load s3).

(** An environment for the examples: the build target, the available
    instruction sets, the per-element-mask test, the constant-assembly routine
    and the use flags of a ternary-logic control byte are given; every check of the rest of the JIT answers "safe",
    [LowerNode] leaves the range as it is, and the parts of this file that are
    not unfolded do nothing. *)
Definition exampleCompiler (minOpts x86 is64 : bool) (isa : InstructionSet → bool)
    (embeddedBroadcast : bool) (perElementMask : GenTreePtr → bool)
    (createConstant : option (list Z)) (useFlags : Z → TernaryLogicUseFlags) : Compiler :=
  {| opts_MinOpts := minOpts;
     opts_OptimizationEnabled := negb minOpts;
     TARGET_X86 := x86;
     TARGET_64BIT := is64;
     compOpportunisticallyDependsOn := isa;
     canUseEmbeddedBroadcast := embeddedBroadcast;
     canUseVexEncoding := true;
     lvaIsAddressExposed := λ _, false;
     ImmedValNeedsReloc := λ _, false;
     FitsInAddrBase := λ _, true;
     IsVectorPerElementMask := λ _ p _ _, perElementMask p;
     IsHWIntrinsicCreateConstant := λ _ _, createConstant;
     isEmbeddedBroadcastCompatibleHWIntrinsic := λ _ _, true;
     LowerNode := λ p s, (gtNext s p, s);
     ReplaceWithLclVar := ReplaceWithLclVar_example;
     IsInvariantInRange := λ _ _ _, true;
     IsSafeToContainMem := λ _ _ _, true;
     IsSafeToMarkRegOptional := λ _ _ _, true;
     IsContainableMemoryOp := λ s p, OperIs s p GT_IND;
     IsContainableMemoryOpSize := λ _ _ _, true;
     IsContainableLclAddr := λ _ _ _, true;
     IndirsAreEquivalent := λ s a b,
       bool_decide (gtLclNum (gt s (gtGetOp1 s a)) = gtLclNum (gt s (gtGetOp1 s b)));
     SetRegOptionalForBinOp := λ _ _ _ s, s;
     SideEffects_InterferesWith := λ _ _ _, false;
     ContainCheckHWIntrinsic := λ _ s, s;
     ContainCheckFloatBinary := λ _ s, s;
     ContainCheckStoreIndir_HWIntrinsicData := λ _ _ s, s;
     HWIntrinsicOperandSupport := λ _ _ _, (true, true, 16, 16);
     IsContainableHWIntrinsicOp_IntrinsicChild := λ _ _ _ _ _, false;
     IsInvariant := λ _ _, true;
     OperMayThrow := λ _ _, false;
     LIR_Use_ReplaceWithLclVar := λ use s, (ReplaceWithLclVar_example use s).2;
     gtCloneExpr := gtClone;
     gtNewNullCheck := λ p, gtAlloc (gtNewNode GT_NOP TYP_VOID [p]);
     TernaryLogicInfo_GetAllUseFlags := useFlags;
     TernaryLogicInfo_GetTernaryControlByte := λ control _ _ _, control;
     LowerHWIntrinsicTernaryLogic_Select := λ _ s, s;
     LowerHWIntrinsicGetElement_Extract := λ p s, (gtNext s p, s);
     LowerHWIntrinsicCreate_NonConstant := λ p s, (gtNext s p, s) |}.

Definition allISAs : InstructionSet → bool := λ _, true.
Definition noISAs : InstructionSet → bool := λ _, false.

(** The x64 and the 32-bit x86 build with optimizations on. *)
Definition x64 : Compiler :=
  exampleCompiler false false true allISAs true (λ _, false) None (λ _, TLUF_ABC).
Definition x86 : Compiler :=
  exampleCompiler false true false allISAs true (λ _, false) None (λ _, TLUF_ABC).

(** A block range from a list of (handle, node) pairs, in execution order. *)
Definition exampleRange (l : list (GenTreePtr * GenTree)) : Lowering :=
  mkLowering (list_to_map l) (l.*1) [].

Definition lclVar (type : var_types) (lclNum : nat) : GenTree :=
  set_gtLclNum (gtNewNode GT_LCL_VAR type []) lclNum.

Definition intCon (type : var_types) (v : Z) : GenTree :=
  set_gtIconVal (gtNewNode GT_CNS_INT type []) v.

(** [STOREIND<ubyte>(V01, 0)]: a one-byte store of the immediate zero. *)
Definition storeByteZero : Lowering :=
  exampleRange [(1, lclVar TYP_BYREF 1); (2, intCon TYP_INT 0);
                (3, gtNewNode GT_STOREIND TYP_UBYTE [1; 2])].

(** [STOREIND<int>(V01, 0)] and [STOREIND<int>(V01, 7)]. *)
Definition storeIntZero : Lowering :=
  exampleRange [(1, lclVar TYP_BYREF 1); (2, intCon TYP_INT 0);
                (3, gtNewNode GT_STOREIND TYP_INT [1; 2])].

Definition storeIntSeven : Lowering :=
  exampleRange [(1, lclVar TYP_BYREF 1); (2, intCon TYP_INT 7);
                (3, gtNewNode GT_STOREIND TYP_INT [1; 2])].

(** *** C7 as the spec states it

    "the immediate is marked contained, except that immediate zero stores are
    left non-contained on 64-bit; an immediate that needs relocation or does
    not fit in signed 32 bits is never contained", for the store [node] whose
    data operand is an integer constant. *)
Definition C7_as_stated (comp : Compiler) (s : Lowering) (node : GenTreePtr) : Prop :=
  let src := gtGetOp2 s node in
  let s' := ContainCheckStoreIndir comp node s in
  (IsContainableImmed comp s node src = true →
     isContained s' src = negb (TARGET_64BIT comp && IsIntegralConst s src 0))
  ∧ (IsContainableImmed comp s node src = false → isContained s' src = isContained s src).

(** [GetElement(V01, 0)] on a 16-byte vector of ints, whose value is stored. *)
Definition hwNode (type : var_types) (id : NamedIntrinsic) (ops : list GenTreePtr)
    (baseType : var_types) (simdSize : nat) : GenTree :=
  set_gtSimdSize (set_gtSimdBaseJitType
    (set_gtHWIntrinsicId (gtNewNode GT_HWINTRINSIC type ops) id) baseType) simdSize.

Definition getElementZero : Lowering :=
  exampleRange [(1, lclVar TYP_SIMD16 1); (2, intCon TYP_INT 0);
                (3, hwNode TYP_INT NI_Vector128_GetElement [1; 2] TYP_INT 16);
                (4, set_gtLclNum (gtNewNode GT_STORE_LCL_VAR TYP_INT [3]) 2)].

(** [V02 = AND(V01, ADD(V01, -1))] on ints. *)
Definition andAddMinusOne : Lowering :=
  exampleRange [(1, lclVar TYP_INT 1); (2, lclVar TYP_INT 1); (3, intCon TYP_INT (-1));
                (4, gtNewNode GT_ADD TYP_INT [2; 3]); (5, gtNewNode GT_AND TYP_INT [1; 4]);
                (6, set_gtLclNum (gtNewNode GT_STORE_LCL_VAR TYP_INT [5]) 2)].

(** [V02 = Vector128.Create(1, 2, 3, 4)] on ints, all operands constant; the
    assembled value is the little-endian image of the four lanes. *)
Definition createConstantBytes : list Z :=
  [1; 0; 0; 0; 2; 0; 0; 0; 3; 0; 0; 0; 4; 0; 0; 0]%Z ++ replicate 48 0%Z.

Definition x64_createConstant : Compiler :=
  exampleCompiler false false true allISAs true (λ _, false) (Some createConstantBytes)
    (λ _, TLUF_ABC).

Definition createOfConstants : Lowering :=
  exampleRange [(1, intCon TYP_INT 1); (2, intCon TYP_INT 2); (3, intCon TYP_INT 3);
                (4, intCon TYP_INT 4);
                (5, hwNode TYP_SIMD16 NI_Vector128_Create [1; 2; 3; 4] TYP_INT 16);
                (6, set_gtLclNum (gtNewNode GT_STORE_LCL_VAR TYP_SIMD16 [5]) 2)].

(** [V02 = GetElement(IND<simd16>(LEA(V01 + 8)), 5)] on a vector of four ints:
    the constant index 5 is out of range. *)
Definition getElementOfIndir : Lowering :=
  exampleRange [(1, lclVar TYP_BYREF 1);
                (2, set_gtOffset (gtNewNode GT_LEA TYP_BYREF [1; 0]) 8);
                (3, gtNewNode GT_IND TYP_SIMD16 [2]);
                (4, intCon TYP_INT 5);
                (5, hwNode TYP_INT NI_Vector128_GetElement [3; 4] TYP_INT 16);
                (6, set_gtLclNum (gtNewNode GT_STORE_LCL_VAR TYP_INT [5]) 2)].

(** [V02 = MUL(V01, c)] on ints. *)
Definition mulByConstant (c : Z) : Lowering :=
  exampleRange [(1, lclVar TYP_INT 1); (2, intCon TYP_INT c);
                (3, gtNewNode GT_MUL TYP_INT [1; 2]);
                (4, set_gtLclNum (gtNewNode GT_STORE_LCL_VAR TYP_INT [3]) 2)].

(** [c = 2ⁿ] for a natural [n]. *)
Definition IsPowerOfTwo (c : Z) : Prop := ∃ n, (0 ≤ n)%Z ∧ c = (2 ^ n)%Z.

(** What [TryLowerMulWithConstant] leaves of [MUL(x, cns)] when it rewrites it
    to [oper(LSH(x', n), x'')], where [x'] is what [ReplaceWithLclVar] gave for
    [x] in the state [s1] and [x''] a clone of it: [result] is the pair of
    containment checks run on a state [s'] in which the multiplication node
    has the operator [oper] and the operands [lsh] and [clone], both new;
    [lsh] is [LSH(x', cns)] of the node's type; the constant holds [n]; the
    clone has the fields of [x']; and in the range the four operands stand
    right before the node in the order clone, constant, [x'], shift. *)
Definition MulRewrittenTo (comp : Compiler) (oper : genTreeOps) (n : Z)
    (node cns x' : GenTreePtr) (s1 : Lowering)
    (result : option (option GenTreePtr * Lowering)) : Prop :=
  ∃ lsh clone s',
    result = (s'' ← ContainCheckBinary comp node s';
              Some (Some node, ContainCheckShiftRotate comp (gtGetOp1 s'' node) s''))
    ∧ gtNodes s1 !! lsh = None ∧ gtNodes s1 !! clone = None ∧ lsh ≠ clone
    ∧ gtOper (gt s' node) = oper
    ∧ gtOperands (gt s' node) = [lsh; clone]
    ∧ gtType (gt s' node) = gtType (gt s1 node)
    ∧ gt s' lsh = gtNewNode GT_LSH (gtType (gt s1 node)) [x'; cns]
    ∧ gtOper (gt s' cns) = GT_CNS_INT
    ∧ gtIconVal (gt s' cns) = n
    ∧ gt s' clone = gt s1 x'
    ∧ (node ∈ m_blockRange s1 →
       ∃ pre post,
         filter (λ q, q ≠ cns) (filter (λ q, q ≠ x') (m_blockRange s1)) = pre ++ node :: post
         ∧ m_blockRange s' = pre ++ [clone; cns; x'; lsh; node] ++ post).

(** *** C1 as the spec states it

    For an integer [MUL(x, c)] lowered with optimizations on and no overflow
    check: left alone for [c ∈ {3, 5, 9}]; a left shift for [c = 2ⁿ];
    [ADD(SHL(x, n), x)] for [c = 2ⁿ + 1] and [SUB(SHL(x, n), x)] for
    [c = 2ⁿ − 1]; left alone otherwise.  The statement keeps what can be
    observed of each case: whether a replacement is returned, and the operator
    of the node afterwards. *)
Definition C1_as_stated (comp : Compiler) (s : Lowering) (node : GenTreePtr) : Prop :=
  let c := gtIconVal (gt s (gtGetOp2 s node)) in
  let r := TryLowerMulWithConstant comp node s in
  let rewrittenTo := λ oper, ∃ s', r = Some (Some node, s') ∧ gtOper (gt s' node) = oper in
  opts_MinOpts comp = false →
  varTypeIsIntegral (gtType (gt s node)) = true →
  gtOverflow s node = false →
  gtOper (gt s (gtGetOp2 s node)) = GT_CNS_INT →
  (c ∈ [3; 5; 9]%Z → r = Some (None, s))
  ∧ (c ∉ [3; 5; 9]%Z → IsPowerOfTwo c → rewrittenTo GT_LSH)
  ∧ (c ∉ [3; 5; 9]%Z → ¬ IsPowerOfTwo c → IsPowerOfTwo (c - 1) → rewrittenTo GT_ADD)
  ∧ (c ∉ [3; 5; 9]%Z → ¬ IsPowerOfTwo c → IsPowerOfTwo (c + 1) → rewrittenTo GT_SUB)
  ∧ (c ∉ [3; 5; 9]%Z → ¬ IsPowerOfTwo c → ¬ IsPowerOfTwo (c - 1) → ¬ IsPowerOfTwo (c + 1) →
     r = Some (None, s)).

(** The "if the old node has a use, redirect it to the new node, else flag the
    new node unused" step that closes several rewrites, and what holds of the
    state [s'] after it. *)
Definition Use_RedirectOrMarkUnused (old new : GenTreePtr) (s : Lowering) : Lowering :=
  match BlockRange_TryGetUse s old with
  | Some use => Use_ReplaceWith use new s
  | None => SetUnusedValue new s
  end.

Definition RedirectedOrUnused (s : Lowering) (old new : GenTreePtr) (s' : Lowering) : Prop :=
  (∀ use, BlockRange_TryGetUse s old = Some use →
          gtOperands (gt s' (Use_User use)) !! Use_Slot use = Some new)
  ∧ (BlockRange_TryGetUse s old = None → LIR_UnusedValue (gt s' new) = true).

(** A node is consumed when some node of the arena has an operand edge to it. *)
Definition ConsumedOrUnused (s : Lowering) (p : GenTreePtr) : Prop :=
  (∃ user slot, gtOperands (gt s user) !! slot = Some p) ∨ LIR_UnusedValue (gt s p) = true.

(** The substitution of [new] for [old]: the range was asked, in the state
    [sQuery], for a use of [old]; in the state [s'] after the rewrite that use
    reads [new], or [new] is flagged unused when there was none; [new] is
    thus consumed or flagged, and [old] is out of the range. *)
Definition ReplacedAt (sQuery : Lowering) (old new : GenTreePtr) (s' : Lowering) : Prop :=
  RedirectedOrUnused sQuery old new s' ∧ ConsumedOrUnused s' new ∧ (old ∉ m_blockRange s').

(** Which variable-blend intrinsic [LowerHWIntrinsicCndSel] can use on a
    vector condition that is not turned into a mask register: the AVX form for
    32-byte floating-point vectors, the AVX2 form for 32-byte integer
    vectors, the SSE4.2 form for the narrower ones. *)
Definition CndSel_blendVariableId (comp : Compiler) (simdBaseType : var_types) (simdSize : nat)
    : NamedIntrinsic :=
  if bool_decide (simdSize = 32) then
    if varTypeIsFloating simdBaseType then NI_AVX_BlendVariable
    else if compOpportunisticallyDependsOn comp InstructionSet_AVX2 then NI_AVX2_BlendVariable
    else NI_Illegal
  else if compOpportunisticallyDependsOn comp InstructionSet_SSE42 then NI_SSE42_BlendVariable
  else NI_Illegal.

(** "A variable-blend instruction is usable for the vector size and base type". *)
Definition CndSel_blendUsable (comp : Compiler) (s : Lowering) (node : GenTreePtr) : bool :=
  bool_decide (gtSimdSize (gt s node) = 64)
  || OperIsConvertMaskToVector s (Op s node 1)
  || bool_decide (CndSel_blendVariableId comp (gtSimdBaseJitType (gt s node))
                    (gtSimdSize (gt s node)) ≠ NI_Illegal).

(** [V04 = ConditionalSelect(V01, V02, V03)] and
    [V04 = ConditionalSelect(V01, V02, Zero)] on 16-byte vectors of ints, and
    an x64 environment in which node 1 is a per-element mask. *)
Definition cndSel (b : GenTree) : Lowering :=
  exampleRange [(1, lclVar TYP_SIMD16 1); (2, lclVar TYP_SIMD16 2); (3, b);
                (4, hwNode TYP_SIMD16 NI_Vector128_ConditionalSelect [1; 2; 3] TYP_INT 16);
                (5, set_gtLclNum (gtNewNode GT_STORE_LCL_VAR TYP_SIMD16 [4]) 4)].

Definition cndSelOfLocals : Lowering := cndSel (lclVar TYP_SIMD16 3).
Definition cndSelWithZeroArm : Lowering := cndSel (gtNewNode GT_CNS_VEC TYP_SIMD16 []).

Definition x64_mask : Compiler :=
  exampleCompiler false false true allISAs true (λ p, bool_decide (p = 1)) None (λ _, TLUF_ABC).

(** *** C4 as the spec states it

    "if cond is a per-element mask and a variable-blend instruction is usable
    for the vector size and base type, the node is rewritten to
    BlendVariableMask/BlendVariable with operand order (b, a, cond)", the
    third operand being the condition or the mask made of it; otherwise a
    TernaryLogic node with control byte 0xCA under AVX-512; otherwise the
    and/and-not/or expansion, after which the node is out of the range. *)
Definition C4_as_stated (comp : Compiler) (s : Lowering) (node : GenTreePtr) : Prop :=
  let cond := Op s node 1 in
  let a := Op s node 2 in
  let b := Op s node 3 in
  let r := LowerHWIntrinsicCndSel comp node s in
  let blend :=
    IsVectorPerElementMask comp s cond (gtSimdBaseJitType (gt s node)) (gtSimdSize (gt s node))
    && CndSel_blendUsable comp s node in
  (blend = true →
     ∃ s' m, r = LowerNode comp node s'
       ∧ gtHWIntrinsicId (gt s' node)
           ∈ [NI_AVX512_BlendVariableMask; NI_SSE42_BlendVariable; NI_AVX_BlendVariable;
              NI_AVX2_BlendVariable]
       ∧ gtOperands (gt s' node) = [b; a; m])
  ∧ (blend = false → compOpportunisticallyDependsOn comp InstructionSet_AVX512 = true →
     ∃ s' control, r = LowerNode comp node s'
       ∧ gtHWIntrinsicId (gt s' node) = NI_AVX512_TernaryLogic
       ∧ gtOperands (gt s' node) = [cond; a; b; control]
       ∧ gtIconVal (gt s' control) = 202%Z)
  ∧ (blend = false → compOpportunisticallyDependsOn comp InstructionSet_AVX512 = false →
     ∃ s' tmp4, r = LowerNode comp tmp4 s' ∧ gtOper (gt s' tmp4) = GT_OR
       ∧ (node ∉ m_blockRange s')).

(** [V02 = And(V01, <7, 7, ...>)] on 16-byte vectors whose lanes are of the
    base type [baseType]: the second operand is the vector constant with the
    bytes [bytes]. *)
Definition vecCon (type : var_types) (bytes : list Z) : GenTree :=
  set_gtSimdVal (gtNewNode GT_CNS_VEC type []) (bytes ++ replicate (64 - length bytes) 0%Z).

Definition andWithConstant (baseType : var_types) (bytes : list Z) : Lowering :=
  exampleRange [(1, lclVar TYP_SIMD16 1); (2, vecCon TYP_SIMD16 bytes);
                (3, hwNode TYP_SIMD16 NI_X86Base_And [1; 2] baseType 16);
                (4, set_gtLclNum (gtNewNode GT_STORE_LCL_VAR TYP_SIMD16 [3]) 2)].

(** Four ints equal to 7, and eight shorts equal to 7. *)
Definition andWithIntSevens : Lowering :=
  andWithConstant TYP_INT [7; 0; 0; 0; 7; 0; 0; 0; 7; 0; 0; 0; 7; 0; 0; 0]%Z.
Definition andWithShortSevens : Lowering :=
  andWithConstant TYP_SHORT [7; 0; 7; 0; 7; 0; 7; 0; 7; 0; 7; 0; 7; 0; 7; 0]%Z.

Definition broadcastIds : list NamedIntrinsic :=
  [NI_AVX2_BroadcastScalarToVector128; NI_AVX2_BroadcastScalarToVector256;
   NI_AVX512_BroadcastScalarToVector512].

(** The broadcast intrinsic of a vector type. *)
Definition broadcastName (simdType : var_types) : NamedIntrinsic :=
  if bool_decide (simdType = TYP_SIMD32) then NI_AVX2_BroadcastScalarToVector256
  else if bool_decide (simdType = TYP_SIMD64) then NI_AVX512_BroadcastScalarToVector512
  else NI_AVX2_BroadcastScalarToVector128.

(** *** C8 as the spec states it

    "Whenever a constant vector operand of an embedded-broadcast-compatible
    hardware intrinsic has every element equal to the same scalar of the
    parent's base type and the embedded-broadcast feature is available",
    the constant is replaced by a broadcast of a scalar creation, the
    broadcast is contained and the constant is out of the range; an all-zero
    or all-bits-set constant is not containable. *)
Definition C8_as_stated (comp : Compiler) (s : Lowering) (parentNode childNode : GenTreePtr)
    : Prop :=
  let simdBaseType := gtSimdBaseJitType (gt s parentNode) in
  let r := TryMakeSrcContainedOrRegOptional comp parentNode childNode s in
  IsCnsVec s childNode = true →
  isEmbeddedBroadcastCompatibleHWIntrinsic comp s parentNode = true →
  canUseEmbeddedBroadcast comp = true →
  (VecCon_IsBroadcast (gt s childNode) simdBaseType = true →
   VecCon_IsZero (gt s childNode) = false →
   VecCon_IsAllBitsSet (gt s childNode) = false →
   ∃ s' broadcastNode createScalar,
     r = Some s'
     ∧ gtHWIntrinsicId (gt s' broadcastNode) ∈ broadcastIds
     ∧ gtOperands (gt s' broadcastNode) = [createScalar]
     ∧ gtHWIntrinsicId (gt s' createScalar) = NI_Vector128_CreateScalarUnsafe
     ∧ isContained s' broadcastNode = true
     ∧ (childNode ∉ m_blockRange s'))
  ∧ (VecCon_IsZero (gt s childNode) = true ∨ VecCon_IsAllBitsSet (gt s childNode) = true →
     (IsContainableHWIntrinsicOp comp s parentNode childNode).1 = false).

(** The outcome [r] of folding the vector constant [childNode] of
    [parentNode] into a broadcast: the scalar constant, its
    [CreateScalarUnsafe] and the broadcast are new nodes put, in this order,
    before the constant; the constant is out of the range and its use reads the
    broadcast (state [s8]); the two intrinsic nodes are lowered; the scalar
    creation (floating point) or the scalar constant (integers) is contained
    in the broadcast and the broadcast in the parent. *)
Definition FoldedToBroadcast (comp : Compiler) (s : Lowering) (parentNode childNode : GenTreePtr)
    (r : option Lowering) : Prop :=
  let simdType := gtType (gt s childNode) in
  let simdBaseType := gtSimdBaseJitType (gt s parentNode) in
  ∃ constScalar createScalar broadcastNode s1 s8,
    let s10 := (LowerNode comp broadcastNode (LowerNode comp createScalar s8).2).2 in
    let s11 :=
      if varTypeIsFloating simdBaseType then MakeSrcContained broadcastNode createScalar s10
      else if bool_decide (gtType (gt s10 constScalar) ∈ [TYP_INT; TYP_UINT; TYP_LONG; TYP_ULONG])
      then MakeSrcContained broadcastNode constScalar s10
      else s10 in
    r = Some (MakeSrcContained parentNode broadcastNode s11)
    ∧ TryFoldCnsVec_constScalar comp simdBaseType (gtSimdVal (gt s childNode)) s
      = Some (constScalar, s1)
    ∧ gtNodes s !! constScalar = None
    ∧ gtNodes s !! createScalar = None
    ∧ gtNodes s !! broadcastNode = None
    ∧ NoDup [constScalar; createScalar; broadcastNode]
    ∧ gt s8 constScalar = gt s1 constScalar
    ∧ OperIsConst (gtOper (gt s8 constScalar)) = true
    ∧ (varTypeIsFloating simdBaseType = false → gtType (gt s8 constScalar) ∈ [TYP_INT; TYP_LONG])
    ∧ gt s8 createScalar
      = hwNode TYP_SIMD16 NI_Vector128_CreateScalarUnsafe [constScalar] simdBaseType 16
    ∧ gtHWIntrinsicId (gt s8 broadcastNode) = broadcastName simdType
    ∧ gtOperands (gt s8 broadcastNode) = [createScalar]
    ∧ gtType (gt s8 broadcastNode) = simdType
    ∧ m_blockRange s8
      = filter (λ q, q ≠ childNode)
          (insert_before childNode [constScalar; createScalar; broadcastNode] (m_blockRange s))
    ∧ (∃ sQuery,
         m_blockRange sQuery
         = insert_before childNode [constScalar; createScalar; broadcastNode] (m_blockRange s)
         ∧ ReplacedAt sQuery childNode broadcastNode s8).

(** ** The shape of the range before an indirect store

    [IsRMWIndirCandidate] crawls the range backwards from the store and relies
    on what every LIR range guarantees: a node occurs once, it is the operand
    of at most one node, its operands come before it, and no mark bit is left
    set.  [l] lists nodes in the order of the crawl, nearest first, and [ops]
    gives the operands of a node. *)
Fixpoint OperandsPrecede (ops : GenTreePtr → list GenTreePtr) (l : list GenTreePtr) : Prop :=
  match l with
  | [] => True
  | q :: l' => Forall (λ o, o ∈ l') (ops q) ∧ OperandsPrecede ops l'
  end.

#[global] Instance OperandsPrecede_dec ops l : Decision (OperandsPrecede ops l).
Proof. induction l; simpl; apply _. Defined.

Definition TreeOrder (ops : GenTreePtr → list GenTreePtr) (l : list GenTreePtr) : Prop :=
  NoDup l ∧ NoDup (l ≫= ops) ∧ OperandsPrecede ops l.

(** The null handle is no node, and the store with the nodes before it is in
    tree order, with every node in the arena and unmarked. *)
Definition StoreIndWellFormed (s : Lowering) (storeInd : GenTreePtr) : Prop :=
  gtNodes s !! 0 = None
  ∧ TreeOrder (λ q, gtOperands (gt s q)) (storeInd :: nodes_before storeInd (m_blockRange s))
  ∧ Forall (λ q, is_Some (gtNodes s !! q) ∧ LIR_Mark (gt s q) = false)
      (storeInd :: nodes_before storeInd (m_blockRange s)).

(** A node without its mark bit. *)
Definition unmark (n : GenTree) : GenTree := set_LIR_Mark n false.

(** The invariant of the crawl: [M] lists the marked nodes still ahead; a node
    ahead that has a marked operand is itself unmarked and is the operand of
    no node ahead. *)
Definition WalkInv (ops : GenTreePtr → list GenTreePtr) (s : Lowering)
    (l M : list GenTreePtr) : Prop :=
  (∀ q, gtOperands (gt s q) = ops q)
  ∧ (∀ q, q ∈ l → is_Some (gtNodes s !! q))
  ∧ NoDup M
  ∧ (∀ q, q ∈ M → q ∈ l)
  ∧ (∀ q, q ∈ l → LIR_Mark (gt s q) = true ↔ q ∈ M)
  ∧ (∀ q o, q ∈ l → o ∈ ops q → o ∈ M → (q ∉ M) ∧ ∀ q', q' ∈ l → q ∉ ops q').

(** What the crawl over [l] leaves: the nodes as they were up to the mark
    bits, no mark in [l], the marks elsewhere as they were. *)
Definition MarksCleared (s : Lowering) (l : list GenTreePtr) (s' : Lowering) : Prop :=
  (∀ q, unmark (gt s' q) = unmark (gt s q))
  ∧ (∀ q, is_Some (gtNodes s' !! q) ↔ is_Some (gtNodes s !! q))
  ∧ m_blockRange s' = m_blockRange s
  ∧ (∀ q, q ∈ l → LIR_Mark (gt s' q) = false)
  ∧ (∀ q, q ∉ l → LIR_Mark (gt s' q) = LIR_Mark (gt s q)).

(** What a run of the detector from the unknown status leaves on the store
    [storeInd]: the status [st], the answer [r] that goes with it, and every
    other field of every node, and the range, as they were. *)
Definition DetectorResult (s : Lowering) (storeInd : GenTreePtr) (st : RMWStatus)
    (r : RMWResult) (s' : Lowering) : Prop :=
  GetRMWStatus s' storeInd = st
  ∧ rmwFound r = RMWStatus_IsRMW st
  ∧ (RMWStatus_IsRMW st = false → r = rmwNo)
  ∧ gt s' storeInd = set_gtRMWStatus (gt s storeInd) st
  ∧ (∀ q, q ≠ storeInd → gt s' q = gt s q)
  ∧ m_blockRange s' = m_blockRange s.

(** [STOREIND<int>(V01, ADD(IND<int>(V01), V02))]. *)
Definition storeAddOfInd : Lowering :=
  exampleRange [(1, lclVar TYP_BYREF 1); (2, lclVar TYP_BYREF 1);
                (3, gtNewNode GT_IND TYP_INT [2]); (4, lclVar TYP_INT 2);
                (5, gtNewNode GT_ADD TYP_INT [3; 4]);
                (6, gtNewNode GT_STOREIND TYP_INT [1; 5])].

(** A node without its containment and reg-optional flags, and two states
    that differ in these flags only. *)
Definition unflag (n : GenTree) : GenTree :=
  set_LIR_RegOptional (set_GTF_CONTAINED n false) false.

Definition FlagsOnly (s s' : Lowering) : Prop :=
  (∀ q, unflag (gt s' q) = unflag (gt s q))
  ∧ (∀ q, is_Some (gtNodes s' !! q) ↔ is_Some (gtNodes s !! q))
  ∧ m_blockRange s' = m_blockRange s.

(** ** Further routines of [lowerxarch.cpp] *)

(** *** Condition codes and flag immediates

    The integer condition codes of [GenCondition] that [TruthifyingFlags]
    handles, some of the codes it does not, and the flag immediates of
    [insCflags] it returns. *)
Inductive GenCondition_Code : Set :=
  | GenCondition_EQ | GenCondition_NE
  | GenCondition_SLT | GenCondition_SLE | GenCondition_SGE | GenCondition_SGT
  | GenCondition_ULT | GenCondition_ULE | GenCondition_UGE | GenCondition_UGT
  | GenCondition_S | GenCondition_NS | GenCondition_C | GenCondition_NC
  | GenCondition_O | GenCondition_NO | GenCondition_P | GenCondition_NP
  | GenCondition_FEQ | GenCondition_FNE | GenCondition_FLT | GenCondition_FLE
  | GenCondition_FGE | GenCondition_FGT.

#[global] Instance GenCondition_Code_eq_dec : EqDecision GenCondition_Code.
Proof. solve_decision. Defined.

Inductive insCflags : Set :=
  | INS_FLAGS_NONE | INS_FLAGS_CF | INS_FLAGS_ZF | INS_FLAGS_SF | INS_FLAGS_OF.

(** [Lowering::TruthifyingFlags]; [None] is the [NO_WAY] of the default case. *)
Definition TruthifyingFlags (condition : GenCondition_Code) : option insCflags :=
  match condition with
  | GenCondition_EQ => Some INS_FLAGS_ZF
  | GenCondition_NE => Some INS_FLAGS_NONE
  | GenCondition_SGE => Some INS_FLAGS_NONE
  | GenCondition_SGT => Some INS_FLAGS_NONE
  | GenCondition_SLE => Some INS_FLAGS_ZF
  | GenCondition_SLT => Some INS_FLAGS_SF
  | GenCondition_UGE => Some INS_FLAGS_NONE
  | GenCondition_UGT => Some INS_FLAGS_NONE
  | GenCondition_ULE => Some INS_FLAGS_ZF
  | GenCondition_ULT => Some INS_FLAGS_CF
  | _ => None
  end.

(** The four status flags, the state in which exactly the flags of a flag
    immediate are set, and the meaning of the integer conditions as the
    comments of [TruthifyingFlags] and the x86 condition codes give them:
    EQ is ZF, NE its negation, SLT is SF ^ OF, SGE its negation, SGT is
    !(SF ^ OF) && !ZF, SLE is (SF ^ OF) || ZF (the comment in the source has
    !(SF ^ OF) || ZF there), ULT is CF, UGE its negation, UGT is !CF && !ZF,
    ULE is CF || ZF.  The other codes have no meaning here. *)
Record CpuFlags : Set := mkCpuFlags { CF : bool; ZF : bool; SF : bool; OF : bool }.

Definition insCflags_state (f : insCflags) : CpuFlags :=
  match f with
  | INS_FLAGS_NONE => mkCpuFlags false false false false
  | INS_FLAGS_CF => mkCpuFlags true false false false
  | INS_FLAGS_ZF => mkCpuFlags false true false false
  | INS_FLAGS_SF => mkCpuFlags false false true false
  | INS_FLAGS_OF => mkCpuFlags false false false true
  end.

Definition GenCondition_holds (condition : GenCondition_Code) (f : CpuFlags) : option bool :=
  match condition with
  | GenCondition_EQ => Some (ZF f)
  | GenCondition_NE => Some (negb (ZF f))
  | GenCondition_SLT => Some (xorb (SF f) (OF f))
  | GenCondition_SGE => Some (negb (xorb (SF f) (OF f)))
  | GenCondition_SGT => Some (negb (xorb (SF f) (OF f)) && negb (ZF f))
  | GenCondition_SLE => Some (xorb (SF f) (OF f) || ZF f)
  | GenCondition_ULT => Some (CF f)
  | GenCondition_UGE => Some (negb (CF f))
  | GenCondition_UGT => Some (negb (CF f) && negb (ZF f))
  | GenCondition_ULE => Some (CF f || ZF f)
  | _ => None
  end.

(** *** Reg-optional preference

    The fields of a local's descriptor that [PreferredRegOptionalOperand]
    reads; the weighted reference count is a number compared with [>=]. *)
Record LclVarDsc : Type := mkLclVarDsc {
  lvDoNotEnregister : bool;
  lvTracked : bool;
  lvRefCntWtd : Z
}.

(** [Lowering::PreferredRegOptionalOperand]; [lvaGetDesc] is the table of the
    locals, by local number. *)
Definition PreferredRegOptionalOperand (lvaGetDesc : nat → LclVarDsc) (s : Lowering)
    (op1 op2 : GenTreePtr) : GenTreePtr :=
  if bool_decide (op1 = 0) then op2
  else if OperIs s op1 GT_LCL_VAR then
    if OperIs s op2 GT_LCL_VAR then
      let v1 := lvaGetDesc (gtLclNum (gt s op1)) in
      let v2 := lvaGetDesc (gtLclNum (gt s op2)) in
      let v1IsRegCandidate := negb (lvDoNotEnregister v1) in
      let v2IsRegCandidate := negb (lvDoNotEnregister v2) in
      if v1IsRegCandidate && v2IsRegCandidate then
        if lvTracked v1 && lvTracked v2 then
          if bool_decide (lvRefCntWtd v2 ≤ lvRefCntWtd v1)%Z then op2 else op1
        else op1
      else op1
    else op1
  else if OperIs s op2 GT_LCL_VAR then op2
  else op1.

(** *** Byte swaps and divisions *)

(** [Lowering::LowerBswapOp] *)
Definition LowerBswapOp (comp : Compiler) (node : GenTreePtr) (s : Lowering) : Lowering :=
  if negb (opts_OptimizationEnabled comp)
     || negb (compOpportunisticallyDependsOn comp InstructionSet_AVX2)
  then s
  else
    let operand := gtGetOp1 s node in
    let swapSize := if OperIs s node GT_BSWAP16 then 2 else genTypeSizeOf comp s node in
    if bool_decide (swapSize = genTypeSizeOf comp s operand)
       && IsContainableMemoryOp comp s operand
       && IsSafeToContainMem comp s node operand
    then MakeSrcContained node operand s
    else s.

(** [Lowering::ContainCheckDivOrMod] *)
Definition ContainCheckDivOrMod (comp : Compiler) (node : GenTreePtr) (s : Lowering)
    : Lowering :=
  if varTypeIsFloating (gtType (gt s node)) then ContainCheckFloatBinary comp node s
  else
    let divisor := gtGetOp2 s node in
    let dividend := gtGetOp1 s node in
    let '(divisorCanBeRegOptional, s1) :=
      if TARGET_X86 comp && OperIs s dividend GT_LONG
      then (false, MakeSrcContained node dividend s)
      else (true, s) in
    if IsContainableMemoryOp comp s1 divisor
       && bool_decide (gtType (gt s1 divisor) = gtType (gt s1 node))
       && IsInvariantInRange comp s1 divisor node
    then MakeSrcContained node divisor s1
    else if divisorCanBeRegOptional && IsSafeToMarkRegOptional comp s1 node divisor
    then SetRegOptional divisor s1
    else s1.

(** ** Further examples *)

(** The inputs that a use-flag class of a ternary-logic control byte names,
    picked from three operands in their order. *)
Definition TernaryLogic_usedOperands (useFlags : TernaryLogicUseFlags)
    (o1 o2 o3 : GenTreePtr) : list GenTreePtr :=
  match useFlags with
  | TLUF_None => []
  | TLUF_A => [o1]
  | TLUF_B => [o2]
  | TLUF_C => [o3]
  | TLUF_AB => [o1; o2]
  | TLUF_AC => [o1; o3]
  | TLUF_BC => [o2; o3]
  | TLUF_ABC => [o1; o2; o3]
  end.

(** [STOREIND<int>(V01, BSWAP<int>(IND<int>(V02)))]. *)
Definition storeOfBswap : Lowering :=
  exampleRange [(1, lclVar TYP_BYREF 1); (2, lclVar TYP_BYREF 2);
                (3, gtNewNode GT_IND TYP_INT [2]); (4, gtNewNode GT_BSWAP TYP_INT [3]);
                (5, gtNewNode GT_STOREIND TYP_INT [1; 4])].

(** [V02 = LSH<int>(V01, 3)] and [V03 = DIV<int>(V01, IND<int>(V02))]. *)
Definition shiftByThree : Lowering :=
  exampleRange [(1, lclVar TYP_INT 1); (2, intCon TYP_INT 3);
                (3, gtNewNode GT_LSH TYP_INT [1; 2]);
                (4, set_gtLclNum (gtNewNode GT_STORE_LCL_VAR TYP_INT [3]) 2)].

Definition divByIndir : Lowering :=
  exampleRange [(1, lclVar TYP_INT 1); (2, lclVar TYP_BYREF 2);
                (3, gtNewNode GT_IND TYP_INT [2]);
                (4, gtNewNode GT_DIV TYP_INT [1; 3]);
                (5, set_gtLclNum (gtNewNode GT_STORE_LCL_VAR TYP_INT [4]) 3)].

(** [TernaryLogic(V01, V02, V03, control)] on 16-byte vectors. *)
Definition ternaryLogic (control : Z) : Lowering :=
  exampleRange [(1, lclVar TYP_SIMD16 1); (2, lclVar TYP_SIMD16 2); (3, lclVar TYP_SIMD16 3);
                (4, intCon TYP_INT control);
                (5, hwNode TYP_SIMD16 NI_AVX512_TernaryLogic [1; 2; 3; 4] TYP_INT 16);
                (6, set_gtLclNum (gtNewNode GT_STORE_LCL_VAR TYP_SIMD16 [5]) 4)].

(** * Properties *)

(** The state operations are kept folded by [simpl]; the lemmas of this part
    describe them. *)
#[global] Arguments gt : simpl never.
#[global] Arguments gtUpd : simpl never.
#[global] Arguments gtAlloc : simpl never.
#[global] Arguments BlockRange_Remove : simpl never.
#[global] Arguments BlockRange_InsertBefore : simpl never.
#[global] Arguments BlockRange_InsertAfter : simpl never.
#[global] Arguments BlockRange_TryGetUse : simpl never.
#[global] Arguments Use_ReplaceWith : simpl never.
#[global] Arguments SetContained : simpl never.
#[global] Arguments ClearContained : simpl never.
#[global] Arguments SetUnusedValue : simpl never.
#[global] Arguments SetRMWStatus : simpl never.
#[global] Arguments genTypeSize : simpl never.

(** Decides the [bool_decide] guards of the embedded code from the context. *)
Ltac guard_solver := first [done | congruence | lia | naive_solver].
Ltac guards :=
  repeat first
    [ rewrite bool_decide_eq_true_2 by guard_solver
    | rewrite bool_decide_eq_false_2 by guard_solver ];
  cbn [negb andb orb].

(** Closed decidable facts about the examples, by evaluation. *)
Ltac by_compute :=
  match goal with |- ?P => apply (bool_decide_eq_true_1 P); vm_compute; reflexivity end.

(** ** The node arena *)

Lemma gt_gtUpd_proj {A} (proj : GenTree → A) p f s q :
  (∀ n, proj (f n) = proj n) → proj (gt (gtUpd p f s) q) = proj (gt s q).
Proof.
  intros H. unfold gt, gtUpd. simpl. rewrite lookup_alter.
  case_decide; subst; [destruct (gtNodes s !! q); simpl; auto | done].
Qed.

Lemma gt_gtUpd_ne p f s q : p ≠ q → gt (gtUpd p f s) q = gt s q.
Proof.
  intros H. unfold gt, gtUpd. simpl. rewrite lookup_alter. case_decide; congruence.
Qed.

Lemma gt_gtUpd_eq p f s : is_Some (gtNodes s !! p) → gt (gtUpd p f s) p = f (gt s p).
Proof.
  intros [n Hn]. unfold gt, gtUpd. simpl. rewrite lookup_alter.
  case_decide; [by rewrite Hn | done].
Qed.

Lemma gt_is_Some s p : gtOper (gt s p) ≠ GT_NONE → is_Some (gtNodes s !! p).
Proof.
  unfold gt. destruct (gtNodes s !! p); simpl; [eauto | congruence].
Qed.

Lemma OperIs_true s p o : OperIs s p o = true ↔ gtOper (gt s p) = o.
Proof. unfold OperIs. apply bool_decide_eq_true. Qed.

Lemma OperIs_is_Some s p o : o ≠ GT_NONE → OperIs s p o = true → is_Some (gtNodes s !! p).
Proof. intros Ho H%OperIs_true. apply gt_is_Some. congruence. Qed.

Lemma Op_gtUpd p f s q i :
  (∀ n, gtOperands (f n) = gtOperands n) → Op (gtUpd p f s) q i = Op s q i.
Proof. intros H. unfold Op. by rewrite (gt_gtUpd_proj gtOperands). Qed.

Lemma OperIs_gtUpd p f s q o :
  (∀ n, gtOper (f n) = gtOper n) → OperIs (gtUpd p f s) q o = OperIs s q o.
Proof. intros H. unfold OperIs. by rewrite (gt_gtUpd_proj gtOper). Qed.

Lemma isContained_SetContained_eq s p :
  is_Some (gtNodes s !! p) → isContained (SetContained p s) p = true.
Proof. intros H. unfold isContained, SetContained. by rewrite gt_gtUpd_eq. Qed.

Lemma isContained_SetContained_ne s p q :
  p ≠ q → isContained (SetContained p s) q = isContained s q.
Proof. intros H. unfold isContained, SetContained. by rewrite gt_gtUpd_ne. Qed.

(** ** Immediate operands of indirect stores *)

Lemma ContainCheckIndir_other comp node s q :
  gtGetOp1 s node ≠ q → gt (ContainCheckIndir comp node s) q = gt s q.
Proof.
  intros H. unfold ContainCheckIndir, MakeSrcContained, SetContained.
  repeat case_match; try done; by apply gt_gtUpd_ne.
Qed.

(** The data operand of a store is an integer constant: what
    [ContainCheckStoreIndir] does to its contained flag. *)
Lemma ContainCheckStoreIndir_IntCns comp s node :
  let src := gtGetOp2 s node in
  gtGetOp1 s node ≠ src →
  IsCnsIntOrI s src = true →
  isContained (ContainCheckStoreIndir comp node s) src =
    if IsContainableImmed comp s node src
       && (negb (IsIntegralConst s src 0) || varTypeIsSmall (gtType (gt s node)))
    then true else isContained s src.
Proof.
  intros src Hne Hcns. unfold ContainCheckStoreIndir. fold src.
  set (s1 := if _ && _ then MakeSrcContained node src s else s).
  assert (Hops : ∀ q i, Op s1 q i = Op s q i).
  { intros. unfold s1. case_match; [|done]. by apply Op_gtUpd. }
  assert (Hoper : ∀ q o, OperIs s1 q o = OperIs s q o).
  { intros. unfold s1. case_match; [|done]. by apply OperIs_gtUpd. }
  assert (Hsrc : gtOper (gt s src) = GT_CNS_INT) by by apply OperIs_true.
  set (s2 := if opts_OptimizationEnabled comp then _ else s1).
  assert (Hs2 : s2 = s1).
  { unfold s2. destruct (opts_OptimizationEnabled comp); [|done].
    unfold OperIsHWIntrinsic. rewrite !Hoper. unfold OperIs. rewrite Hsrc.
    by rewrite !bool_decide_eq_false_2 by done. }
  rewrite Hs2. unfold isContained.
  rewrite ContainCheckIndir_other by (unfold gtGetOp1; by rewrite Hops).
  unfold s1. case_match; [|done].
  apply isContained_SetContained_eq, gt_is_Some. congruence.
Qed.

(** C7 (corrected): for every indirect store whose data operand is an integer
    constant [v], [ContainCheckStoreIndir] marks the constant contained exactly
    when it is a containable immediate (it fits in signed 32 bits and needs no
    relocation) and either [v] is not zero or the store is of a small (8- or
    16-bit) type; a zero immediate of an int-sized or larger store, and an
    immediate that needs relocation or does not fit in signed 32 bits, keep the
    contained flag they had.  The target's bitness plays no part. *)
Theorem ContainCheckStoreIndir_immediate comp s node :
  let src := gtGetOp2 s node in
  let v := gtIconVal (gt s src) in
  let fits := (- 2 ^ 31 ≤ v < 2 ^ 31)%Z in
  let reloc := ImmedValNeedsReloc comp (gt s src) in
  let small := varTypeIsSmall (gtType (gt s node)) in
  let s' := ContainCheckStoreIndir comp node s in
  gtGetOp1 s node ≠ src →
  gtOper (gt s src) = GT_CNS_INT →
  (fits → reloc = false → v ≠ 0%Z ∨ small = true → isContained s' src = true)
  ∧ (fits → reloc = false → v = 0%Z → small = false → isContained s' src = isContained s src)
  ∧ (¬ fits ∨ reloc = true → isContained s' src = isContained s src).
Proof.
  intros src v fits reloc small s' Hne Hcns.
  assert (Hc : IsCnsIntOrI s src = true) by by apply OperIs_true.
  pose proof (ContainCheckStoreIndir_IntCns comp s node Hne Hc) as H.
  fold src s' in H. rewrite H. clear H.
  unfold IsContainableImmed, IsIntCnsFitsInI32, IsIntegralConst. rewrite Hc. fold src v reloc small.
  assert (Hi : OperIs s src GT_CNS_INT = true) by done. rewrite Hi. simpl.
  unfold fits. repeat split.
  - intros [H1 H2] Hr Hv. rewrite !bool_decide_eq_true_2 by done. simpl. rewrite Hr.
    destruct Hv as [Hv | ->]; [|by rewrite orb_true_r].
    by rewrite bool_decide_eq_false_2.
  - intros [H1 H2] Hr Hv Hs. rewrite !bool_decide_eq_true_2 by done. simpl.
    by rewrite Hr, Hs.
  - intros [Hf | Hr].
    + destruct (bool_decide (- 2 ^ 31 ≤ v)%Z) eqn:E1; [|done].
      destruct (bool_decide (v < 2 ^ 31)%Z) eqn:E2; [|done].
      apply bool_decide_eq_true in E1, E2. lia.
    + rewrite Hr. by repeat case_match.
Qed.

Lemma ContainCheckStoreIndir_immediate_witness :
  isContained (ContainCheckStoreIndir x64 3 storeIntSeven) 2 = true
  ∧ isContained (ContainCheckStoreIndir x64 3 storeIntZero) 2 = false.
Proof.
  destruct (ContainCheckStoreIndir_immediate x64 storeIntSeven 3) as (H1 & _ & _);
    [vm_compute; lia | reflexivity |].
  destruct (ContainCheckStoreIndir_immediate x64 storeIntZero 3) as (_ & H2 & _);
    [vm_compute; lia | reflexivity |].
  split.
  - apply H1; [vm_compute; split; congruence | reflexivity | left; vm_compute; lia].
  - refine (H2 _ _ _ _); [vm_compute; split; congruence | reflexivity..].
Defined.

(** C7, counterexample: on the 64-bit target a one-byte store of the immediate
    zero has its immediate contained, where the claim leaves zero stores
    non-contained on 64-bit. *)
Lemma ContainCheckStoreIndir_zero_byte_store_contained :
  ¬ C7_as_stated x64 storeByteZero 3.
Proof.
  intros [H _]. vm_compute in H. specialize (H eq_refl). discriminate.
Qed.

(** ** Allocation and the block range *)

Lemma gtAlloc_fresh n s : gtNodes s !! (gtAlloc n s).1 = None ∧ (gtAlloc n s).1 ≠ 0.
Proof.
  unfold gtAlloc. simpl.
  pose proof (is_fresh ({[0]} ∪ dom (gtNodes s))) as H.
  split; [apply not_elem_of_dom | intros E; rewrite E in H]; set_solver.
Qed.

Lemma gt_gtAlloc_eq n s : gt (gtAlloc n s).2 (gtAlloc n s).1 = n.
Proof. unfold gt, gtAlloc. simpl. by rewrite lookup_insert_eq. Qed.

Lemma gt_gtAlloc_ne n s q : q ≠ (gtAlloc n s).1 → gt (gtAlloc n s).2 q = gt s q.
Proof. intros H. unfold gt, gtAlloc. simpl. by rewrite lookup_insert_ne. Qed.

Lemma gt_gtAlloc_old n s q : is_Some (gtNodes s !! q) → gt (gtAlloc n s).2 q = gt s q.
Proof.
  intros [m Hm]. apply gt_gtAlloc_ne. intros ->.
  destruct (gtAlloc_fresh n s) as [H _]. congruence.
Qed.

Lemma gtAlloc_is_Some n s q :
  is_Some (gtNodes s !! q) → is_Some (gtNodes (gtAlloc n s).2 !! q).
Proof.
  intros H. unfold gtAlloc. simpl. rewrite lookup_insert. case_decide; eauto.
Qed.

Lemma gtAlloc_new_is_Some n s : is_Some (gtNodes (gtAlloc n s).2 !! (gtAlloc n s).1).
Proof. unfold gtAlloc. simpl. rewrite lookup_insert_eq. eauto. Qed.

Lemma gtUpd_is_Some p f s q : is_Some (gtNodes (gtUpd p f s) !! q) ↔ is_Some (gtNodes s !! q).
Proof.
  unfold gtUpd. simpl. rewrite lookup_alter. case_decide; subst; [|done].
  by rewrite fmap_is_Some.
Qed.

Lemma operands_is_Some s p : gtOperands (gt s p) ≠ [] → is_Some (gtNodes s !! p).
Proof. unfold gt. destruct (gtNodes s !! p); simpl; [eauto | congruence]. Qed.

Lemma elem_of_remove (p q : nat) (l : list nat) :
  q ∈ filter (λ x, x ≠ p) l ↔ q ∈ l ∧ q ≠ p.
Proof. rewrite list_elem_of_filter. tauto. Qed.

Lemma elem_of_insert_before (pos : nat) (new l : list nat) (q : nat) :
  q ∈ insert_before pos new l ↔ q ∈ l ∨ (pos ∈ l ∧ q ∈ new).
Proof.
  induction l as [|x l IH]; simpl.
  - set_solver.
  - case_decide; subst.
    + rewrite elem_of_app, !elem_of_cons. set_solver.
    + rewrite !elem_of_cons, IH. set_solver.
Qed.

Lemma elem_of_insert_after (pos : nat) (new l : list nat) (q : nat) :
  q ∈ insert_after pos new l ↔ q ∈ l ∨ (pos ∈ l ∧ q ∈ new).
Proof.
  induction l as [|x l IH]; simpl.
  - set_solver.
  - case_decide; subst.
    + rewrite elem_of_cons, elem_of_app, !elem_of_cons. set_solver.
    + rewrite !elem_of_cons, IH. set_solver.
Qed.

(** Inserting before a node of the range puts the new nodes right in front
    of it. *)
Lemma insert_before_split (pos : nat) (new l : list nat) :
  pos ∈ l →
  ∃ pre post, l = pre ++ pos :: post ∧ (pos ∉ pre)
              ∧ insert_before pos new l = pre ++ new ++ pos :: post.
Proof.
  induction l as [|x l IH]; [set_solver|]. intros H. simpl.
  case_decide; subst.
  - exists [], l. set_solver.
  - destruct IH as (pre & post & -> & Hpre & ->); [set_solver|].
    exists (x :: pre), post. set_solver.
Qed.

Lemma nodes_after_elem (p : nat) (l : list nat) q : q ∈ nodes_after p l → q ∈ l ∧ p ∈ l.
Proof.
  induction l as [|x l IH]; simpl; [set_solver|].
  case_decide; subst; set_solver.
Qed.

Lemma index_of_Some (p : nat) (l : list nat) i : index_of p l = Some i → l !! i = Some p.
Proof.
  revert i. induction l as [|x l IH]; simpl; [done|]. intros i.
  case_decide; subst; [by intros [= <-]|].
  destruct (index_of p l); simpl; [|done]. intros [= <-]. by apply IH.
Qed.

Lemma find_use_Some s def l use :
  find_use s def l = Some use →
  Use_User use ∈ l ∧ gtOperands (gt s (Use_User use)) !! Use_Slot use = Some def.
Proof.
  induction l as [|u l IH]; simpl; [done|].
  destruct (index_of def (gtOperands (gt s u))) eqn:E.
  - intros [= <-]. simpl. split; [set_solver | by apply index_of_Some].
  - intros H. destruct (IH H). set_solver.
Qed.

(** A use the block range reports is a node after the definition, in the
    range, with an operand edge to the definition. *)
Lemma BlockRange_TryGetUse_Some s def use :
  BlockRange_TryGetUse s def = Some use →
  Use_User use ∈ m_blockRange s ∧ def ∈ m_blockRange s
  ∧ gtOperands (gt s (Use_User use)) !! Use_Slot use = Some def
  ∧ is_Some (gtNodes s !! Use_User use).
Proof.
  intros H. apply find_use_Some in H as [H1 H2].
  apply nodes_after_elem in H1 as [H1 H3]. repeat split; try done.
  apply operands_is_Some. intros E. by rewrite E in H2.
Qed.

Lemma Use_ReplaceWith_slot use new s :
  is_Some (gtOperands (gt s (Use_User use)) !! Use_Slot use) →
  gtOperands (gt (Use_ReplaceWith use new s) (Use_User use)) !! Use_Slot use = Some new.
Proof.
  intros H. unfold Use_ReplaceWith.
  rewrite gt_gtUpd_eq.
  - simpl. apply list_lookup_insert_eq. by apply lookup_lt_is_Some.
  - apply operands_is_Some. intros E. rewrite E in H. by destruct H.
Qed.

(** The range operations leave the arena alone, the node updates leave the
    range alone. *)
Lemma range_Remove p s :
  m_blockRange (BlockRange_Remove p s) = filter (λ x, x ≠ p) (m_blockRange s).
Proof. done. Qed.

Lemma range_InsertBefore pos new s :
  m_blockRange (BlockRange_InsertBefore pos new s) = insert_before pos new (m_blockRange s).
Proof. done. Qed.

Lemma range_InsertAfter pos new s :
  m_blockRange (BlockRange_InsertAfter pos new s) = insert_after pos new (m_blockRange s).
Proof. done. Qed.

Lemma range_gtUpd p f s : m_blockRange (gtUpd p f s) = m_blockRange s.
Proof. done. Qed.

Lemma range_Use_ReplaceWith use new s : m_blockRange (Use_ReplaceWith use new s) = m_blockRange s.
Proof. done. Qed.

Lemma range_SetUnusedValue p s : m_blockRange (SetUnusedValue p s) = m_blockRange s.
Proof. done. Qed.

Lemma range_SetContained p s : m_blockRange (SetContained p s) = m_blockRange s.
Proof. done. Qed.

Lemma range_ClearContained p s : m_blockRange (ClearContained p s) = m_blockRange s.
Proof. done. Qed.

Lemma gt_Remove p s q : gt (BlockRange_Remove p s) q = gt s q.
Proof. done. Qed.

Lemma gt_InsertBefore pos new s q : gt (BlockRange_InsertBefore pos new s) q = gt s q.
Proof. done. Qed.

Lemma gt_InsertAfter pos new s q : gt (BlockRange_InsertAfter pos new s) q = gt s q.
Proof. done. Qed.

Lemma nodes_Remove p s : gtNodes (BlockRange_Remove p s) = gtNodes s.
Proof. done. Qed.

Lemma nodes_InsertBefore pos new s : gtNodes (BlockRange_InsertBefore pos new s) = gtNodes s.
Proof. done. Qed.

Lemma nodes_InsertAfter pos new s : gtNodes (BlockRange_InsertAfter pos new s) = gtNodes s.
Proof. done. Qed.

Create Rewrite HintDb lower.
#[global] Hint Rewrite range_Remove range_InsertBefore range_InsertAfter range_gtUpd
  range_Use_ReplaceWith range_SetUnusedValue range_SetContained range_ClearContained
  gt_Remove gt_InsertBefore gt_InsertAfter nodes_Remove nodes_InsertBefore nodes_InsertAfter
  : lower.

Lemma gt_Use_ReplaceWith_ne use new s q :
  q ≠ Use_User use → gt (Use_ReplaceWith use new s) q = gt s q.
Proof. intros H. unfold Use_ReplaceWith. by apply gt_gtUpd_ne. Qed.

(** Everything an allocation guarantees. *)
Lemma gtAlloc_spec n s p s1 :
  gtAlloc n s = (p, s1) →
  gtNodes s !! p = None ∧ p ≠ 0 ∧ gt s1 p = n ∧ is_Some (gtNodes s1 !! p)
  ∧ (∀ q, q ≠ p → gt s1 q = gt s q)
  ∧ (∀ q, is_Some (gtNodes s !! q) → q ≠ p ∧ is_Some (gtNodes s1 !! q))
  ∧ m_blockRange s1 = m_blockRange s
  ∧ m_scratchSideEffects s1 = m_scratchSideEffects s.
Proof.
  intros E.
  pose proof (gtAlloc_fresh n s) as [H1 H2].
  pose proof (gt_gtAlloc_eq n s) as H3.
  pose proof (gtAlloc_new_is_Some n s) as H4.
  pose proof (gt_gtAlloc_ne n s) as H5.
  pose proof (gtAlloc_is_Some n s) as H6.
  assert (H7 : m_blockRange (gtAlloc n s).2 = m_blockRange s) by done.
  assert (H8 : m_scratchSideEffects (gtAlloc n s).2 = m_scratchSideEffects s) by done.
  rewrite E in *. simpl in *. repeat split; try done.
  - intros ->. destruct H as [m Hm]. congruence.
  - by apply H6.
Qed.

Lemma IsIntegralConst_is_Some s p c : IsIntegralConst s p c = true → is_Some (gtNodes s !! p).
Proof.
  unfold IsIntegralConst, OperIs. intros H. apply gt_is_Some. intros E. rewrite E in H.
  by rewrite !bool_decide_eq_false_2 in H by done.
Qed.

(** ** GetElement with index zero *)

(** C3: a [GetElement(v, i)] node whose index operand is the integer constant
    zero is rewritten in place to the [ToScalar(v)] intrinsic of its vector
    width (512 for a 64-byte vector, 256 for a 32-byte one, 128 otherwise),
    the index node leaves the block range and nothing else does, and lowering
    continues with [LowerNode] on the rewritten node. *)
Theorem LowerHWIntrinsicGetElement_zero comp s node v i :
  gtOper (gt s node) = GT_HWINTRINSIC →
  gtHWIntrinsicId (gt s node)
    ∈ [NI_Vector128_GetElement; NI_Vector256_GetElement; NI_Vector512_GetElement] →
  gtOperands (gt s node) = [v; i] →
  IsIntegralConst s i 0 = true →
  ∃ s',
    LowerHWIntrinsicGetElement comp node s = LowerNode comp node s'
    ∧ gtOper (gt s' node) = GT_HWINTRINSIC
    ∧ gtHWIntrinsicId (gt s' node) =
        (if decide (gtSimdSize (gt s node) = 64) then NI_Vector512_ToScalar
         else if decide (gtSimdSize (gt s node) = 32) then NI_Vector256_ToScalar
         else NI_Vector128_ToScalar)
    ∧ gtOperands (gt s' node) = [v]
    ∧ gtType (gt s' node) = gtType (gt s node)
    ∧ gtSimdSize (gt s' node) = gtSimdSize (gt s node)
    ∧ gtSimdBaseJitType (gt s' node) = gtSimdBaseJitType (gt s node)
    ∧ (∀ q, q ≠ node → gt s' q = gt s q)
    ∧ m_blockRange s' = filter (λ x, x ≠ i) (m_blockRange s)
    ∧ (i ∉ m_blockRange s')
    ∧ (∀ q, q ≠ i → q ∈ m_blockRange s → q ∈ m_blockRange s').
Proof.
  intros Hoper Hid Hops Hi.
  assert (Hnode : is_Some (gtNodes s !! node)) by (apply gt_is_Some; congruence).
  unfold LowerHWIntrinsicGetElement, Op. rewrite Hops. simpl. rewrite Hi.
  eexists. split; [reflexivity|].
  unfold ResetHWIntrinsicId.
  rewrite gt_gtUpd_eq by done. simpl.
  repeat split; try done.
  - repeat case_bool_decide; repeat case_decide; congruence.
  - intros q Hq. by rewrite gt_gtUpd_ne.
  - rewrite elem_of_remove. tauto.
  - intros q Hq Hin. by apply elem_of_remove.
Qed.

Lemma LowerHWIntrinsicGetElement_zero_witness :
  ∃ s', LowerHWIntrinsicGetElement x64 3 getElementZero = LowerNode x64 3 s'
        ∧ gtHWIntrinsicId (gt s' 3) = NI_Vector128_ToScalar
        ∧ gtOperands (gt s' 3) = [1]
        ∧ m_blockRange s' = [1; 3; 4].
Proof.
  destruct (LowerHWIntrinsicGetElement_zero x64 getElementZero 3 1 2)
    as (s' & H1 & _ & H2 & H3 & _ & _ & _ & _ & H4 & _).
  - reflexivity.
  - by_compute.
  - reflexivity.
  - reflexivity.
  - exists s'. repeat split; done.
Defined.

(** ** AND(x, ADD(x, -1)) *)

(** C5: for an [AND(x, ADD(x, -1))] whose two [x] are reads of the same local
    that is not address-exposed, with the instruction set available (AVX2, or
    its X64 form for a long), a use of the AND in the block range and none of
    the AND, the ADD and the [-1] asked to set the CPU flags,
    [TryLowerAndOpToResetLowestSetBit] creates one [ResetLowestSetBit(x)]
    hardware-intrinsic node of the AND's type, puts it in the range, redirects
    the use of the AND to it, and removes the AND, the ADD, the second read of
    the local and the [-1] from the range; what is left to run is the
    containment check of the new node. *)
Theorem TryLowerAndOpToResetLowestSetBit_rewrites comp s andNode x addNode x' minusOne use :
  gtOperands (gt s andNode) = [x; addNode] →
  gtOper (gt s x) = GT_LCL_VAR →
  lvaIsAddressExposed comp (gtLclNum (gt s x)) = false →
  gtOper (gt s addNode) = GT_ADD →
  gtOperands (gt s addNode) = [x'; minusOne] →
  gtOper (gt s x') = GT_LCL_VAR →
  gtLclNum (gt s x') = gtLclNum (gt s x) →
  IsIntegralConst s minusOne (-1) = true →
  GTF_SET_FLAGS (gt s andNode) = false →
  GTF_SET_FLAGS (gt s addNode) = false →
  GTF_SET_FLAGS (gt s minusOne) = false →
  (gtType (gt s x) = TYP_LONG ∧ compOpportunisticallyDependsOn comp InstructionSet_AVX2_X64 = true)
  ∨ compOpportunisticallyDependsOn comp InstructionSet_AVX2 = true →
  BlockRange_TryGetUse s andNode = Some use →
  ∃ blsrNode s',
    TryLowerAndOpToResetLowestSetBit comp andNode s
      = (Some blsrNode, ContainCheckHWIntrinsic comp blsrNode s')
    ∧ gtNodes s !! blsrNode = None
    ∧ gtOper (gt s' blsrNode) = GT_HWINTRINSIC
    ∧ gtHWIntrinsicId (gt s' blsrNode)
        ∈ [NI_AVX2_ResetLowestSetBit; NI_AVX2_X64_ResetLowestSetBit]
    ∧ gtOperands (gt s' blsrNode) = [x]
    ∧ gtType (gt s' blsrNode) = gtType (gt s andNode)
    ∧ gtOperands (gt s' (Use_User use)) !! Use_Slot use = Some blsrNode
    ∧ (∀ q, q ∈ m_blockRange s' ↔
            (q = blsrNode ∨ q ∈ m_blockRange s) ∧ q ∉ [andNode; addNode; x'; minusOne])
    ∧ blsrNode ∈ m_blockRange s'.
Proof.
  intros Hand Hx Hexp Hadd Haddops Hx' Hnum Hm1 Hf1 Hf2 Hf3 Hisa Huse.
  destruct (BlockRange_TryGetUse_Some _ _ _ Huse) as (Hu1 & Hu2 & Hu3 & Hu4).
  unfold TryLowerAndOpToResetLowestSetBit, gtGetOp1, gtGetOp2, Op.
  rewrite Hand. cbn. rewrite Haddops. cbn.
  unfold OperIs. rewrite Hx, Hexp, Hadd, Hm1, Hx', Hnum, Hf1, Hf2, Hf3. guards.
  set (intrinsic := if TypeIs s x TYP_LONG && _ then _ else _).
  assert (Hint : ∃ id, intrinsic = Some id
                       ∧ id ∈ [NI_AVX2_ResetLowestSetBit; NI_AVX2_X64_ResetLowestSetBit]).
  { unfold intrinsic, TypeIs. destruct Hisa as [[-> ->] | ->].
    - rewrite bool_decide_eq_true_2 by done. simpl. eexists. split; [done | set_solver].
    - case_match; eexists; (split; [done | set_solver]). }
  destruct Hint as (id & -> & Hid). rewrite Huse.
  unfold gtNewScalarHWIntrinsicNode.
  set (n := set_gtHWIntrinsicId _ id).
  destruct (gtAlloc n s) as [blsr s1] eqn:Ealloc.
  destruct (gtAlloc_spec _ _ _ _ Ealloc) as (Hfresh & H0 & Hnew & Hsome & Hother & Hold & Hrange & _).
  assert (Hne : blsr ≠ Use_User use) by (symmetry; by apply Hold).
  assert (Hin : ∀ q, q ∈ [andNode; addNode; x'; minusOne] → is_Some (gtNodes s !! q)).
  { intros q Hq. rewrite !elem_of_cons in Hq.
    destruct Hq as [-> | [-> | [-> | [-> | Hq]]]]; [..|set_solver].
    - apply operands_is_Some. by rewrite Hand.
    - apply gt_is_Some. by rewrite Hadd.
    - apply gt_is_Some. by rewrite Hx'.
    - by eapply IsIntegralConst_is_Some. }
  assert (Hblsr : blsr ∉ [andNode; addNode; x'; minusOne]).
  { intros Hq. apply Hin in Hq as [m Hm]. congruence. }
  eexists blsr, _. split; [reflexivity|].
  autorewrite with lower.
  rewrite gt_Use_ReplaceWith_ne, gt_InsertBefore, Hnew by done.
  rewrite Hrange.
  repeat split; try done.
  - apply Use_ReplaceWith_slot. rewrite gt_InsertBefore, Hother by done. by rewrite Hu3.
  - revert H. rewrite !elem_of_remove, elem_of_insert_before. set_solver.
  - revert H. rewrite !elem_of_remove, elem_of_insert_before. set_solver.
  - rewrite !elem_of_remove, elem_of_insert_before.
    intros [[-> | H] Hq]; set_solver.
  - rewrite !elem_of_remove, elem_of_insert_before. set_solver.
Qed.

Lemma TryLowerAndOpToResetLowestSetBit_rewrites_witness :
  ∃ blsrNode s',
    TryLowerAndOpToResetLowestSetBit x64 5 andAddMinusOne
      = (Some blsrNode, ContainCheckHWIntrinsic x64 blsrNode s')
    ∧ gtOperands (gt s' blsrNode) = [1]
    ∧ gtOperands (gt s' 6) !! 0 = Some blsrNode
    ∧ blsrNode ∈ m_blockRange s'.
Proof.
  destruct (TryLowerAndOpToResetLowestSetBit_rewrites x64 andAddMinusOne 5 1 4 2 3 (mkUse 6 0))
    as (b & s' & H1 & _ & _ & _ & H2 & _ & H3 & _ & H4);
    try reflexivity.
  - right. reflexivity.
  - exists b, s'. repeat split; done.
Defined.

(** ** Create of constants *)

Lemma RemoveArg_nodes comp s arg :
  gtNodes (LowerHWIntrinsicCreate_RemoveArg comp s arg) = gtNodes s.
Proof. unfold LowerHWIntrinsicCreate_RemoveArg. by case_match. Qed.

Lemma RemoveArg_range comp s arg q :
  q ∈ m_blockRange (LowerHWIntrinsicCreate_RemoveArg comp s arg) →
  q ∈ m_blockRange s ∧ q ≠ arg.
Proof.
  unfold LowerHWIntrinsicCreate_RemoveArg. case_match; autorewrite with lower;
    rewrite ?elem_of_remove; tauto.
Qed.

Lemma Op_elem s p i q : q ≠ 0 → q = Op s p i → q ∈ gtOperands (gt s p).
Proof.
  unfold Op. intros H0 ->. destruct (gtOperands (gt s p) !! pred i) eqn:E; simpl in *.
  - by eapply list_elem_of_lookup_2.
  - done.
Qed.

Lemma RemoveArg_keeps comp s arg q :
  q ≠ 0 → q ∈ m_blockRange s → q ≠ arg →
  (gtOper (gt s arg) = GT_LONG → q ∉ gtOperands (gt s arg)) →
  q ∈ m_blockRange (LowerHWIntrinsicCreate_RemoveArg comp s arg).
Proof.
  intros H0 Hin Hne Hlong. unfold LowerHWIntrinsicCreate_RemoveArg.
  destruct (negb (TARGET_64BIT comp) && OperIs s arg GT_LONG) eqn:E;
    autorewrite with lower; rewrite ?elem_of_remove; [|done].
  apply andb_true_iff in E as [_ E%OperIs_true]. specialize (Hlong E).
  repeat split; try done; intros Hq; apply Hlong; by eapply Op_elem.
Qed.

Lemma RemoveArgs_nodes comp args s :
  gtNodes (foldl (LowerHWIntrinsicCreate_RemoveArg comp) s args) = gtNodes s.
Proof.
  revert s. induction args as [|a args IH]; intros s; simpl; [done|].
  by rewrite IH, RemoveArg_nodes.
Qed.

Lemma RemoveArgs_range comp args s q :
  q ∈ m_blockRange (foldl (LowerHWIntrinsicCreate_RemoveArg comp) s args) →
  q ∈ m_blockRange s ∧ q ∉ args.
Proof.
  revert s. induction args as [|a args IH]; intros s; simpl; [set_solver|].
  intros H. apply IH in H as [H1 H2]. apply RemoveArg_range in H1. set_solver.
Qed.

Lemma gt_nodes_eq s s' q : gtNodes s' = gtNodes s → gt s' q = gt s q.
Proof. unfold gt. by intros ->. Qed.

Lemma RemoveArgs_keeps comp args s q :
  q ≠ 0 → q ∈ m_blockRange s → q ∉ args →
  (∀ arg, arg ∈ args → gtOper (gt s arg) = GT_LONG → q ∉ gtOperands (gt s arg)) →
  q ∈ m_blockRange (foldl (LowerHWIntrinsicCreate_RemoveArg comp) s args).
Proof.
  intros H0. revert s. induction args as [|a args IH]; intros s Hin Hne Hlong; simpl; [done|].
  apply IH.
  - apply RemoveArg_keeps; set_solver.
  - set_solver.
  - intros arg Harg. rewrite (gt_nodes_eq s) by apply RemoveArg_nodes.
    apply Hlong. set_solver.
Qed.



(** ** GetElement of an indirection: the constant index in the displacement *)

Lemma GetElement_addOffset_bounds index (simdSize elemSize : nat) :
  0 < elemSize ≤ simdSize →
  (0 ≤ GetElement_addOffset index (simdSize `div` elemSize) elemSize
     ≤ Z.of_nat simdSize - Z.of_nat elemSize)%Z.
Proof.
  intros [He Hs]. unfold GetElement_addOffset, uint8_t_cast.
  set (count := simdSize `div` elemSize).
  assert (Hc : 0 < count) by (apply Nat.div_str_pos; lia).
  assert (Hm : count * elemSize ≤ simdSize).
  { unfold count. rewrite Nat.mul_comm. apply Nat.Div0.mul_div_le. }
  pose proof (Z.mod_pos_bound (index mod 256) (Z.of_nat count) ltac:(lia)) as Hb.
  nia.
Qed.

Lemma int32_t_wrap_id v : (- 2 ^ 31 ≤ v < 2 ^ 31)%Z → int32_t_wrap v = v.
Proof. intros H. unfold int32_t_wrap. rewrite Z.mod_small; lia. Qed.

Lemma gt_ClearContained_proj {A} (proj : GenTree → A) p s q :
  (∀ n b, proj (set_LIR_RegOptional (set_GTF_CONTAINED n b) false) = proj n) →
  proj (gt (ClearContained p s) q) = proj (gt s q).
Proof. intros H. unfold ClearContained. by apply gt_gtUpd_proj. Qed.

Lemma ClearContained_is_Some p s q :
  is_Some (gtNodes (ClearContained p s) !! q) ↔ is_Some (gtNodes s !! q).
Proof. apply gtUpd_is_Some. Qed.



(** ** Multiplication by a constant *)

Lemma isPow2_true (v : Z) : isPow2 v = true ↔ IsPowerOfTwo v.
Proof.
  unfold isPow2, IsPowerOfTwo. rewrite andb_true_iff, Z.ltb_lt, Z.eqb_eq. split.
  - intros [Hpos Hland]. exists (Z.log2 v). split; [apply Z.log2_nonneg|].
    destruct (Z.log2_spec v Hpos) as [Hlo Hhi].
    destruct (decide (v = 2 ^ Z.log2 v)%Z) as [|Hne]; [done|]. exfalso.
    assert (Hbit1 : Z.testbit v (Z.log2 v) = true) by (apply Z.bit_log2; lia).
    assert (Hlog : Z.log2 (v - 1) = Z.log2 v).
    { apply Z.log2_unique; [apply Z.log2_nonneg | lia]. }
    assert (Hbit2 : Z.testbit (v - 1) (Z.log2 v) = true).
    { rewrite <- Hlog. apply Z.bit_log2. pose proof (Z.pow_pos_nonneg 2 (Z.log2 v)).
      pose proof (Z.log2_nonneg v). lia. }
    assert (Hbit : Z.testbit (Z.land (v - 1) v) (Z.log2 v) = true).
    { by rewrite Z.land_spec, Hbit1, Hbit2. }
    rewrite Hland, Z.bits_0 in Hbit. done.
  - intros (n & Hn & ->). split; [by apply Z.pow_pos_nonneg|].
    rewrite Z.land_comm, Z.sub_1_r, <- Z.ones_equiv, Z.land_ones by done.
    apply Z.mod_same. pose proof (Z.pow_pos_nonneg 2 n). lia.
Qed.

Lemma isPow2_false (v : Z) : isPow2 v = false ↔ ¬ IsPowerOfTwo v.
Proof. rewrite <- isPow2_true. by destruct (isPow2 v). Qed.

Lemma genLog2_pow2 n : (0 ≤ n)%Z → genLog2 (2 ^ n) = n.
Proof. apply Z.log2_pow2. Qed.

Lemma ssize_t_wrap_id v : (- 2 ^ 63 ≤ v < 2 ^ 63)%Z → ssize_t_wrap v = v.
Proof. intros H. unfold ssize_t_wrap. rewrite Z.mod_small; lia. Qed.

Lemma insert_before_app (pos : nat) (new pre post : list nat) :
  pos ∉ pre → insert_before pos new (pre ++ pos :: post) = pre ++ new ++ pos :: post.
Proof.
  induction pre as [|x pre IH]; intros H; simpl.
  - by rewrite decide_True.
  - rewrite decide_False by set_solver. f_equal. apply IH. set_solver.
Qed.

Lemma insert_before_app_ne (pos : nat) (new pre l : list nat) :
  pos ∉ pre → insert_before pos new (pre ++ l) = pre ++ insert_before pos new l.
Proof.
  induction pre as [|x pre IH]; intros H; simpl; [done|].
  rewrite decide_False by set_solver. f_equal. apply IH. set_solver.
Qed.

Lemma insert_before_cons_ne (pos a : nat) (new l : list nat) :
  a ≠ pos → insert_before pos new (a :: l) = a :: insert_before pos new l.
Proof. intros H. simpl. by rewrite decide_False. Qed.

Lemma insert_before_cons_eq (pos : nat) (new l : list nat) :
  insert_before pos new (pos :: l) = new ++ pos :: l.
Proof. simpl. by rewrite decide_True. Qed.

Lemma gtOperands_SetOp_eq p i o s :
  is_Some (gtNodes s !! p) →
  gtOperands (gt (SetOp p i o s) p) = <[pred i := o]> (gtOperands (gt s p)).
Proof. intros H. unfold SetOp. by rewrite gt_gtUpd_eq. Qed.

(** The rewrite of [MUL(x, 2ⁿ ± 1)], for both signs. *)
Lemma TryLowerMulWithConstant_addsub comp s node x cns (useSub : bool) n x' s1 :
  let c := gtIconVal (gt s cns) in
  opts_MinOpts comp = false →
  TARGET_X86 comp = false →
  varTypeIsIntegral (gtType (gt s node)) = true →
  gtOverflow s node = false →
  gtOperands (gt s node) = [x; cns] →
  gtOper (gt s cns) = GT_CNS_INT →
  isContained s x = false → isContained s cns = false →
  (- 2 ^ 63 < c < 2 ^ 63 - 1)%Z →
  c ∉ [3; 5; 9]%Z →
  ¬ IsPowerOfTwo c →
  (0 ≤ n)%Z →
  (if useSub then c + 1 else c - 1)%Z = (2 ^ n)%Z →
  (useSub = false → ¬ IsPowerOfTwo (c + 1)) →
  ReplaceWithLclVar comp (mkUse node 0) s = (x', s1) →
  is_Some (gtNodes s1 !! node) → is_Some (gtNodes s1 !! cns) → is_Some (gtNodes s1 !! x') →
  gtOper (gt s1 cns) = GT_CNS_INT →
  length (gtOperands (gt s1 node)) = 2 →
  node ≠ cns → node ≠ x' → cns ≠ x' →
  MulRewrittenTo comp (if useSub then GT_SUB else GT_ADD) n node cns x' s1
    (TryLowerMulWithConstant comp node s).
Proof.
  intros c Hopt Hx86 Hint Hovf Hops Hcns Hc1 Hc2 Hrange Hlea Hnp Hn Hpm Hplus Hrep
    Hnode Hcnode Hxnode Hcns1 Hlen Hnc Hnx Hcx.
  assert (Hg1 : gtGetOp1 s node = x) by (unfold gtGetOp1, Op; by rewrite Hops).
  assert (Hg2 : gtGetOp2 s node = cns) by (unfold gtGetOp2, Op; by rewrite Hops).
  unfold TryLowerMulWithConstant.
  rewrite Hopt, Hint, Hovf, Hg1, Hg2. cbn [negb].
  rewrite Hc1, Hc2. unfold IsCnsIntOrI, OperIs. rewrite Hcns. fold c.
  assert (Hc359 : c ≠ 3%Z ∧ c ≠ 5%Z ∧ c ≠ 9%Z).
  { rewrite !elem_of_cons in Hlea. tauto. }
  destruct Hc359 as (Hc3' & Hc5' & Hc9').
  rewrite (bool_decide_eq_true_2 (GT_CNS_INT = GT_CNS_INT)) by done.
  rewrite !(bool_decide_eq_false_2 (c = _)) by done.
  cbn [negb orb andb].
  rewrite (proj2 (isPow2_false c) Hnp), Hx86.
  rewrite !ssize_t_wrap_id by lia.
  assert (Hsel : (isPow2 (c + 1) = useSub) ∧ (useSub = false → isPow2 (c - 1) = true)).
  { destruct useSub.
    - split; [|done]. apply isPow2_true. by exists n.
    - split; [by apply isPow2_false, Hplus|]. intros _. apply isPow2_true. by exists n. }
  destruct Hsel as [-> Hminus].
  assert (Hguard : negb useSub && negb (isPow2 (c - 1)) = false).
  { destruct useSub; [done|]. by rewrite Hminus. }
  rewrite Hguard, Hrep.
  set (oper := if useSub then GT_SUB else GT_ADD).
  assert (Hsplit : (if useSub then ((c + 1)%Z, ChangeOper node GT_SUB s1)
                    else ((c - 1)%Z, ChangeOper node GT_ADD s1))
                   = ((2 ^ n)%Z, ChangeOper node oper s1)).
  { unfold oper. destruct useSub; by rewrite Hpm. }
  rewrite Hsplit, genLog2_pow2 by done.
  set (s2 := ChangeOper node oper s1).
  set (s3 := SetIconValue cns n s2).
  assert (H3 : ∀ q, is_Some (gtNodes s3 !! q) ↔ is_Some (gtNodes s1 !! q)).
  { intros q. unfold s3, s2, SetIconValue, ChangeOper. by rewrite !gtUpd_is_Some. }
  assert (Hn3 : gt s3 node = set_gtOper (gt s1 node) oper).
  { unfold s3, s2, SetIconValue, ChangeOper.
    rewrite gt_gtUpd_ne, gt_gtUpd_eq by done. done. }
  assert (Hc3 : gt s3 cns = set_gtIconVal (gt s1 cns) n).
  { unfold s3, s2, SetIconValue, ChangeOper.
    rewrite gt_gtUpd_eq by by apply gtUpd_is_Some. by rewrite gt_gtUpd_ne. }
  assert (Hx3 : gt s3 x' = gt s1 x').
  { unfold s3, s2, SetIconValue, ChangeOper. by rewrite !gt_gtUpd_ne. }
  rewrite Hn3. cbn [gtType set_gtOper].
  unfold gtNewOperNode.
  destruct (gtAlloc _ s3) as [lsh s4] eqn:E4.
  destruct (gtAlloc_spec _ _ _ _ E4) as (Hf4 & _ & Hnew4 & Hs4 & Ho4 & Hold4 & Hr4 & _).
  set (s5 := SetOp node 1 lsh s4).
  unfold gtClone.
  destruct (gtAlloc (gt s5 x') s5) as [clone s6] eqn:E6.
  destruct (gtAlloc_spec _ _ _ _ E6) as (Hf6 & _ & Hnew6 & Hs6 & Ho6 & Hold6 & Hr6 & _).
  set (s7 := SetOp node 2 clone s6).
  assert (Hnl : node ≠ lsh) by (apply Hold4; by apply H3).
  assert (Hcl : cns ≠ lsh) by (apply Hold4; by apply H3).
  assert (Hxl : x' ≠ lsh) by (apply Hold4; by apply H3).
  assert (H5 : ∀ q, is_Some (gtNodes s5 !! q) ↔ is_Some (gtNodes s4 !! q)).
  { intros q. unfold s5, SetOp. by rewrite gtUpd_is_Some. }
  assert (Hn4 : is_Some (gtNodes s4 !! node)) by (apply Hold4; by apply H3).
  assert (Hnc6 : node ≠ clone) by (apply Hold6; by apply H5).
  assert (Hcc6 : cns ≠ clone) by (apply Hold6, H5, Hold4; by apply H3).
  assert (Hxc6 : x' ≠ clone) by (apply Hold6, H5, Hold4; by apply H3).
  assert (Hlc6 : lsh ≠ clone) by (apply Hold6; by apply H5).
  assert (Hn7 : gtOperands (gt s7 node) = [lsh; clone]).
  { unfold s7. rewrite gtOperands_SetOp_eq by (apply Hold6; by apply H5).
    rewrite Ho6 by done. unfold s5. rewrite gtOperands_SetOp_eq by done.
    rewrite Ho4, Hn3 by done. cbn [gtOperands set_gtOper pred].
    destruct (gtOperands (gt s1 node)) as [|a [|b [|]]]; simplify_eq/=; done. }
  assert (Hn7' : ∀ {A} (proj : GenTree → A),
            (∀ m ops, proj (set_gtOperands m ops) = proj m) →
            proj (gt s7 node) = proj (set_gtOper (gt s1 node) oper)).
  { intros A proj Hp. unfold s7, SetOp. rewrite gt_gtUpd_proj by (intros; apply Hp).
    rewrite Ho6 by done. unfold s5, SetOp. rewrite gt_gtUpd_proj by (intros; apply Hp).
    by rewrite Ho4, Hn3. }
  assert (Hq7 : ∀ q, q ≠ node → q ≠ clone → gt s7 q = gt s4 q).
  { intros q Hq1 Hq2. unfold s7, SetOp. rewrite gt_gtUpd_ne, Ho6 by done.
    unfold s5, SetOp. by rewrite gt_gtUpd_ne. }
  assert (Hr7 : m_blockRange s7 = m_blockRange s1).
  { unfold s7, SetOp. rewrite range_gtUpd, Hr6. unfold s5, SetOp.
    rewrite range_gtUpd, Hr4. done. }
  set (s8 := BlockRange_Remove x' s7).
  set (s9 := BlockRange_Remove cns s8).
  assert (Hop2 : gtGetOp2 s9 node = clone).
  { unfold gtGetOp2, Op, s9, s8. autorewrite with lower. by rewrite Hn7. }
  rewrite Hop2.
  set (s10 := BlockRange_InsertBefore node [clone] s9).
  set (s11 := BlockRange_InsertBefore node [cns] s10).
  set (s12 := BlockRange_InsertBefore node [x'] s11).
  assert (Hop1 : gtGetOp1 s12 node = lsh).
  { unfold gtGetOp1, Op, s12, s11, s10, s9, s8. autorewrite with lower. by rewrite Hn7. }
  rewrite Hop1.
  set (s13 := BlockRange_InsertBefore node [lsh] s12).
  assert (Hg13 : ∀ q, gt s13 q = gt s7 q) by done.
  exists lsh, clone, s13. split; [done|].
  assert (Hfl : gtNodes s1 !! lsh = None).
  { destruct (gtNodes s1 !! lsh) eqn:E; [|done].
    assert (is_Some (gtNodes s3 !! lsh)) as [m Hm] by (apply H3; eauto). congruence. }
  assert (Hfc : gtNodes s1 !! clone = None).
  { destruct (gtNodes s1 !! clone) eqn:E; [|done].
    assert (is_Some (gtNodes s5 !! clone)) as [m Hm].
    { apply H5, Hold4, H3. eauto. }
    congruence. }
  rewrite !Hg13.
  repeat split; try done.
  - by rewrite (Hn7' _ gtOper).
  - by rewrite (Hn7' _ gtType).
  - rewrite Hq7 by done. by rewrite Hnew4.
  - rewrite Hq7, Ho4, Hc3 by done. done.
  - rewrite Hq7, Ho4, Hc3 by done. done.
  - unfold s7, SetOp. rewrite gt_gtUpd_ne, Hnew6 by done.
    unfold s5, SetOp. rewrite gt_gtUpd_ne, Ho4 by done. done.
  - intros Hin.
    assert (Hin' : node ∈ filter (λ q, q ≠ cns) (filter (λ q, q ≠ x') (m_blockRange s1))).
    { rewrite !elem_of_remove. done. }
    apply list_elem_of_split_l in Hin' as (pre & post & Hsplit' & Hpre).
    exists pre, post. split; [done|].
    unfold s13, s12, s11, s10, s9, s8. autorewrite with lower. rewrite Hr7, Hsplit'.
    rewrite !insert_before_app_ne by done.
    rewrite insert_before_cons_eq. cbn [app].
    rewrite (insert_before_cons_ne node clone) by done.
    rewrite insert_before_cons_eq. cbn [app].
    rewrite (insert_before_cons_ne node clone), (insert_before_cons_ne node cns) by done.
    rewrite insert_before_cons_eq. cbn [app].
    rewrite (insert_before_cons_ne node clone), (insert_before_cons_ne node cns),
      (insert_before_cons_ne node x') by done.
    by rewrite insert_before_cons_eq.
Qed.

Lemma pow2_neighbours (c n m : Z) :
  (0 ≤ n)%Z → (0 ≤ m)%Z → (c - 1 = 2 ^ n)%Z → (c + 1 = 2 ^ m)%Z → c = 3%Z ∨ c = 2%Z.
Proof.
  intros Hn Hm H1 H2.
  assert (Hlt : (n < m)%Z) by (apply (Z.pow_lt_mono_r_iff 2); lia).
  assert (Hle : (2 ^ (n + 1) ≤ 2 ^ m)%Z) by (apply Z.pow_le_mono_r; lia).
  rewrite Z.pow_add_r, Z.pow_1_r in Hle by lia.
  assert (Hn1 : (n ≤ 1)%Z) by (apply (Z.pow_le_mono_r_iff 2); lia).
  assert (n = 0 ∨ n = 1)%Z as [-> | ->] by lia.
  - right. change (2 ^ 0)%Z with 1%Z in H1. lia.
  - left. change (2 ^ 1)%Z with 2%Z in H1. lia.
Qed.

(** C1 (corrected): for an integer [MUL(x, c)] with a constant second
    operand, lowered with optimizations on and no overflow check,
    [TryLowerMulWithConstant] makes no replacement when an operand is already
    contained or when [c] is 3, 5 or 9; otherwise, for [c = 2ⁿ], the node
    becomes [LSH(x, n)] in place (the constant node now holds [n]) and the
    shift's containment check runs; otherwise nothing is replaced on the
    32-bit x86 target; otherwise, on x64, [c = 2ⁿ − 1] gives
    [SUB(LSH(x', n), clone(x'))] and [c = 2ⁿ + 1] gives
    [ADD(LSH(x', n), clone(x'))], [x'] being the node [ReplaceWithLclVar]
    returned for [x]; and in every other case nothing is replaced.  The
    constant ranges over the [ssize_t] values other than its two extremes. *)
Theorem TryLowerMulWithConstant_cases comp s node x cns :
  let c := gtIconVal (gt s cns) in
  let r := TryLowerMulWithConstant comp node s in
  opts_MinOpts comp = false →
  varTypeIsIntegral (gtType (gt s node)) = true →
  gtOverflow s node = false →
  gtOperands (gt s node) = [x; cns] →
  gtOper (gt s cns) = GT_CNS_INT →
  (- 2 ^ 63 < c < 2 ^ 63 - 1)%Z →
  node ≠ cns →
  (isContained s x = true ∨ isContained s cns = true → r = Some (None, s))
  ∧ (isContained s x = false → isContained s cns = false →
     (c ∈ [3; 5; 9]%Z → r = Some (None, s))
     ∧ (c ∉ [3; 5; 9]%Z → ∀ n, (0 ≤ n)%Z → c = (2 ^ n)%Z →
        ∃ s', r = Some (Some node, ContainCheckShiftRotate comp node s')
              ∧ gtOper (gt s' node) = GT_LSH
              ∧ gtOperands (gt s' node) = [x; cns]
              ∧ gtOper (gt s' cns) = GT_CNS_INT
              ∧ gtIconVal (gt s' cns) = n
              ∧ m_blockRange s' = m_blockRange s
              ∧ (∀ q, q ≠ node → q ≠ cns → gt s' q = gt s q))
     ∧ (c ∉ [3; 5; 9]%Z → ¬ IsPowerOfTwo c → TARGET_X86 comp = true → r = Some (None, s))
     ∧ (c ∉ [3; 5; 9]%Z → ¬ IsPowerOfTwo c → TARGET_X86 comp = false →
        ∀ n x' s1,
          (0 ≤ n)%Z →
          ReplaceWithLclVar comp (mkUse node 0) s = (x', s1) →
          is_Some (gtNodes s1 !! node) → is_Some (gtNodes s1 !! cns) →
          is_Some (gtNodes s1 !! x') →
          gtOper (gt s1 cns) = GT_CNS_INT →
          length (gtOperands (gt s1 node)) = 2 →
          node ≠ x' → cns ≠ x' →
          ((c + 1)%Z = (2 ^ n)%Z → MulRewrittenTo comp GT_SUB n node cns x' s1 r)
          ∧ ((c - 1)%Z = (2 ^ n)%Z → MulRewrittenTo comp GT_ADD n node cns x' s1 r))
     ∧ (c ∉ [3; 5; 9]%Z → ¬ IsPowerOfTwo c → ¬ IsPowerOfTwo (c + 1) →
        ¬ IsPowerOfTwo (c - 1) → r = Some (None, s))).
Proof.
  intros c r Hopt Hint Hovf Hops Hcns Hrange Hnc.
  assert (Hg1 : gtGetOp1 s node = x) by (unfold gtGetOp1, Op; by rewrite Hops).
  assert (Hg2 : gtGetOp2 s node = cns) by (unfold gtGetOp2, Op; by rewrite Hops).
  assert (Hnode : is_Some (gtNodes s !! node)) by (apply operands_is_Some; by rewrite Hops).
  assert (Hcnode : is_Some (gtNodes s !! cns)) by (apply gt_is_Some; congruence).
  split.
  { intros Hc. unfold r, TryLowerMulWithConstant.
    rewrite Hopt, Hint, Hovf, Hg1, Hg2. cbn [negb].
    destruct Hc as [-> | ->]; by rewrite ?orb_true_r. }
  intros Hc1 Hc2.
  assert (Hstart : r =
    if bool_decide (c = 3%Z) || bool_decide (c = 5%Z) || bool_decide (c = 9%Z)
    then Some (None, s)
    else if isPow2 c
    then Some (Some node, ContainCheckShiftRotate comp node
                 (ChangeOper node GT_LSH (SetIconValue cns (genLog2 c) s)))
    else if TARGET_X86 comp then Some (None, s)
    else if negb (isPow2 (c + 1)) && negb (isPow2 (c - 1)) then Some (None, s)
    else r).
  { unfold r at 1, TryLowerMulWithConstant.
    rewrite Hopt, Hint, Hovf, Hg1, Hg2. cbn [negb].
    rewrite Hc1, Hc2. unfold IsCnsIntOrI, OperIs. rewrite Hcns. fold c.
    rewrite (bool_decide_eq_true_2 (GT_CNS_INT = GT_CNS_INT)) by done. cbn [negb orb].
    rewrite !ssize_t_wrap_id by lia.
    repeat case_match; try done.
    all: unfold r, TryLowerMulWithConstant;
      rewrite Hopt, Hint, Hovf, Hg1, Hg2; cbn [negb];
      rewrite Hc1, Hc2; unfold IsCnsIntOrI, OperIs; rewrite Hcns; fold c;
      rewrite (bool_decide_eq_true_2 (GT_CNS_INT = GT_CNS_INT)) by done; cbn [negb orb];
      rewrite !ssize_t_wrap_id by lia;
      by repeat match goal with H : _ = _ |- _ => rewrite H end. }
  assert (H359 : ∀ b, c ∉ [3; 5; 9]%Z →
            (bool_decide (c = 3%Z) || bool_decide (c = 5%Z) || bool_decide (c = 9%Z)) = b →
            b = false).
  { intros b Hn <-. rewrite !elem_of_cons in Hn.
    rewrite !bool_decide_eq_false_2 by tauto. done. }
  repeat split.
  - intros Hin. rewrite Hstart. rewrite !elem_of_cons in Hin.
    destruct Hin as [-> | [-> | [-> | Hin]]]; try done. by apply elem_of_nil in Hin.
  - intros Hn n Hn0 Hpow. rewrite Hstart.
    rewrite (H359 _ Hn eq_refl).
    rewrite (proj2 (isPow2_true c)) by by exists n.
    rewrite Hpow, genLog2_pow2 by done.
    eexists. split; [reflexivity|].
    assert (Hn' : gt (ChangeOper node GT_LSH (SetIconValue cns n s)) node
                  = set_gtOper (gt s node) GT_LSH).
    { unfold ChangeOper, SetIconValue.
      rewrite gt_gtUpd_eq by by apply gtUpd_is_Some. by rewrite gt_gtUpd_ne. }
    assert (Hc' : gt (ChangeOper node GT_LSH (SetIconValue cns n s)) cns
                  = set_gtIconVal (gt s cns) n).
    { unfold ChangeOper, SetIconValue. rewrite gt_gtUpd_ne by done. by rewrite gt_gtUpd_eq. }
    rewrite Hn', Hc'. repeat split; try done.
    intros q Hq1 Hq2. unfold ChangeOper, SetIconValue. by rewrite !gt_gtUpd_ne.
  - intros Hn Hnp Hx86. rewrite Hstart, (H359 _ Hn eq_refl).
    by rewrite (proj2 (isPow2_false c) Hnp), Hx86.
  - intros Hpm.
    eapply (TryLowerMulWithConstant_addsub comp s node x cns true); try eassumption; done.
  - intros Hpm.
    eapply (TryLowerMulWithConstant_addsub comp s node x cns false); try eassumption; try done.
    intros _ (m & Hm & Hplus).
    destruct (pow2_neighbours c n m) as [-> | ->]; try done.
    + apply H. set_solver.
    + apply H0. by exists 1%Z.
  - intros Hn Hnp Hnplus Hnminus. rewrite Hstart, (H359 _ Hn eq_refl).
    rewrite (proj2 (isPow2_false c) Hnp).
    rewrite (proj2 (isPow2_false _) Hnplus), (proj2 (isPow2_false _) Hnminus).
    by destruct (TARGET_X86 comp).
Qed.

Lemma TryLowerMulWithConstant_cases_witness :
  MulRewrittenTo x64 GT_SUB 3 3 2 6 (ReplaceWithLclVar x64 (mkUse 3 0) (mulByConstant 7)).2
    (TryLowerMulWithConstant x64 3 (mulByConstant 7)).
Proof.
  destruct (TryLowerMulWithConstant_cases x64 (mulByConstant 7) 3 1 2) as [_ H];
    [reflexivity | reflexivity | reflexivity | reflexivity | reflexivity
    | vm_compute; split; reflexivity | lia |].
  destruct H as (_ & _ & _ & H & _); [reflexivity | reflexivity |].
  refine (proj1 (H _ _ _ 3%Z 6
            (ReplaceWithLclVar x64 (mkUse 3 0) (mulByConstant 7)).2 _ _ _ _ _ _ _ _ _) _).
  - by_compute.
  - apply isPow2_false. reflexivity.
  - reflexivity.
  - lia.
  - rewrite (surjective_pairing (ReplaceWithLclVar _ _ _)). f_equal.
  - vm_compute. eauto.
  - vm_compute. eauto.
  - vm_compute. eauto.
  - vm_compute. reflexivity.
  - vm_compute. reflexivity.
  - lia.
  - lia.
  - reflexivity.
Defined.

(** C1, counterexample: on the 32-bit x86 target [MUL(x, 7)], with
    [7 = 2³ − 1], is not rewritten to [SUB(SHL(x, 3), x)]: the routine returns
    no replacement. *)
Lemma TryLowerMulWithConstant_x86_mul_by_7 : ¬ C1_as_stated x86 (mulByConstant 7) 3.
Proof.
  intros H. destruct H as (_ & _ & _ & H & _); [reflexivity..|].
  destruct H as (s' & E & _).
  - by_compute.
  - apply isPow2_false. reflexivity.
  - by exists 3%Z.
  - vm_compute in E. discriminate.
Qed.

(** ** Redirecting the use of a replaced node *)

Lemma Use_RedirectOrMarkUnused_spec s old new :
  is_Some (gtNodes s !! new) →
  RedirectedOrUnused s old new (Use_RedirectOrMarkUnused old new s).
Proof.
  intros Hnew. unfold RedirectedOrUnused, Use_RedirectOrMarkUnused. split.
  - intros use Huse. rewrite Huse.
    destruct (BlockRange_TryGetUse_Some _ _ _ Huse) as (_ & _ & Hu & _).
    apply Use_ReplaceWith_slot. by rewrite Hu.
  - intros ->. unfold SetUnusedValue. by rewrite gt_gtUpd_eq.
Qed.

Lemma RedirectedOrUnused_consumed s old new s' :
  RedirectedOrUnused s old new s' → ConsumedOrUnused s' new.
Proof.
  intros [H1 H2]. unfold ConsumedOrUnused.
  destruct (BlockRange_TryGetUse s old) as [use|] eqn:E; [left | right]; eauto.
Qed.

Lemma range_RedirectOrMarkUnused old new s :
  m_blockRange (Use_RedirectOrMarkUnused old new s) = m_blockRange s.
Proof. unfold Use_RedirectOrMarkUnused. by case_match. Qed.

Lemma RedirectOrMarkUnused_is_Some old new s q :
  is_Some (gtNodes (Use_RedirectOrMarkUnused old new s) !! q) ↔ is_Some (gtNodes s !! q).
Proof.
  unfold Use_RedirectOrMarkUnused, Use_ReplaceWith, SetUnusedValue.
  case_match; apply gtUpd_is_Some.
Qed.

(** The step changes no field of the new node but its unused flag, unless the
    new node is itself the user of the old one. *)
Lemma gt_RedirectOrMarkUnused_new {A} (proj : GenTree → A) old new s :
  (∀ n b, proj (set_LIR_UnusedValue n b) = proj n) →
  old ∉ gtOperands (gt s new) →
  proj (gt (Use_RedirectOrMarkUnused old new s) new) = proj (gt s new).
Proof.
  intros Hp Hops. unfold Use_RedirectOrMarkUnused.
  destruct (BlockRange_TryGetUse s old) as [use|] eqn:E.
  - destruct (BlockRange_TryGetUse_Some _ _ _ E) as (_ & _ & Hu & _).
    rewrite gt_Use_ReplaceWith_ne; [done|]. intros ->.
    apply Hops. by eapply list_elem_of_lookup_2.
  - unfold SetUnusedValue. by apply gt_gtUpd_proj.
Qed.

(** It changes no other node than the user and the new node. *)
Lemma gt_RedirectOrMarkUnused_other old new s q :
  q ≠ new → old ∉ gtOperands (gt s q) →
  gt (Use_RedirectOrMarkUnused old new s) q = gt s q.
Proof.
  intros Hq Hops. unfold Use_RedirectOrMarkUnused.
  destruct (BlockRange_TryGetUse s old) as [use|] eqn:E.
  - destruct (BlockRange_TryGetUse_Some _ _ _ E) as (_ & _ & Hu & _).
    rewrite gt_Use_ReplaceWith_ne; [done|]. intros ->.
    apply Hops. by eapply list_elem_of_lookup_2.
  - unfold SetUnusedValue. by apply gt_gtUpd_ne.
Qed.

Lemma gt_RedirectOrMarkUnused_proj {A} (proj : GenTree → A) old new s q :
  (∀ n b, proj (set_LIR_UnusedValue n b) = proj n) →
  (∀ n ops, proj (set_gtOperands n ops) = proj n) →
  proj (gt (Use_RedirectOrMarkUnused old new s) q) = proj (gt s q).
Proof.
  intros H1 H2. unfold Use_RedirectOrMarkUnused, Use_ReplaceWith, SetUnusedValue.
  case_match; by apply gt_gtUpd_proj.
Qed.

Lemma ReplacedAt_nodes sQuery old new s' :
  is_Some (gtNodes sQuery !! new) →
  gtNodes s' = gtNodes (Use_RedirectOrMarkUnused old new sQuery) →
  old ∉ m_blockRange s' →
  ReplacedAt sQuery old new s'.
Proof.
  intros Hnew Hnodes Hrange.
  pose proof (Use_RedirectOrMarkUnused_spec sQuery old new Hnew) as Hspec.
  assert (Hred : RedirectedOrUnused sQuery old new s').
  { destruct Hspec as [H1 H2]. split.
    - intros use Huse. rewrite (gt_nodes_eq _ s') by done. by apply H1.
    - intros Hnone. rewrite (gt_nodes_eq _ s') by done. by apply H2. }
  split; [done|]. split; [|done]. by eapply RedirectedOrUnused_consumed.
Qed.

Lemma ReplacedAt_intro sQuery old new :
  is_Some (gtNodes sQuery !! new) →
  ReplacedAt sQuery old new (BlockRange_Remove old (Use_RedirectOrMarkUnused old new sQuery)).
Proof.
  intros Hnew. apply ReplacedAt_nodes; [done|by rewrite nodes_Remove|].
  rewrite range_Remove, elem_of_remove. tauto.
Qed.

(** ** ConditionalSelect *)

Section CndSel.
Context (comp : Compiler) (s : Lowering) (node cond a b : GenTreePtr).
Hypothesis Hops : gtOperands (gt s node) = [cond; a; b].

Let simdType := gtType (gt s node).
Let simdBaseType := gtSimdBaseJitType (gt s node).
Let simdSize := gtSimdSize (gt s node).
Let r := LowerHWIntrinsicCndSel comp node s.

Lemma CndSel_node_is_Some : is_Some (gtNodes s !! node).
Proof. apply operands_is_Some. by rewrite Hops. Qed.

Lemma CndSel_ops : Op s node 1 = cond ∧ Op s node 2 = a ∧ Op s node 3 = b.
Proof. unfold Op. by rewrite Hops. Qed.

(** The condition is a mask register value, or the vector is 64 bytes wide:
    [BlendVariableMask(b, a, mask)]. *)
Lemma CndSel_BlendVariableMask :
  IsVectorPerElementMask comp s cond simdBaseType simdSize = true →
  simdSize = 64 ∨ OperIsConvertMaskToVector s cond = true →
  ∃ maskNode s',
    r = LowerNode comp node s'
    ∧ gtHWIntrinsicId (gt s' node) = NI_AVX512_BlendVariableMask
    ∧ gtOperands (gt s' node) = [b; a; maskNode]
    ∧ gtType (gt s' node) = simdType
    ∧ (OperIsConvertMaskToVector s cond = true →
       maskNode = Op s cond 1
       ∧ gtSimdBaseJitType (gt s' node) = gtSimdBaseJitType (gt s cond)
       ∧ m_blockRange s' = filter (λ q, q ≠ cond) (m_blockRange s))
    ∧ (OperIsConvertMaskToVector s cond = false →
       gtNodes s !! maskNode = None
       ∧ gt s' maskNode = hwNode TYP_MASK NI_AVX512_ConvertVectorToMask [cond]
                            simdBaseType simdSize
       ∧ m_blockRange s' = insert_before node [maskNode] (m_blockRange s)).
Proof.
  intros Hmask Hsel. destruct CndSel_ops as (H1 & H2 & H3).
  pose proof CndSel_node_is_Some as Hnode.
  unfold r, LowerHWIntrinsicCndSel. rewrite H1, H2, H3.
  fold simdType simdBaseType simdSize. rewrite Hmask.
  assert (Hg : bool_decide (simdSize = 64) || OperIsConvertMaskToVector s cond = true).
  { destruct Hsel as [-> | ->]; [done | by rewrite orb_true_r]. }
  rewrite Hg. destruct (OperIsConvertMaskToVector s cond) eqn:Ecvt.
  - eexists (Op s cond 1), _. split; [reflexivity|].
    unfold ResetHWIntrinsicId.
    rewrite gt_gtUpd_eq by (apply gtUpd_is_Some; by rewrite nodes_Remove).
    rewrite gt_gtUpd_eq by by rewrite nodes_Remove.
    autorewrite with lower. repeat split; done.
  - unfold gtNewSimdCvtVectorToMaskNode, gtNewSimdHWIntrinsicNode.
    destruct (gtAlloc _ s) as [maskNode s1] eqn:E1.
    destruct (gtAlloc_spec _ _ _ _ E1) as (Hf & _ & Hnew & Hs1 & Ho & Hold & Hr & _).
    assert (Hne : node ≠ maskNode) by by apply Hold.
    eexists maskNode, _. split; [reflexivity|].
    unfold ResetHWIntrinsicId.
    rewrite gt_gtUpd_eq by (rewrite nodes_InsertBefore; by apply Hold).
    rewrite gt_gtUpd_ne by done.
    autorewrite with lower. rewrite Ho, Hnew, Hr by done.
    repeat split; done.
Qed.

(** A value arm is the zero vector: [AND(cond, a)] or [AND_NOT(b, cond)]. *)
Lemma CndSel_ZeroArm :
  IsVectorPerElementMask comp s cond simdBaseType simdSize = true →
  simdSize ≠ 64 → OperIsConvertMaskToVector s cond = false →
  IsVectorZero s a = true ∨ IsVectorZero s b = true →
  node ∉ [cond; a; b] →
  ∃ binOp s',
    r = LowerNode comp binOp s'
    ∧ gtNodes s !! binOp = None
    ∧ gtType (gt s' binOp) = simdType
    ∧ (IsVectorZero s b = true →
       gtOper (gt s' binOp) = GT_AND ∧ gtOperands (gt s' binOp) = [cond; a]
       ∧ (b ∉ m_blockRange s'))
    ∧ (IsVectorZero s b = false →
       gtOper (gt s' binOp) = GT_AND_NOT ∧ gtOperands (gt s' binOp) = [b; cond]
       ∧ (a ∉ m_blockRange s'))
    ∧ (node ∉ m_blockRange s')
    ∧ (∃ sQuery,
         m_blockRange sQuery
         = insert_after node [binOp]
             (filter (λ q, q ≠ (if IsVectorZero s b then b else a)) (m_blockRange s))
         ∧ ReplacedAt sQuery node binOp s').
Proof.
  intros Hmask Hsize Hcvt Hzero Hself. destruct CndSel_ops as (H1 & H2 & H3).
  pose proof CndSel_node_is_Some as Hnode.
  unfold r, LowerHWIntrinsicCndSel. rewrite H1, H2, H3.
  fold simdType simdBaseType simdSize. rewrite Hmask, Hcvt.
  rewrite bool_decide_eq_false_2 by done. cbn [orb].
  assert (Hz : IsVectorZero s a || IsVectorZero s b = true).
  { destruct Hzero as [-> | ->]; [done | by rewrite orb_true_r]. }
  rewrite Hz. unfold gtNewSimdBinOpNode.
  set (oper := if IsVectorZero s b then GT_AND else GT_AND_NOT).
  set (ops := if IsVectorZero s b then [cond; a] else [b; cond]).
  set (arm := if IsVectorZero s b then b else a).
  set (n := set_gtSimdSize (set_gtSimdBaseJitType (gtNewNode oper simdType ops) simdBaseType)
              simdSize).
  assert (Hbranch :
    (if IsVectorZero s b
     then let '(binOp, s') := gtAlloc (set_gtSimdSize (set_gtSimdBaseJitType
                (gtNewNode GT_AND simdType [cond; a]) simdBaseType) simdSize) s in
          (binOp, BlockRange_Remove b s')
     else let '(binOp, s') := gtAlloc (set_gtSimdSize (set_gtSimdBaseJitType
                (gtNewNode GT_AND_NOT simdType [b; cond]) simdBaseType) simdSize) s in
          (binOp, BlockRange_Remove a s'))
    = ((gtAlloc n s).1, BlockRange_Remove arm (gtAlloc n s).2)).
  { unfold n, oper, ops, arm. destruct (IsVectorZero s b); by destruct (gtAlloc _ s). }
  rewrite Hbranch. clear Hbranch.
  destruct (gtAlloc n s) as [binOp s1] eqn:E1. cbn [fst snd].
  destruct (gtAlloc_spec _ _ _ _ E1) as (Hf & _ & Hnew & Hs1 & Ho & Hold & Hr & _).
  set (s2 := BlockRange_InsertAfter node [binOp] (BlockRange_Remove arm s1)).
  fold (Use_RedirectOrMarkUnused node binOp s2).
  assert (Hin : node ∉ gtOperands (gt s2 binOp)).
  { unfold s2. autorewrite with lower. rewrite Hnew. unfold n, ops. cbn.
    destruct (IsVectorZero s b); set_solver. }
  eexists binOp, _. split; [reflexivity|]. split; [done|].
  autorewrite with lower. rewrite range_RedirectOrMarkUnused.
  rewrite !(gt_RedirectOrMarkUnused_new _ node binOp s2) by done.
  unfold s2. autorewrite with lower. rewrite Hnew, Hr.
  assert (Hnb : node ≠ binOp) by by apply Hold.
  assert (Harm : arm ∉ filter (λ x, x ≠ node)
                   (insert_after node [binOp] (filter (λ x, x ≠ arm) (m_blockRange s)))).
  { rewrite elem_of_remove, elem_of_insert_after, elem_of_remove.
    assert (arm ≠ binOp); [|set_solver].
    apply Hold. unfold arm. destruct Hzero as [Hz'|Hz']; destruct (IsVectorZero s b) eqn:Eb;
      try (apply (OperIs_is_Some _ _ GT_CNS_VEC); [done|]);
      unfold IsVectorZero, IsCnsVec in *; try by destruct (OperIs s b GT_CNS_VEC).
    all: by destruct (OperIs s a GT_CNS_VEC). }
  split; [by unfold n|]. split; [|split; [|split]].
  - intros Hb. unfold n, oper, ops, arm in *. by rewrite Hb in *.
  - intros Hb. unfold n, oper, ops, arm in *. by rewrite Hb in *.
  - rewrite elem_of_remove. tauto.
  - exists s2. split; [unfold s2; autorewrite with lower; by rewrite Hr|].
    apply ReplacedAt_intro. unfold s2. by autorewrite with lower.
Qed.
(** Otherwise a variable blend that the hardware has:
    [BlendVariable(b, a, cond)]. *)
Lemma CndSel_BlendVariable :
  IsVectorPerElementMask comp s cond simdBaseType simdSize = true →
  simdSize ≠ 64 → OperIsConvertMaskToVector s cond = false →
  IsVectorZero s a = false → IsVectorZero s b = false →
  CndSel_blendVariableId comp simdBaseType simdSize ≠ NI_Illegal →
  ∃ s',
    r = LowerNode comp node s'
    ∧ gtHWIntrinsicId (gt s' node) = CndSel_blendVariableId comp simdBaseType simdSize
    ∧ gtOperands (gt s' node) = [b; a; cond]
    ∧ gtType (gt s' node) = simdType
    ∧ gtSimdBaseJitType (gt s' node) = simdBaseType
    ∧ m_blockRange s' = m_blockRange s
    ∧ (∀ q, q ≠ node → gt s' q = gt s q).
Proof.
  intros Hmask Hsize Hcvt Hza Hzb Hid. destruct CndSel_ops as (H1 & H2 & H3).
  pose proof CndSel_node_is_Some as Hnode.
  unfold r, LowerHWIntrinsicCndSel. rewrite H1, H2, H3.
  fold simdType simdBaseType simdSize. rewrite Hmask, Hcvt, Hza, Hzb.
  rewrite bool_decide_eq_false_2 by done. cbn [orb].
  fold (CndSel_blendVariableId comp simdBaseType simdSize).
  rewrite bool_decide_eq_true_2 by done.
  eexists. split; [reflexivity|]. unfold ResetHWIntrinsicId.
  rewrite gt_gtUpd_eq by done. repeat split; try done.
  intros q Hq. by rewrite gt_gtUpd_ne.
Qed.

(** In every remaining case the routine continues after the blend block. *)
Lemma CndSel_NoBlend :
  IsVectorPerElementMask comp s cond simdBaseType simdSize = false
  ∨ (simdSize ≠ 64 ∧ OperIsConvertMaskToVector s cond = false
     ∧ IsVectorZero s a = false ∧ IsVectorZero s b = false
     ∧ CndSel_blendVariableId comp simdBaseType simdSize = NI_Illegal) →
  r = LowerHWIntrinsicCndSel_NoBlend comp node cond a b s.
Proof.
  intros Hcase. destruct CndSel_ops as (H1 & H2 & H3).
  unfold r, LowerHWIntrinsicCndSel. rewrite H1, H2, H3.
  fold simdType simdBaseType simdSize.
  destruct Hcase as [-> | (Hsize & Hcvt & Hza & Hzb & Hid)]; [done|].
  rewrite Hcvt, Hza, Hzb. rewrite bool_decide_eq_false_2 by done. cbn [orb].
  fold (CndSel_blendVariableId comp simdBaseType simdSize). rewrite Hid.
  rewrite bool_decide_eq_false_2 by (intros H; by apply H). by case_match.
Qed.

(** After the blend block, with AVX-512: [TernaryLogic(cond, a, b, 0xCA)]. *)
Lemma CndSel_NoBlend_TernaryLogic :
  compOpportunisticallyDependsOn comp InstructionSet_AVX512 = true →
  ∃ control s',
    LowerHWIntrinsicCndSel_NoBlend comp node cond a b s = LowerNode comp node s'
    ∧ gtNodes s !! control = None
    ∧ gtHWIntrinsicId (gt s' node) = NI_AVX512_TernaryLogic
    ∧ gtOperands (gt s' node) = [cond; a; b; control]
    ∧ gt s' control = intCon TYP_INT 202
    ∧ m_blockRange s' = insert_before node [control] (m_blockRange s).
Proof.
  intros Havx. pose proof CndSel_node_is_Some as Hnode.
  unfold LowerHWIntrinsicCndSel_NoBlend. rewrite Havx. unfold gtNewIconNode.
  destruct (gtAlloc _ s) as [control s1] eqn:E1.
  destruct (gtAlloc_spec _ _ _ _ E1) as (Hf & _ & Hnew & Hs1 & Ho & Hold & Hr & _).
  assert (Hne : node ≠ control) by by apply Hold.
  eexists control, _. split; [reflexivity|]. unfold ResetHWIntrinsicId.
  rewrite gt_gtUpd_eq by (rewrite nodes_InsertBefore; by apply Hold).
  rewrite gt_gtUpd_ne by done. autorewrite with lower. rewrite Hnew, Hr.
  repeat split; done.
Qed.

(** After the blend block, without AVX-512: the condition goes through
    [ReplaceWithLclVar] (giving [cond'], cloned as [tmp1]); [AND(cond', a)]
    is created and lowered in the state [sAnd]; [AND_NOT(b, tmp1)] is created
    and lowered in the state [sAndNot]; their [OR] takes the place of the
    node, which leaves the range. *)
Lemma CndSel_NoBlend_Expansion :
  compOpportunisticallyDependsOn comp InstructionSet_AVX512 = false →
  let s1 := (ReplaceWithLclVar comp (mkUse node 0) s).2 in
  let cond' := Op s1 node 1 in
  ∃ tmp1 tmp2 tmp3 tmp4 sAnd sAndNot s',
    LowerHWIntrinsicCndSel_NoBlend comp node cond a b s = LowerNode comp tmp4 s'
    ∧ gt sAnd tmp1 = gt s1 cond'
    ∧ gtOper (gt sAnd tmp2) = GT_AND ∧ gtOperands (gt sAnd tmp2) = [cond'; a]
    ∧ gtType (gt sAnd tmp2) = simdType
    ∧ gtOper (gt sAndNot tmp3) = GT_AND_NOT ∧ gtOperands (gt sAndNot tmp3) = [b; tmp1]
    ∧ gtType (gt sAndNot tmp3) = simdType
    ∧ gtNodes (LowerNode comp tmp2 sAnd).2 !! tmp3 = None
    ∧ gtNodes (LowerNode comp tmp3 sAndNot).2 !! tmp4 = None
    ∧ gtOper (gt s' tmp4) = GT_OR
    ∧ gtType (gt s' tmp4) = simdType
    ∧ (node ∉ [tmp2; tmp3] → gtOperands (gt s' tmp4) = [tmp2; tmp3])
    ∧ (∃ sQuery,
         m_blockRange sQuery
         = insert_before node [tmp4] (m_blockRange (LowerNode comp tmp3 sAndNot).2)
         ∧ ReplacedAt sQuery node tmp4 s')
    ∧ (node ∉ m_blockRange s').
Proof.
  intros Havx. cbv zeta.
  unfold LowerHWIntrinsicCndSel_NoBlend. rewrite Havx.
  fold simdType simdBaseType simdSize.
  destruct (ReplaceWithLclVar comp (mkUse node 0) s) as [x' s1] eqn:Erep.
  cbn [snd]. set (cond' := Op s1 node 1).
  unfold gtClone, gtNewSimdBinOpNode.
  destruct (gtAlloc (gt s1 cond') s1) as [tmp1 s2] eqn:E2.
  destruct (gtAlloc_spec _ _ _ _ E2) as (Hf2 & _ & Hnew2 & Hs2 & Ho2 & Hold2 & Hr2 & _).
  set (s3 := BlockRange_InsertAfter cond' [tmp1] s2).
  destruct (gtAlloc _ s3) as [tmp2 s4] eqn:E4.
  destruct (gtAlloc_spec _ _ _ _ E4) as (Hf4 & _ & Hnew4 & Hs4 & Ho4 & Hold4 & Hr4 & _).
  set (s5 := BlockRange_InsertAfter a [tmp2] s4).
  set (s6 := (LowerNode comp tmp2 s5).2).
  destruct (gtAlloc _ s6) as [tmp3 s7] eqn:E7.
  destruct (gtAlloc_spec _ _ _ _ E7) as (Hf7 & _ & Hnew7 & Hs7 & Ho7 & Hold7 & Hr7 & _).
  set (s8 := BlockRange_InsertAfter b [tmp3] s7).
  set (s9 := (LowerNode comp tmp3 s8).2).
  destruct (gtAlloc _ s9) as [tmp4 s10] eqn:E10.
  destruct (gtAlloc_spec _ _ _ _ E10) as (Hf10 & _ & Hnew10 & Hs10 & Ho10 & Hold10 & Hr10 & _).
  set (s11 := BlockRange_InsertBefore node [tmp4] s10).
  fold (Use_RedirectOrMarkUnused node tmp4 s11).
  assert (H12 : tmp1 ≠ tmp2).
  { intros ->. unfold s3 in Hf4. rewrite nodes_InsertAfter in Hf4. destruct Hs2. congruence. }
  exists tmp1, tmp2, tmp3, tmp4, s5, s8, (BlockRange_Remove node (Use_RedirectOrMarkUnused node tmp4 s11)).
  split; [reflexivity|].
  autorewrite with lower. rewrite range_RedirectOrMarkUnused.
  rewrite !(gt_RedirectOrMarkUnused_proj _ node tmp4 s11) by done.
  unfold s5, s8, s11. autorewrite with lower.
  rewrite Ho4 by done. unfold s3. autorewrite with lower.
  rewrite Hnew2, Hnew4, Hnew7, Hnew10.
  repeat split; try done.
  - intros Hn.
    rewrite (gt_RedirectOrMarkUnused_new gtOperands); [|done|].
    + by rewrite gt_InsertBefore, Hnew10.
    + by rewrite gt_InsertBefore, Hnew10.
  - exists s11. split; [unfold s11; autorewrite with lower; by rewrite Hr10|].
    apply ReplacedAt_intro. unfold s11. by rewrite nodes_InsertBefore.
  - rewrite elem_of_remove. tauto.
Qed.
End CndSel.




(** ** Embedded broadcast *)

Lemma insert_before_chain (pos k c b : nat) (l : list nat) :
  b ∉ l → c ∉ l → b ≠ c → b ≠ pos → c ≠ pos →
  insert_before c [k] (insert_before b [c] (insert_before pos [b] l))
  = insert_before pos [k; c; b] l.
Proof.
  intros Hb Hc Hbc Hbp Hcp. induction l as [|x l IH]; [done|].
  apply not_elem_of_cons in Hb as [Hbx Hb]. apply not_elem_of_cons in Hc as [Hcx Hc].
  cbn [insert_before]. case_decide as Hx.
  - subst x. cbn [app insert_before].
    rewrite decide_True by done. cbn [app insert_before]. by rewrite decide_True.
  - cbn [insert_before]. rewrite decide_False by done.
    cbn [insert_before]. rewrite decide_False by done. f_equal. by apply IH.
Qed.

Lemma TryFoldCnsVec_constScalar_Some comp simdBaseType simdVal s :
  simdBaseType ∈ [TYP_FLOAT; TYP_DOUBLE; TYP_INT; TYP_UINT; TYP_LONG; TYP_ULONG] →
  ∃ n, TryFoldCnsVec_constScalar comp simdBaseType simdVal s = Some (gtAlloc n s)
       ∧ OperIsConst (gtOper n) = true
       ∧ gtType n ∈ [TYP_FLOAT; TYP_DOUBLE; TYP_INT; TYP_LONG]
       ∧ (varTypeIsFloating simdBaseType = false → gtType n ∈ [TYP_INT; TYP_LONG])
       ∧ gtOperands n = [].
Proof.
  intros H. unfold TryFoldCnsVec_constScalar, gtNewDconNode, gtNewIconNode, gtNewLconNode.
  repeat (apply elem_of_cons in H as [-> | H]); [..|by apply elem_of_nil in H];
    eexists; (split; [reflexivity|]); cbn; (split; [by destruct (TARGET_64BIT comp)|]);
    (split; [|split; [intros ?|done]]); try done; repeat constructor.
Qed.

(** The fold itself: the scalar constant, its [CreateScalarUnsafe] and the
    broadcast are created and put, in this order, before the vector constant;
    the use of the constant goes to the broadcast; the constant leaves the
    range (state [s8]); the two hardware-intrinsic nodes are lowered; and the
    containment flags are set. *)
Lemma TryFoldCnsVecForEmbeddedBroadcast_folds comp s parentNode childNode :
  let simdBaseType := gtSimdBaseJitType (gt s parentNode) in
  IsCnsVec s childNode = true →
  canUseEmbeddedBroadcast comp = true →
  varTypeIsSmall simdBaseType = false →
  VecCon_IsBroadcast (gt s childNode) simdBaseType = true →
  simdBaseType ∈ [TYP_FLOAT; TYP_DOUBLE; TYP_INT; TYP_UINT; TYP_LONG; TYP_ULONG] →
  (∀ q, q ∈ m_blockRange s → is_Some (gtNodes s !! q)) →
  FoldedToBroadcast comp s parentNode childNode
    (TryFoldCnsVecForEmbeddedBroadcast comp parentNode childNode s).
Proof.
  intros simdBaseType Hvec Hbc Hsmall Hbroad Hbase Hwf.
  unfold FoldedToBroadcast. fold simdBaseType. set (simdType := gtType (gt s childNode)).
  assert (Hchild : is_Some (gtNodes s !! childNode)) by by apply (OperIs_is_Some _ _ GT_CNS_VEC).
  unfold TryFoldCnsVecForEmbeddedBroadcast. rewrite Hbc. cbn [negb].
  fold simdType simdBaseType. rewrite Hsmall, Hbroad.
  fold (broadcastName simdType).
  destruct (TryFoldCnsVec_constScalar_Some comp simdBaseType (gtSimdVal (gt s childNode)) s Hbase)
    as (n & -> & Hconst & _ & Hty & Hnops).
  cbn [mbind option_bind]. unfold gtNewSimdHWIntrinsicNode.
  destruct (gtAlloc n s) as [constScalar s1] eqn:E1.
  destruct (gtAlloc_spec _ _ _ _ E1) as (Hf1 & _ & Hnew1 & Hs1 & Ho1 & Hold1 & Hr1 & _).
  destruct (gtAlloc _ s1) as [createScalar s2] eqn:E2.
  destruct (gtAlloc_spec _ _ _ _ E2) as (Hf2 & _ & Hnew2 & Hs2 & Ho2 & Hold2 & Hr2 & _).
  destruct (gtAlloc _ s2) as [broadcastNode s3] eqn:E3.
  destruct (gtAlloc_spec _ _ _ _ E3) as (Hf3 & _ & Hnew3 & Hs3 & Ho3 & Hold3 & Hr3 & _).
  set (s6 := BlockRange_InsertBefore createScalar [constScalar]
               (BlockRange_InsertBefore broadcastNode [createScalar]
                  (BlockRange_InsertBefore childNode [broadcastNode] s3))).
  fold (Use_RedirectOrMarkUnused childNode broadcastNode s6).
  set (s8 := BlockRange_Remove childNode (Use_RedirectOrMarkUnused childNode broadcastNode s6)).
  assert (H12 : constScalar ≠ createScalar) by by apply Hold2.
  assert (H13 : constScalar ≠ broadcastNode) by (apply Hold3; by apply Hold2).
  assert (H23 : createScalar ≠ broadcastNode) by by apply Hold3.
  assert (Hc1 : childNode ≠ constScalar) by by apply Hold1.
  assert (Hc2 : childNode ≠ createScalar) by (apply Hold2; by apply Hold1).
  assert (Hc3 : childNode ≠ broadcastNode) by (apply Hold3; apply Hold2; by apply Hold1).
  assert (Hg1 : gt s6 constScalar = n).
  { unfold s6. autorewrite with lower. by rewrite Ho3, Ho2, Hnew1. }
  assert (Hg2 : gt s6 createScalar
                = hwNode TYP_SIMD16 NI_Vector128_CreateScalarUnsafe [constScalar] simdBaseType 16).
  { unfold s6. autorewrite with lower. by rewrite Ho3, Hnew2. }
  assert (Hg3 : gt s6 broadcastNode
                = hwNode simdType (broadcastName simdType) [createScalar] simdBaseType
                    (genTypeSize (ptrSize comp) simdType)).
  { unfold s6. autorewrite with lower. by rewrite Hnew3. }
  assert (Hf2' : gtNodes s !! createScalar = None).
  { destruct (gtNodes s !! createScalar) eqn:E; [|done].
    destruct (Hold1 createScalar) as [_ [m Hm]]; [eauto|]. congruence. }
  assert (Hf3' : gtNodes s !! broadcastNode = None).
  { destruct (gtNodes s !! broadcastNode) eqn:E; [|done].
    destruct (Hold1 broadcastNode) as [_ H1]; [eauto|].
    destruct (Hold2 broadcastNode H1) as [_ [m Hm]]. congruence. }
  exists constScalar, createScalar, broadcastNode, s1, s8. cbv zeta.
  split; [reflexivity|]. split; [reflexivity|].
  split; [done|]. split; [done|]. split; [done|].
  split; [repeat constructor; set_solver|].
  unfold s8. autorewrite with lower. rewrite range_RedirectOrMarkUnused.
  rewrite (gt_RedirectOrMarkUnused_other childNode broadcastNode s6 constScalar)
    by (try done; rewrite Hg1, Hnops; set_solver).
  rewrite (gt_RedirectOrMarkUnused_other childNode broadcastNode s6 createScalar)
    by (try done; rewrite Hg2; cbn; set_solver).
  rewrite !(gt_RedirectOrMarkUnused_new _ childNode broadcastNode s6)
    by (try done; rewrite Hg3; cbn; set_solver).
  rewrite Hg1, Hg2, Hg3, Hnew1.
  split; [done|]. split; [done|]. split; [done|]. split; [done|].
  split; [done|]. split; [done|]. split; [done|]. split.
  - unfold s6. autorewrite with lower. rewrite Hr3, Hr2, Hr1. f_equal.
    apply insert_before_chain; try done.
    + intros [m Hm]%Hwf. congruence.
    + intros [m Hm]%Hwf. congruence.
  - exists s6. split.
    + unfold s6. autorewrite with lower. rewrite Hr3, Hr2, Hr1.
      apply insert_before_chain; try done.
      * intros [m Hm]%Hwf. congruence.
      * intros [m Hm]%Hwf. congruence.
    + apply ReplacedAt_intro. unfold s6. by autorewrite with lower.
Qed.

(** What [IsContainableHWIntrinsicOp] answers for a vector constant. *)
Lemma IsContainableHWIntrinsicOp_CnsVec comp s parentNode childNode :
  IsCnsVec s childNode = true →
  IsContainableMemoryOp comp s childNode = false →
  (IsContainableHWIntrinsicOp comp s parentNode childNode).1
  = (let '(supportsMemoryOp, _, expectedSize, operandSize) :=
       HWIntrinsicOperandSupport comp s parentNode childNode in
     supportsMemoryOp && bool_decide (expectedSize ≤ operandSize))
    && negb (VecCon_IsAllBitsSet (gt s childNode)) && negb (VecCon_IsZero (gt s childNode)).
Proof.
  intros Hvec Hmem. unfold IsContainableHWIntrinsicOp.
  destruct (HWIntrinsicOperandSupport comp s parentNode childNode) as [[[m l] e] o].
  assert (Hoper : gtOper (gt s childNode) = GT_CNS_VEC) by by apply OperIs_true.
  assert (Hhw : OperIsHWIntrinsic s childNode = false).
  { unfold OperIsHWIntrinsic, OperIs. apply bool_decide_eq_false_2. congruence. }
  assert (Hdbl : IsCnsNonZeroFltOrDbl s childNode = false).
  { unfold IsCnsNonZeroFltOrDbl, OperIs. rewrite bool_decide_eq_false_2 by congruence. done. }
  rewrite Hhw, Hmem, Hdbl, Hvec. cbn [negb fst].
  by destruct (m && bool_decide (e ≤ o)).
Qed.




(** ** Replacements and the use of the replaced node *)

Lemma LowerHWIntrinsicCreate_replaces comp s node simdVal :
  IsHWIntrinsicCreateConstant comp s node = Some simdVal →
  ∃ vecCon sQuery s',
    LowerHWIntrinsicCreate comp node s = (gtNext s' vecCon, s')
    ∧ gtOper (gt sQuery vecCon) = GT_CNS_VEC
    ∧ m_blockRange sQuery
      = insert_before node [vecCon]
          (m_blockRange (foldl (LowerHWIntrinsicCreate_RemoveArg comp) s
                           (gtOperands (gt s node))))
    ∧ ReplacedAt sQuery node vecCon s'.
Proof.
  intros Hconst. unfold LowerHWIntrinsicCreate. rewrite Hconst.
  set (simdType := if bool_decide _ && bool_decide _ then TYP_SIMD8 else _).
  set (s1 := foldl _ s _). unfold gtNewVconNode.
  destruct (gtAlloc _ s1) as [vecCon s2] eqn:Ealloc.
  destruct (gtAlloc_spec _ _ _ _ Ealloc) as (_ & _ & Hnew & Hsome & _ & _ & Hrange & _).
  set (s4 := BlockRange_InsertBefore node [vecCon] (gtUpd vecCon _ s2)).
  fold (Use_RedirectOrMarkUnused node vecCon s4).
  assert (Hs4 : is_Some (gtNodes s4 !! vecCon)).
  { unfold s4. rewrite nodes_InsertBefore. by apply gtUpd_is_Some. }
  exists vecCon, s4, (BlockRange_Remove node (Use_RedirectOrMarkUnused node vecCon s4)).
  split; [reflexivity|]. split; [|split].
  - unfold s4. rewrite gt_InsertBefore, (gt_gtUpd_proj gtOper) by done. by rewrite Hnew.
  - unfold s4. autorewrite with lower. by rewrite Hrange.
  - by apply ReplacedAt_intro.
Qed.

Lemma SwapOps_operands node i j s :
  is_Some (gtNodes s !! node) →
  gtOperands (gt (SwapOps node i j s) node)
  = <[pred j := Op s node i]> (<[pred i := Op s node j]> (gtOperands (gt s node))).
Proof.
  intros H. unfold SwapOps.
  rewrite gtOperands_SetOp_eq by (unfold SetOp; by apply gtUpd_is_Some).
  by rewrite gtOperands_SetOp_eq.
Qed.

Lemma SwapOps_is_Some node i j s q :
  is_Some (gtNodes (SwapOps node i j s) !! q) ↔ is_Some (gtNodes s !! q).
Proof. unfold SwapOps, SetOp. by rewrite !gtUpd_is_Some. Qed.

(** The operand swaps keep the arena and the range, and permute the first
    three operands. *)
Lemma TernaryLogic_Normalize_spec comp node op4 control useFlags s o1 o2 o3 control' useFlags' s1 :
  gtOperands (gt s node) = [o1; o2; o3; op4] →
  TernaryLogic_Normalize comp node op4 control useFlags s = (control', useFlags', s1) →
  (∀ q, is_Some (gtNodes s1 !! q) ↔ is_Some (gtNodes s !! q))
  ∧ m_blockRange s1 = m_blockRange s
  ∧ ∃ p1 p2 p3, gtOperands (gt s1 node) = [p1; p2; p3; op4] ∧ p3 ∈ [o1; o2; o3].
Proof.
  intros Hops Hn.
  assert (Hnode : is_Some (gtNodes s !! node)) by (apply operands_is_Some; by rewrite Hops).
  assert (HO1 : Op s node 1 = o1) by (unfold Op; by rewrite Hops).
  assert (HO2 : Op s node 2 = o2) by (unfold Op; by rewrite Hops).
  assert (HO3 : Op s node 3 = o3) by (unfold Op; by rewrite Hops).
  unfold TernaryLogic_Normalize in Hn.
  destruct useFlags; injection Hn as <- <- <-;
    try (split; [done|]; split; [done|]; exists o1, o2, o3; split; [done|set_solver]).
  all: split; [intros q; unfold SetIconValue; rewrite gtUpd_is_Some, ?SwapOps_is_Some; done|].
  all: split; [done|].
  all: unfold SetIconValue; rewrite (gt_gtUpd_proj gtOperands) by done.
  - rewrite SwapOps_operands, HO1, HO3, Hops by done. cbn. eexists _, _, _. split; [done|set_solver].
  - rewrite SwapOps_operands, HO2, HO3, Hops by done. cbn. eexists _, _, _. split; [done|set_solver].
  - assert (Hn2 : is_Some (gtNodes (SwapOps node 2 3 s) !! node)) by by apply SwapOps_is_Some.
    rewrite SwapOps_operands by done. unfold Op.
    rewrite SwapOps_operands, HO2, HO3, Hops by done. cbn.
    eexists _, _, _. split; [done|set_solver].
  - rewrite SwapOps_operands, HO1, HO2, Hops by done. cbn. eexists _, _, _. split; [done|set_solver].
Qed.

Lemma LowerHWIntrinsicTernaryLogic_replaces comp s node o1 o2 o3 op4 control' useFlags' s1 :
  let control := uint8_t_cast (gtIconVal (gt s op4)) in
  gtOperands (gt s node) = [o1; o2; o3; op4] →
  (∀ o, o ∈ [o1; o2; o3] → o ≠ 0 ∧ is_Some (gtNodes s !! o)) →
  IsCnsIntOrI s op4 = true →
  TernaryLogic_IsSelectControl control = false →
  TernaryLogic_Normalize comp node op4 control (TernaryLogicInfo_GetAllUseFlags comp control) s
  = (control', useFlags', s1) →
  useFlags' = TLUF_None ∨ (useFlags' = TLUF_C ∧ control' = TernaryLogic_C) →
  ∃ replacementNode sQuery s',
    LowerHWIntrinsicTernaryLogic comp node s = (gtNext sQuery node, s')
    ∧ (useFlags' = TLUF_None →
       gtNodes s !! replacementNode = None
       ∧ gtOper (gt sQuery replacementNode) = GT_CNS_VEC
       ∧ m_blockRange sQuery = insert_before node [replacementNode] (m_blockRange s))
    ∧ (useFlags' = TLUF_C →
       replacementNode = Op s1 node 3 ∧ m_blockRange sQuery = m_blockRange s)
    ∧ ReplacedAt sQuery node replacementNode s'
    ∧ (op4 ∉ m_blockRange s').
Proof.
  intros control Hops Hargs Hcns Hsel Hnorm Hcase.
  destruct (TernaryLogic_Normalize_spec _ _ _ _ _ _ _ _ _ _ _ _ Hops Hnorm)
    as (Hkeys & Hrange1 & p1 & p2 & p3 & Hops1 & Hp3).
  assert (HO4 : Op s node 4 = op4) by (unfold Op; by rewrite Hops).
  assert (HO3 : Op s1 node 3 = p3) by (unfold Op; by rewrite Hops1).
  unfold LowerHWIntrinsicTernaryLogic. rewrite HO4, Hcns. fold control.
  rewrite Hsel, Hnorm. unfold TernaryLogic_Replacement.
  assert (Hfinal : ∀ repl sQ,
            is_Some (gtNodes sQ !! repl) →
            ReplacedAt sQ node repl
              (BlockRange_Remove node (BlockRange_Remove op4 (Use_RedirectOrMarkUnused node repl sQ)))
            ∧ (op4 ∉ m_blockRange
                 (BlockRange_Remove node
                    (BlockRange_Remove op4 (Use_RedirectOrMarkUnused node repl sQ))))).
  { intros repl sQ Hrepl. split.
    - apply ReplacedAt_nodes; [done|by rewrite !nodes_Remove|].
      rewrite range_Remove, elem_of_remove. tauto.
    - rewrite !range_Remove, !elem_of_remove. tauto. }
  destruct Hcase as [-> | [-> ->]].
  - set (sU := SetUnusedValue _ (SetUnusedValue _ (SetUnusedValue _ s1))).
    assert (HkeysU : ∀ q, is_Some (gtNodes sU !! q) ↔ is_Some (gtNodes s !! q)).
    { intros q. unfold sU, SetUnusedValue. by rewrite !gtUpd_is_Some. }
    assert (HrangeU : m_blockRange sU = m_blockRange s).
    { unfold sU, SetUnusedValue. by rewrite !range_gtUpd. }
    unfold gtNewZeroConNode, gtNewAllBitsSetConNode.
    set (n := if bool_decide (control' = 0%Z) then gtNewNode GT_CNS_VEC (gtType (gt s node)) []
              else set_gtSimdVal (gtNewNode GT_CNS_VEC (gtType (gt s node)) [])
                     (replicate 64 255%Z)).
    assert (Halloc : (if bool_decide (control' = 0%Z)
                      then gtAlloc (gtNewNode GT_CNS_VEC (gtType (gt s node)) []) sU
                      else gtAlloc (set_gtSimdVal (gtNewNode GT_CNS_VEC (gtType (gt s node)) [])
                                      (replicate 64 255%Z)) sU) = gtAlloc n sU).
    { unfold n. by destruct (bool_decide (control' = 0%Z)). }
    rewrite Halloc. clear Halloc.
    destruct (gtAlloc n sU) as [repl s2] eqn:E2.
    destruct (gtAlloc_spec _ _ _ _ E2) as (Hf & H0 & Hnew & Hs2 & _ & _ & Hr2 & _).
    rewrite bool_decide_eq_true_2 by done.
    set (sQ := BlockRange_InsertBefore node [repl] s2).
    fold (Use_RedirectOrMarkUnused node repl sQ).
    assert (HsQ : is_Some (gtNodes sQ !! repl)) by (unfold sQ; by rewrite nodes_InsertBefore).
    destruct (Hfinal repl sQ HsQ) as [Hf1 Hf2].
    exists repl, sQ, (BlockRange_Remove node
                        (BlockRange_Remove op4 (Use_RedirectOrMarkUnused node repl sQ))).
    split; [unfold gtNext; by rewrite range_RedirectOrMarkUnused|].
    split; [|split; [done|by split]]. intros _. split; [|split].
    + destruct (gtNodes s !! repl) eqn:E; [|done].
      assert (Hin : is_Some (gtNodes sU !! repl)) by (apply HkeysU; eauto).
      destruct Hin as [m Hm]. congruence.
    + unfold sQ. rewrite gt_InsertBefore, Hnew. unfold n. by case_match.
    + unfold sQ. autorewrite with lower. by rewrite Hr2, HrangeU.
  - rewrite bool_decide_eq_true_2 by done. rewrite HO3.
    destruct (Hargs p3 Hp3) as [Hp0 Hpin].
    rewrite bool_decide_eq_true_2 by done.
    set (sQ := SetUnusedValue _ (SetUnusedValue _ s1)).
    fold (Use_RedirectOrMarkUnused node p3 sQ).
    assert (HsQ : is_Some (gtNodes sQ !! p3)).
    { unfold sQ, SetUnusedValue. rewrite !gtUpd_is_Some. by apply Hkeys. }
    destruct (Hfinal p3 sQ HsQ) as [Hf1 Hf2].
    exists p3, sQ, (BlockRange_Remove node
                      (BlockRange_Remove op4 (Use_RedirectOrMarkUnused node p3 sQ))).
    split; [unfold gtNext; by rewrite range_RedirectOrMarkUnused|].
    split; [done|]. split; [|by split]. intros _. split; [done|].
    unfold sQ, SetUnusedValue. by rewrite !range_gtUpd.
Qed.



(** ** The read-modify-write detector *)

Lemma unmark_set_LIR_Mark n b : unmark (set_LIR_Mark n b) = unmark n.
Proof. done. Qed.

Lemma unmark_eq n n' : unmark n = unmark n' → LIR_Mark n = LIR_Mark n' → n = n'.
Proof. destruct n, n'. unfold unmark. cbn. intros [=] ->. by subst. Qed.

Lemma gtOperands_unmark s s' q :
  unmark (gt s' q) = unmark (gt s q) → gtOperands (gt s' q) = gtOperands (gt s q).
Proof. intros H. by apply (f_equal gtOperands) in H. Qed.

Lemma unmark_SetMark p b s q : unmark (gt (SetMark p b s) q) = unmark (gt s q).
Proof. unfold SetMark. by apply (gt_gtUpd_proj unmark). Qed.

Lemma MarksCleared_refl s l :
  (∀ q, q ∈ l → LIR_Mark (gt s q) = false) → MarksCleared s l s.
Proof. intros H. by repeat split. Qed.

Lemma MarksCleared_step s sm l q s' :
  (∀ x, unmark (gt sm x) = unmark (gt s x)) →
  (∀ x, is_Some (gtNodes sm !! x) ↔ is_Some (gtNodes s !! x)) →
  m_blockRange sm = m_blockRange s →
  LIR_Mark (gt sm q) = false →
  (∀ x, x ≠ q → x ∉ l → LIR_Mark (gt sm x) = LIR_Mark (gt s x)) →
  q ∉ l →
  MarksCleared sm l s' →
  MarksCleared s (q :: l) s'.
Proof.
  intros Hu Hk Hr Hq Ho Hnl (Hu' & Hk' & Hr' & Hin' & Hout').
  split; [|split; [|split; [|split]]].
  - intros x. by rewrite Hu', Hu.
  - intros x. by rewrite Hk', Hk.
  - by rewrite Hr', Hr.
  - intros x [-> | Hx]%elem_of_cons; [|by apply Hin']. by rewrite Hout'.
  - intros x [Hxq Hxl]%not_elem_of_cons. rewrite Hout' by done. by apply Ho.
Qed.

(** Marking the operands of a node. *)
Lemma foldl_SetMark ops s :
  let s' := foldl (λ s' o, SetMark o true s') s ops in
  (∀ q, unmark (gt s' q) = unmark (gt s q))
  ∧ (∀ q, is_Some (gtNodes s' !! q) ↔ is_Some (gtNodes s !! q))
  ∧ m_blockRange s' = m_blockRange s
  ∧ m_scratchSideEffects s' = m_scratchSideEffects s
  ∧ (∀ q, q ∈ ops → is_Some (gtNodes s !! q) → LIR_Mark (gt s' q) = true)
  ∧ (∀ q, q ∉ ops → gt s' q = gt s q).
Proof.
  revert s. induction ops as [|o ops IH]; intros s; cbn [foldl].
  { repeat split; try done. intros q Hq. by apply elem_of_nil in Hq. }
  destruct (IH (SetMark o true s)) as (Hu & Hk & Hr & Hsc & Hin & Hout). cbv zeta in *.
  split; [|split; [|split; [|split; [|split]]]].
  - intros q. by rewrite Hu, unmark_SetMark.
  - intros q. rewrite Hk. apply gtUpd_is_Some.
  - by rewrite Hr.
  - by rewrite Hsc.
  - intros q Hq Hsome. destruct (decide (q ∈ ops)) as [Hqo | Hqo].
    + apply Hin; [done|]. by apply gtUpd_is_Some.
    + rewrite Hout by done. apply elem_of_cons in Hq as [-> | Hq]; [|done].
      unfold SetMark. by rewrite gt_gtUpd_eq.
  - intros q [Hqo Hq]%not_elem_of_cons. rewrite Hout by done.
    unfold SetMark. by apply gt_gtUpd_ne.
Qed.

(** The loop that clears the leftover marks reaches every one of them. *)
Lemma IsRMWIndirCandidate_clearMarks_total l : ∀ M s,
  NoDup l → NoDup M →
  (∀ q, q ∈ l → is_Some (gtNodes s !! q)) →
  (∀ q, q ∈ M → q ∈ l) →
  (∀ q, q ∈ l → LIR_Mark (gt s q) = true ↔ q ∈ M) →
  ∃ s', IsRMWIndirCandidate_clearMarks l (length M) s = Some s' ∧ MarksCleared s l s'.
Proof.
  induction l as [|q l IH]; intros M s Hl HM Hsome Hsub Hmark.
  - destruct M as [|m M].
    2: { pose proof (Hsub m (list_elem_of_here m M)) as H. by apply elem_of_nil in H. }
    exists s. split; [done|]. apply MarksCleared_refl.
    intros x Hx. by apply elem_of_nil in Hx.
  - destruct (decide (M = [])) as [-> | Hne].
    { exists s. split; [done|]. apply MarksCleared_refl. intros x Hx.
      destruct (LIR_Mark (gt s x)) eqn:E; [|done]. by apply Hmark, elem_of_nil in E. }
    apply NoDup_cons in Hl as [Hql Hl].
    destruct (length M) as [|n] eqn:Elen; [by destruct M|].
    cbn [IsRMWIndirCandidate_clearMarks].
    destruct (LIR_Mark (gt s q)) eqn:Eq.
    + assert (HqM : q ∈ M) by (apply Hmark; [set_solver|done]).
      apply elem_of_Permutation in HqM as [M0 HM0].
      assert (Hn : n = length M0) by (rewrite HM0 in Elen; cbn in Elen; lia).
      rewrite HM0 in HM. apply NoDup_cons in HM as [HqM0 HM0'].
      destruct (IH M0 (SetMark q false s)) as (s' & Hs' & Hc); try done.
      * intros x Hx. apply gtUpd_is_Some, Hsome. set_solver.
      * intros x Hx. assert (x ∈ q :: l) by (apply Hsub; rewrite HM0; set_solver).
        set_solver.
      * intros x Hx. unfold SetMark. rewrite gt_gtUpd_ne by set_solver.
        rewrite Hmark by set_solver. rewrite HM0. set_solver.
      * exists s'. rewrite Hn. split; [done|].
        eapply (MarksCleared_step s (SetMark q false s)); try done.
        -- intros x. apply unmark_SetMark.
        -- intros x. apply gtUpd_is_Some.
        -- unfold SetMark. rewrite gt_gtUpd_eq; [done|]. apply Hsome. set_solver.
        -- intros x Hx _. unfold SetMark. by rewrite gt_gtUpd_ne.
    + assert (HqM : q ∉ M).
      { intros H. apply Hmark in H; [congruence|set_solver]. }
      destruct (IH M s) as (s' & Hs' & Hc); try done.
      * intros x Hx. apply Hsome. set_solver.
      * intros x Hx. assert (x ∈ q :: l) by by apply Hsub. set_solver.
      * intros x Hx. apply Hmark. set_solver.
      * exists s'. rewrite Elen in Hs'. split; [done|].
        by eapply (MarksCleared_step s s).
Qed.
Lemma TreeOrder_cons ops q l :
  TreeOrder ops (q :: l) →
  TreeOrder ops l ∧ (q ∉ l) ∧ (∀ o, o ∈ ops q → o ∈ l) ∧ NoDup (ops q)
  ∧ (∀ q' o, q' ∈ l → o ∈ ops q → o ∉ ops q').
Proof.
  intros (Hl & Hb & Hp). apply NoDup_cons in Hl as [Hq Hl].
  cbn [mbind list_bind] in Hb. apply NoDup_app in Hb as (Hb1 & Hb2 & Hb3).
  cbn in Hp. destruct Hp as [Hp1 Hp2].
  split; [done|]. split; [done|]. split; [|split; [done|]].
  - by apply Forall_forall.
  - intros q' o Hq' Ho Ho'. apply (Hb2 o Ho). apply list_elem_of_bind. eauto.
Qed.

(** The crawl of [IsRMWIndirCandidate] ends within the range, whatever the
    side-effect test answers, and leaves no mark behind. *)
Lemma IsRMWIndirCandidate_walk_total comp ops l : ∀ M s,
  TreeOrder ops l → WalkInv ops s l M →
  ∃ b s', IsRMWIndirCandidate_walk comp l (length M) s = Some (b, s') ∧ MarksCleared s l s'.
Proof.
  induction l as [|q l IH]; intros M s Htree (Hops & Hsome & HM & Hsub & Hmark & Hroot).
  - destruct M as [|m M].
    2: { pose proof (Hsub m (list_elem_of_here m M)) as H. by apply elem_of_nil in H. }
    exists true, s. split; [done|]. apply MarksCleared_refl.
    intros x Hx. by apply elem_of_nil in Hx.
  - destruct (decide (M = [])) as [-> | Hne].
    { exists true, s. split; [done|]. apply MarksCleared_refl. intros x Hx.
      destruct (LIR_Mark (gt s x)) eqn:E; [|done]. by apply Hmark, elem_of_nil in E. }
    destruct (TreeOrder_cons _ _ _ Htree) as (Htree' & Hql & Hopsl & Hnd & Hdisj).
    destruct (length M) as [|n] eqn:Elen; [by destruct M|].
    cbn [IsRMWIndirCandidate_walk].
    destruct (LIR_Mark (gt s q)) eqn:Eq; cbn [negb].
    + assert (HqM : q ∈ M) by (apply Hmark; [set_solver|done]).
      apply elem_of_Permutation in HqM as [M0 HM0].
      assert (Hn : n = length M0) by (rewrite HM0 in Elen; cbn in Elen; lia).
      assert (HMq : NoDup (q :: M0)) by by rewrite <- HM0.
      apply NoDup_cons in HMq as [HqM0 HM0'].
      assert (HM0M : ∀ x, x ∈ M0 → x ∈ M) by (intros x Hx; rewrite HM0; set_solver).
      set (s1 := SetMark q false s).
      assert (Hq1 : LIR_Mark (gt s1 q) = false).
      { unfold s1, SetMark. rewrite gt_gtUpd_eq; [done|]. apply Hsome. set_solver. }
      assert (Hne1 : ∀ x, x ≠ q → gt s1 x = gt s x).
      { intros x Hx. unfold s1, SetMark. by rewrite gt_gtUpd_ne. }
      assert (Hk1 : ∀ x, is_Some (gtNodes s1 !! x) ↔ is_Some (gtNodes s !! x)).
      { intros x. apply gtUpd_is_Some. }
      assert (Hmark0 : ∀ x, x ∈ q :: l → LIR_Mark (gt s1 x) = true ↔ x ∈ M0).
      { intros x Hx. destruct (decide (x = q)) as [-> | Hxq].
        - rewrite Hq1. split; [done|]. intros H. by destruct HqM0.
        - rewrite Hne1 by done. rewrite Hmark by done. rewrite HM0. set_solver. }
      change (m_scratchSideEffects s1) with (m_scratchSideEffects s).
      destruct (SideEffects_InterferesWith comp s1 (m_scratchSideEffects s) q).
      * destruct (IsRMWIndirCandidate_clearMarks_total (q :: l) M0 s1) as (s2 & Hs2 & Hc).
        -- destruct Htree as [H _]. done.
        -- done.
        -- intros x Hx. by apply Hk1, Hsome.
        -- intros x Hx. by apply Hsub, HM0M.
        -- done.
        -- rewrite Hn, Hs2. exists false, s2. split; [done|].
           destruct Hc as (Hu & Hk & Hr & Hin & Hout).
           split; [|split; [|split; [|split]]]; try done.
           ++ intros x. rewrite Hu. apply unmark_SetMark.
           ++ intros x. by rewrite Hk.
           ++ intros x Hx. rewrite Hout by done. rewrite Hne1; [done|]. set_solver.
      * assert (Hops1 : gtOperands (gt s1 q) = ops q).
        { rewrite <- Hops. apply gtOperands_unmark, unmark_SetMark. }
        rewrite Hops1.
        pose proof (foldl_SetMark (ops q) s1) as Hf. cbv zeta in Hf.
        set (s2 := foldl (λ s' o, SetMark o true s') s1 (ops q)) in *.
        destruct Hf as (Hu2 & Hk2 & Hr2 & _ & Hin2 & Hout2).
        assert (Hqo : q ∉ ops q) by (intros H; by apply Hql, Hopsl).
        destruct (IH (M0 ++ ops q) s2 Htree') as (b & s' & Hs' & Hc).
        { split; [|split; [|split; [|split; [|split]]]].
          - intros x. rewrite <- Hops. apply gtOperands_unmark.
            rewrite Hu2. apply unmark_SetMark.
          - intros x Hx. apply Hk2, Hk1, Hsome. set_solver.
          - apply NoDup_app. split; [done|]. split; [|done].
            intros x Hx Hxo.
            destruct (Hroot q x) as [Hcontra _]; [set_solver|done|by apply HM0M|].
            apply Hcontra. rewrite HM0. set_solver.
          - intros x [Hx | Hx]%elem_of_app; [|by apply Hopsl].
            assert (x ∈ q :: l) by by apply Hsub, HM0M.
            assert (x ≠ q) by (intros ->; done). set_solver.
          - intros x Hx. rewrite elem_of_app.
            destruct (decide (x ∈ ops q)) as [Hxo | Hxo].
            + rewrite Hin2; [tauto|done|]. apply Hk1, Hsome. set_solver.
            + rewrite Hout2 by done. rewrite Hmark0 by set_solver. tauto.
          - intros x o Hx Ho [HoM | Hoq]%elem_of_app.
            + destruct (Hroot x o) as [H1 H2]; [set_solver|done|by apply HM0M|].
              split.
              * rewrite elem_of_app. intros [H | H]; [by apply H1, HM0M|].
                apply (H2 q); [set_solver|done].
              * intros q' Hq'. apply H2. set_solver.
            + by destruct (Hdisj x o Hx Hoq). }
        exists b, s'. rewrite Hn. rewrite length_app in Hs'. split; [done|].
        eapply (MarksCleared_step s s2); try done.
        -- intros x. rewrite Hu2. apply unmark_SetMark.
        -- intros x. by rewrite Hk2.
        -- by rewrite Hout2.
        -- intros x Hxq Hxl. rewrite Hout2 by (intros H; by apply Hxl, Hopsl).
           by rewrite Hne1.
    + assert (HqM : q ∉ M).
      { intros H. apply Hmark in H; [congruence|set_solver]. }
      set (sa := SideEffects_AddNode q s).
      assert (Hga : ∀ x, gt sa x = gt s x) by done.
      destruct (IH M sa Htree') as (b & s' & Hs' & Hc).
      { split; [|split; [|split; [|split; [|split]]]]; try done.
        - intros x Hx. apply Hsome. set_solver.
        - intros x Hx. assert (x ∈ q :: l) by by apply Hsub. set_solver.
        - intros x Hx. rewrite Hga. apply Hmark. set_solver.
        - intros x o Hx Ho HoM. destruct (Hroot x o) as [H1 H2]; [set_solver|done|done|].
          split; [done|]. intros q' Hq'. apply H2. set_solver. }
      exists b, s'. rewrite Elen in Hs'. split; [done|].
      by eapply (MarksCleared_step s sa).
Qed.
Lemma TreeOrder_elem ops l q o :
  TreeOrder ops l → q ∈ l → o ∈ ops q → o ∈ l ∧ o ≠ q.
Proof.
  induction l as [|x l IH]; intros Htree Hq Ho; [by apply elem_of_nil in Hq|].
  destruct (TreeOrder_cons _ _ _ Htree) as (Htree' & Hxl & Hopsl & _ & _).
  apply elem_of_cons in Hq as [-> | Hq].
  - split; [set_solver|]. intros ->. by apply Hxl, Hopsl.
  - destruct (IH Htree' Hq Ho). split; [set_solver|done].
Qed.

Lemma TreeOrder_parent_inj ops l q q' o :
  TreeOrder ops l → q ∈ l → q' ∈ l → o ∈ ops q → o ∈ ops q' → q = q'.
Proof.
  induction l as [|x l IH]; intros Htree Hq Hq' Ho Ho'; [by apply elem_of_nil in Hq|].
  destruct (TreeOrder_cons _ _ _ Htree) as (Htree' & Hxl & _ & _ & Hdisj).
  apply elem_of_cons in Hq as [-> | Hq]; apply elem_of_cons in Hq' as [-> | Hq']; try done.
  - by destruct (Hdisj q' o).
  - by destruct (Hdisj q o).
  - by apply IH.
Qed.

Lemma gtNodes_eq s s' :
  (∀ q, gt s' q = gt s q) →
  (∀ q, is_Some (gtNodes s' !! q) ↔ is_Some (gtNodes s !! q)) →
  gtNodes s' = gtNodes s.
Proof.
  intros Hgt Hk. apply map_eq. intros q. specialize (Hgt q). specialize (Hk q).
  unfold gt in Hgt.
  destruct (gtNodes s' !! q) as [n'|] eqn:E', (gtNodes s !! q) as [n|] eqn:E; simpl in *.
  - by rewrite Hgt.
  - destruct Hk as [Hk _]. destruct Hk as [? ?]; [eauto|done].
  - destruct Hk as [_ Hk]. destruct Hk as [? ?]; [eauto|done].
  - done.
Qed.

(** On a well-formed range the candidate test answers, for either operand of
    the stored value, and changes no node and no position: only the scratch
    set of side effects differs afterwards.  It answers "yes" only for an
    indirection of an address with the operator of the destination address
    that [IndirsAreEquivalent] accepts. *)
Lemma IsRMWIndirCandidate_total comp s storeInd i :
  let indirSrc := gtGetOp2 s storeInd in
  let operand := Op s indirSrc i in
  StoreIndWellFormed s storeInd →
  ∃ b s',
    IsRMWIndirCandidate comp operand storeInd s = Some (b, s')
    ∧ gtNodes s' = gtNodes s
    ∧ m_blockRange s' = m_blockRange s
    ∧ (b = true →
       OperIs s operand GT_IND = true
       ∧ gtOper (gt s (gtGetOp1 s operand)) = gtOper (gt s (gtGetOp1 s storeInd))
       ∧ IndirsAreEquivalent comp s operand storeInd = true).
Proof.
  intros indirSrc operand (H0 & Htree & Hall).
  unfold IsRMWIndirCandidate.
  destruct (OperIs s operand GT_IND) eqn:Eind; cbn [negb]; [|by exists false, s].
  destruct (bool_decide (gtOper (gt s (gtGetOp1 s operand)) ≠ gtOper (gt s (gtGetOp1 s storeInd))))
    eqn:Eoper; cbn [orb]; [by exists false, s|].
  destruct (IndirsAreEquivalent comp s operand storeInd) eqn:Eeq; cbn [negb];
    [|by exists false, s].
  apply bool_decide_eq_false in Eoper. apply dec_stable in Eoper.
  set (l0 := nodes_before storeInd (m_blockRange s)) in *.
  set (ops := λ q, gtOperands (gt s q)) in *.
  destruct (TreeOrder_cons _ _ _ Htree) as (Htree0 & Hsl & Hopss & _ & Hdisj).
  apply Forall_cons in Hall as [_ Hall]. rewrite Forall_forall in Hall.
  assert (Hop_some : is_Some (gtNodes s !! operand)) by by apply (OperIs_is_Some _ _ GT_IND).
  assert (Hop0 : operand ≠ 0) by (intros E; rewrite E, H0 in Hop_some; by destruct Hop_some).
  assert (Hop_in : operand ∈ ops indirSrc) by by apply (Op_elem s indirSrc i).
  assert (Hsrc_some : is_Some (gtNodes s !! indirSrc)).
  { apply operands_is_Some. intros E. unfold ops in Hop_in. rewrite E in Hop_in.
    by apply elem_of_nil in Hop_in. }
  assert (Hsrc0 : indirSrc ≠ 0) by (intros E; rewrite E, H0 in Hsrc_some; by destruct Hsrc_some).
  assert (Hsrc_in : indirSrc ∈ ops storeInd) by by apply (Op_elem s storeInd 2).
  assert (Hsrc_l : indirSrc ∈ l0) by by apply Hopss.
  destruct (TreeOrder_elem ops l0 indirSrc operand Htree0 Hsrc_l Hop_in) as [Hop_l Hop_ne].
  set (s2 := SetMark operand true (set_scratchSideEffects [] s)).
  assert (Hu2 : ∀ q, unmark (gt s2 q) = unmark (gt s q)).
  { intros q. unfold s2. by rewrite unmark_SetMark. }
  assert (Hk2 : ∀ q, is_Some (gtNodes s2 !! q) ↔ is_Some (gtNodes s !! q)).
  { intros q. unfold s2, SetMark. by rewrite gtUpd_is_Some. }
  assert (Hm2 : LIR_Mark (gt s2 operand) = true).
  { unfold s2, SetMark. by rewrite gt_gtUpd_eq. }
  assert (Hne2 : ∀ q, q ≠ operand → gt s2 q = gt s q).
  { intros q Hq. unfold s2, SetMark. by rewrite gt_gtUpd_ne. }
  change (m_blockRange s2) with (m_blockRange s). fold l0.
  destruct (IsRMWIndirCandidate_walk_total comp ops l0 [operand] s2 Htree0)
    as (b & s' & Hs' & Hu & Hk & Hr & Hin & Hout).
  { split; [|split; [|split; [|split; [|split]]]].
    - intros q. by apply gtOperands_unmark.
    - intros q Hq. apply Hk2. by apply Hall.
    - apply NoDup_singleton.
    - intros q ->%list_elem_of_singleton. done.
    - intros q Hq. rewrite list_elem_of_singleton.
      destruct (decide (q = operand)) as [-> | Hne]; [done|].
      rewrite Hne2 by done. destruct (Hall q Hq) as [_ ->]. done.
    - intros q o Hq Ho ->%list_elem_of_singleton.
      assert (q = indirSrc) as -> by by eapply (TreeOrder_parent_inj ops l0).
      split; [by rewrite list_elem_of_singleton|].
      intros q' Hq'. by apply Hdisj. }
  exists b, s'. split; [done|]. split; [|split; [done|]].
  - apply gtNodes_eq.
    + intros q. apply unmark_eq; [by rewrite Hu|].
      destruct (decide (q ∈ l0)) as [Hq | Hq].
      * rewrite Hin by done. by destruct (Hall q Hq) as [_ ->].
      * rewrite Hout by done. rewrite Hne2; [done|]. by intros ->.
    + intros q. by rewrite Hk.
  - intros _. by repeat split.
Qed.
Lemma Op_nodes_eq s s' p i : gtNodes s' = gtNodes s → Op s' p i = Op s p i.
Proof. intros H. unfold Op. by rewrite (gt_nodes_eq s s'). Qed.

Lemma StoreIndWellFormed_nodes_eq s s' storeInd :
  gtNodes s' = gtNodes s → m_blockRange s' = m_blockRange s →
  StoreIndWellFormed s storeInd → StoreIndWellFormed s' storeInd.
Proof.
  intros Hn Hr. unfold StoreIndWellFormed. rewrite Hn, Hr.
  assert (Hgt : gt s' = gt s).
  { unfold gt. by rewrite Hn. }
  by rewrite Hgt.
Qed.

Lemma DetectorResult_SetRMWStatus s s1 storeInd st r :
  gtNodes s1 = gtNodes s → m_blockRange s1 = m_blockRange s →
  is_Some (gtNodes s !! storeInd) →
  rmwFound r = RMWStatus_IsRMW st →
  (RMWStatus_IsRMW st = false → r = rmwNo) →
  DetectorResult s storeInd st r (SetRMWStatus storeInd st s1).
Proof.
  intros Hn Hr Hsome Hfound Hno. unfold DetectorResult, GetRMWStatus, SetRMWStatus.
  rewrite gt_gtUpd_eq by by rewrite Hn. rewrite (gt_nodes_eq s s1) by done.
  repeat split; try done.
  intros q Hq. rewrite gt_gtUpd_ne by done. by apply gt_nodes_eq.
Qed.

Lemma IsRMWMemOpRootedAtStoreInd_finish_spec comp s s1 storeInd indirDst cand src st :
  gtNodes s1 = gtNodes s → m_blockRange s1 = m_blockRange s →
  is_Some (gtNodes s !! storeInd) →
  RMWStatus_IsRMW st = true →
  ∃ st' r s',
    IsRMWMemOpRootedAtStoreInd_finish comp storeInd indirDst cand src st s1 = (r, s')
    ∧ DetectorResult s storeInd st' r s'
    ∧ (st' = st ∨ st' = STOREIND_RMW_UNSUPPORTED_ADDR)
    ∧ (st' = st → outIndirCandidate r = cand ∧ outIndirOpSource r = src).
Proof.
  intros Hn Hr Hsome Hst. unfold IsRMWMemOpRootedAtStoreInd_finish.
  destruct (IsSafeToContainMem comp s1 storeInd indirDst); cbn [negb].
  - exists st, (mkRMWResult true cand src), (SetRMWStatus storeInd st s1).
    split; [done|]. split; [|split; [by left|done]].
    apply DetectorResult_SetRMWStatus; try done. intros H. by rewrite H in Hst.
  - exists STOREIND_RMW_UNSUPPORTED_ADDR, rmwNo,
      (SetRMWStatus storeInd STOREIND_RMW_UNSUPPORTED_ADDR s1).
    split; [done|]. split; [by apply DetectorResult_SetRMWStatus|]. split; [by right|].
    intros <-. done.
Qed.
Ltac rmw_leaf Hout :=
  repeat split; intros;
  first [done | by apply Hout | by left | by right | (exfalso; eauto; fail) | congruence
        | match goal with H1 : ?x ∉ ?l, H2 : ?x ∈ ?l |- _ => destruct (H1 H2) end].

(** The detector, run on a store of unknown status in a well-formed range,
    answers and caches one of five statuses; it tests, in this order, the
    destination address, the overflow check, the operator, and for shifts and
    rotates the width of the store, before it looks for the indirection. *)
Lemma IsRMWMemOpRootedAtStoreInd_unknown comp s storeInd :
  let indirDst := gtGetOp1 s storeInd in
  let indirSrc := gtGetOp2 s storeInd in
  let oper := gtOper (gt s indirSrc) in
  let addrSupported :=
    OperIs s indirDst GT_LEA || OperIs s indirDst GT_LCL_VAR || OperIs s indirDst GT_CNS_INT
    || IsLclVarAddr s indirDst in
  GetRMWStatus s storeInd = STOREIND_RMW_STATUS_UNKNOWN →
  StoreIndWellFormed s storeInd →
  ∃ st r s',
    IsRMWMemOpRootedAtStoreInd comp storeInd s = Some (r, s')
    ∧ DetectorResult s storeInd st r s'
    ∧ st ∈ [STOREIND_RMW_DST_IS_OP1; STOREIND_RMW_DST_IS_OP2; STOREIND_RMW_UNSUPPORTED_ADDR;
            STOREIND_RMW_UNSUPPORTED_OPER; STOREIND_RMW_UNSUPPORTED_TYPE]
    ∧ (addrSupported = false → st = STOREIND_RMW_UNSUPPORTED_ADDR)
    ∧ (addrSupported = true → gtOverflowEx s indirSrc = true →
       st = STOREIND_RMW_UNSUPPORTED_OPER)
    ∧ (addrSupported = true → gtOverflowEx s indirSrc = false →
       (OperIsBinary oper = true → OperIsRMWMemOp oper = false →
        st = STOREIND_RMW_UNSUPPORTED_OPER)
       ∧ (OperIsBinary oper = true → OperIsRMWMemOp oper = true →
          OperIsShiftOrRotate oper = true → varTypeIsSmall (gtType (gt s storeInd)) = true →
          st = STOREIND_RMW_UNSUPPORTED_TYPE)
       ∧ (OperIsBinary oper = false → oper ∉ [GT_NOT; GT_NEG] →
          st = STOREIND_RMW_UNSUPPORTED_OPER)
       ∧ (OperIsBinary oper = false → oper ∈ [GT_NOT; GT_NEG] →
          gtOper (gt s (gtGetOp1 s indirSrc)) ≠ GT_IND →
          st = STOREIND_RMW_UNSUPPORTED_ADDR))
    ∧ (st = STOREIND_RMW_DST_IS_OP1 →
       outIndirCandidate r = gtGetOp1 s indirSrc
       ∧ outIndirOpSource r
         = (if OperIsBinary oper then gtGetOp2 s indirSrc else gtGetOp1 s indirSrc)
       ∧ OperIs s (gtGetOp1 s indirSrc) GT_IND = true
       ∧ gtOper (gt s (gtGetOp1 s (gtGetOp1 s indirSrc))) = gtOper (gt s indirDst)
       ∧ (OperIsBinary oper = true ∨ oper ∈ [GT_NOT; GT_NEG]))
    ∧ (st = STOREIND_RMW_DST_IS_OP2 →
       OperIsCommutative oper = true
       ∧ outIndirCandidate r = gtGetOp2 s indirSrc
       ∧ outIndirOpSource r = gtGetOp1 s indirSrc
       ∧ OperIs s (gtGetOp2 s indirSrc) GT_IND = true
       ∧ gtOper (gt s (gtGetOp1 s (gtGetOp2 s indirSrc))) = gtOper (gt s indirDst)).
Proof.
  intros indirDst indirSrc oper addrSupported Hunk Hwf.
  assert (Hsome : is_Some (gtNodes s !! storeInd)).
  { destruct Hwf as (_ & _ & Hall). apply Forall_cons in Hall as [[H _] _]. done. }
  unfold IsRMWMemOpRootedAtStoreInd, IsNonRMWMemoryOp, IsRMWMemoryOp.
  rewrite Hunk. cbn [RMWStatus_IsNonRMW RMWStatus_IsRMW].
  fold indirDst indirSrc. fold oper.
  assert (Hcond : negb (OperIs s indirDst GT_LEA || OperIs s indirDst GT_LCL_VAR
                        || OperIs s indirDst GT_CNS_INT) && negb (IsLclVarAddr s indirDst)
                  = negb addrSupported).
  { unfold addrSupported. by rewrite (negb_orb _ (IsLclVarAddr s indirDst)). }
  rewrite Hcond. clear Hcond. clearbody addrSupported.
  assert (Hleaf : ∀ st, RMWStatus_IsRMW st = false →
            DetectorResult s storeInd st rmwNo (SetRMWStatus storeInd st s)).
  { intros st Hst. apply DetectorResult_SetRMWStatus; by rewrite ?Hst. }
  destruct addrSupported; cbn [negb].
  2: { eexists _, _, _. split; [reflexivity|]. split; [by apply Hleaf|].
       split; [set_solver|]. repeat split; intros; try done. }
  destruct (gtOverflowEx s indirSrc) eqn:Eovf.
  { eexists _, _, _. split; [reflexivity|]. split; [by apply Hleaf|].
    split; [set_solver|]. repeat split; intros; try done. }
  destruct (OperIsBinary oper) eqn:Ebin.
  - destruct (OperIsRMWMemOp oper) eqn:Ermw; cbn [negb].
    2: { eexists _, _, _. split; [reflexivity|]. split; [by apply Hleaf|].
         split; [set_solver|]. repeat split; intros; try done. }
    destruct (OperIsShiftOrRotate oper && varTypeIsSmall (gtType (gt s storeInd))) eqn:Esh.
    { eexists _, _, _. split; [reflexivity|]. split; [by apply Hleaf|].
      split; [set_solver|]. repeat split; intros; try done. }
    assert (Hnotype : OperIsShiftOrRotate oper = true →
                      varTypeIsSmall (gtType (gt s storeInd)) = true → False).
    { intros H1 H2. by rewrite H1, H2 in Esh. }
    assert (Hfirst : ∃ b2 s2,
              (if OperIsCommutative oper
               then IsRMWIndirCandidate comp (gtGetOp2 s indirSrc) storeInd s
               else Some (false, s)) = Some (b2, s2)
              ∧ gtNodes s2 = gtNodes s ∧ m_blockRange s2 = m_blockRange s
              ∧ (b2 = true → OperIsCommutative oper = true
                 ∧ OperIs s (gtGetOp2 s indirSrc) GT_IND = true
                 ∧ gtOper (gt s (gtGetOp1 s (gtGetOp2 s indirSrc))) = gtOper (gt s indirDst))).
    { destruct (OperIsCommutative oper).
      - destruct (IsRMWIndirCandidate_total comp s storeInd 2 Hwf)
          as (b2 & s2 & H1 & H2 & H3 & H4).
        exists b2, s2. repeat split; try done; by apply H4.
      - exists false, s. by repeat split. }
    destruct Hfirst as (b2 & s2 & -> & Hn2 & Hr2 & Hb2). cbn [mbind option_bind].
    destruct b2.
    + destruct (IsRMWMemOpRootedAtStoreInd_finish_spec comp s s2 storeInd indirDst
                  (gtGetOp2 s2 indirSrc) (gtGetOp1 s2 indirSrc) STOREIND_RMW_DST_IS_OP2
                  Hn2 Hr2 Hsome eq_refl) as (st' & r & s' & -> & Hres & Hst & Hout).
      unfold gtGetOp1, gtGetOp2 in Hout. rewrite !(Op_nodes_eq s s2) in Hout by done.
      exists st', r, s'. split; [done|]. split; [done|].
      destruct (Hb2 eq_refl) as (Hc1 & Hc2 & Hc3).
      destruct Hst as [-> | ->].
      * split; [set_solver|]. rmw_leaf Hout.
      * split; [set_solver|]. rmw_leaf Hout.
    + assert (Hwf2 : StoreIndWellFormed s2 storeInd) by by eapply StoreIndWellFormed_nodes_eq.
      pose proof (IsRMWIndirCandidate_total comp s2 storeInd 1 Hwf2) as Hsecond.
      cbv zeta in Hsecond. unfold gtGetOp1, gtGetOp2 in *.
      rewrite !(Op_nodes_eq s s2) in * by done. fold indirSrc in Hsecond.
      destruct Hsecond as (b1 & s1 & -> & Hn1 & Hr1 & Hb1). cbn [mbind option_bind].
      rewrite Hn2 in Hn1. rewrite Hr2 in Hr1.
      destruct b1.
      * destruct (IsRMWMemOpRootedAtStoreInd_finish_spec comp s s1 storeInd indirDst
                    (Op s1 indirSrc 1) (Op s1 indirSrc 2) STOREIND_RMW_DST_IS_OP1
                    Hn1 Hr1 Hsome eq_refl) as (st' & r & s' & -> & Hres & Hst & Hout).
        rewrite !(Op_nodes_eq s s1) in Hout by done.
        exists st', r, s'. split; [done|]. split; [done|].
        destruct (Hb1 eq_refl) as (Hc1 & Hc2 & _).
        assert (Hgt2 : ∀ q, gt s2 q = gt s q) by (intros q; by apply gt_nodes_eq).
        unfold OperIs in Hc1. rewrite !Hgt2 in Hc1. rewrite !Hgt2 in Hc2.
        destruct Hst as [-> | ->].
        -- split; [set_solver|]. rmw_leaf Hout.
        -- split; [set_solver|]. rmw_leaf Hout.
      * eexists _, _, _. split; [reflexivity|].
        split; [apply DetectorResult_SetRMWStatus; done|].
        split; [set_solver|]. rmw_leaf Hsome.
  - assert (Hdec : oper ∈ [GT_NOT; GT_NEG] ∨ oper ∉ [GT_NOT; GT_NEG]).
    { destruct (decide (oper ∈ [GT_NOT; GT_NEG])); [by left|by right]. }
    destruct Hdec as [Hin | Hnin].
    + assert (Hun : OperIsUnary oper = true).
      { apply elem_of_cons in Hin as [-> | Hin]; [done|].
        apply elem_of_cons in Hin as [-> | Hin]; [done|]. by apply elem_of_nil in Hin. }
      assert (Hnn : bool_decide (oper ≠ GT_NOT) && bool_decide (oper ≠ GT_NEG) = false).
      { apply elem_of_cons in Hin as [-> | Hin]; [done|].
        apply elem_of_cons in Hin as [-> | Hin]; [done|]. by apply elem_of_nil in Hin. }
      rewrite Hun, Hnn.
      destruct (bool_decide (gtOper (gt s (gtGetOp1 s indirSrc)) ≠ GT_IND)) eqn:Eind.
      { apply bool_decide_eq_true in Eind.
        eexists _, _, _. split; [reflexivity|]. split; [by apply Hleaf|].
        split; [set_solver|]. rmw_leaf Hsome. }
      apply bool_decide_eq_false in Eind. apply dec_stable in Eind.
      pose proof (IsRMWIndirCandidate_total comp s storeInd 1 Hwf) as Hcand.
      cbv zeta in Hcand. unfold gtGetOp1, gtGetOp2 in *. fold indirSrc in Hcand.
      destruct Hcand as (b1 & s1 & -> & Hn1 & Hr1 & Hb1). cbn [mbind option_bind].
      destruct b1.
      * destruct (IsRMWMemOpRootedAtStoreInd_finish_spec comp s s1 storeInd indirDst
                    (Op s1 indirSrc 1) (Op s1 indirSrc 1) STOREIND_RMW_DST_IS_OP1
                    Hn1 Hr1 Hsome eq_refl) as (st' & r & s' & -> & Hres & Hst & Hout).
        rewrite !(Op_nodes_eq s s1) in Hout by done.
        exists st', r, s'. split; [done|]. split; [done|].
        destruct (Hb1 eq_refl) as (Hc1 & Hc2 & _).
        destruct Hst as [-> | ->].
        -- split; [set_solver|]. rmw_leaf Hout.
        -- split; [set_solver|]. rmw_leaf Hout.
      * eexists _, _, _. split; [reflexivity|].
        split; [apply DetectorResult_SetRMWStatus; done|].
        split; [set_solver|]. rmw_leaf Hsome.
    + assert (Hoperleaf :
        (if OperIsUnary oper
         then if bool_decide (oper ≠ GT_NOT) && bool_decide (oper ≠ GT_NEG)
              then Some (rmwNo, SetRMWStatus storeInd STOREIND_RMW_UNSUPPORTED_OPER s)
              else if bool_decide (gtOper (gt s (gtGetOp1 s indirSrc)) ≠ GT_IND)
                   then Some (rmwNo, SetRMWStatus storeInd STOREIND_RMW_UNSUPPORTED_ADDR s)
                   else '(isOp1, s1) ← IsRMWIndirCandidate comp (gtGetOp1 s indirSrc) storeInd s;
                        (if (isOp1 : bool)
                         then Some (IsRMWMemOpRootedAtStoreInd_finish comp storeInd indirDst
                                      (gtGetOp1 s1 indirSrc) (gtGetOp1 s1 indirSrc)
                                      STOREIND_RMW_DST_IS_OP1 s1)
                         else Some (rmwNo,
                                    SetRMWStatus storeInd STOREIND_RMW_UNSUPPORTED_ADDR s1))
         else Some (rmwNo, SetRMWStatus storeInd STOREIND_RMW_UNSUPPORTED_OPER s))
        = Some (rmwNo, SetRMWStatus storeInd STOREIND_RMW_UNSUPPORTED_OPER s)).
      { destruct (OperIsUnary oper); [|done].
        assert (oper ≠ GT_NOT ∧ oper ≠ GT_NEG) as [H1 H2].
        { split; intros E; apply Hnin; rewrite E; repeat constructor. }
        rewrite (bool_decide_eq_true_2 (oper ≠ GT_NOT)) by done.
        by rewrite (bool_decide_eq_true_2 (oper ≠ GT_NEG)) by done. }
      rewrite Hoperleaf.
      eexists _, _, _. split; [reflexivity|]. split; [by apply Hleaf|].
      split; [set_solver|]. rmw_leaf Hsome.
Qed.

Lemma DetectorResult_proj {A} (proj : GenTree → A) s storeInd st r s' :
  (∀ n x, proj (set_gtRMWStatus n x) = proj n) →
  DetectorResult s storeInd st r s' → ∀ q, proj (gt s' q) = proj (gt s q).
Proof.
  intros Hp (_ & _ & _ & Hst & Hother & _) q.
  destruct (decide (q = storeInd)) as [-> | Hq]; [by rewrite Hst | by rewrite Hother].
Qed.

Lemma DetectorResult_Op s storeInd st r s' p i :
  DetectorResult s storeInd st r s' → Op s' p i = Op s p i.
Proof.
  intros H. unfold Op. by rewrite (DetectorResult_proj gtOperands _ _ _ _ _ (λ _ _, eq_refl) H).
Qed.

Lemma OperIsCommutative_binary o : OperIsCommutative o = true → OperIsBinary o = true.
Proof. by destruct o. Qed.

Lemma RMWResult_eq r c o :
  rmwFound r = true → outIndirCandidate r = c → outIndirOpSource r = o →
  r = mkRMWResult true c o.
Proof. destruct r. cbn. by intros -> -> ->. Qed.

(** The status is a cache: the detector, called again on the state it left,
    gives the same answer and the same two nodes, and changes nothing. *)
Lemma IsRMWMemOpRootedAtStoreInd_again comp s storeInd :
  GetRMWStatus s storeInd = STOREIND_RMW_STATUS_UNKNOWN →
  StoreIndWellFormed s storeInd →
  ∃ r s',
    IsRMWMemOpRootedAtStoreInd comp storeInd s = Some (r, s')
    ∧ IsRMWMemOpRootedAtStoreInd comp storeInd s' = Some (r, s')
    ∧ GetRMWStatus s' storeInd ≠ STOREIND_RMW_STATUS_UNKNOWN.
Proof.
  intros Hunk Hwf.
  destruct (IsRMWMemOpRootedAtStoreInd_unknown comp s storeInd Hunk Hwf)
    as (st & r & s' & Hrun & Hres & Hst & _ & _ & _ & Hop1 & Hop2).
  exists r, s'. split; [done|].
  pose proof (DetectorResult_proj gtOper _ _ _ _ _ (λ _ _, eq_refl) Hres) as Hoper.
  pose proof (λ p i, DetectorResult_Op _ _ _ _ _ p i Hres) as HOp.
  destruct Hres as (Hstatus & Hfound & Hno & _).
  unfold IsRMWMemOpRootedAtStoreInd, IsNonRMWMemoryOp, IsRMWMemoryOp, IsRMWDstOp1.
  unfold gtGetOp1, gtGetOp2 in *. rewrite Hstatus, !Hoper, !HOp.
  repeat (apply elem_of_cons in Hst as [-> | Hst]); [..|by apply elem_of_nil in Hst];
    cbn [RMWStatus_IsNonRMW RMWStatus_IsRMW] in *.
  - destruct (Hop1 eq_refl) as (Hc & Ho & _). split; [|done].
    rewrite bool_decide_eq_true_2 by done.
    rewrite (RMWResult_eq r _ _ Hfound Hc Ho).
    by destruct (OperIsBinary _).
  - destruct (Hop2 eq_refl) as (Hcomm & Hc & Ho & _). split; [|done].
    rewrite (OperIsCommutative_binary _ Hcomm).
    rewrite bool_decide_eq_false_2 by done.
    by rewrite (RMWResult_eq r _ _ Hfound Hc Ho).
  - by rewrite Hno.
  - by rewrite Hno.
  - by rewrite Hno.
Qed.
Lemma gt_gtUpd_pred (P : GenTree → Prop) p f s q :
  (∀ n, P n → P (f n)) → P (gt s q) → P (gt (gtUpd p f s) q).
Proof.
  intros Hf H. unfold gt, gtUpd in *. simpl. rewrite lookup_alter.
  case_decide; subst; [|done]. destruct (gtNodes s !! q); simpl in *; auto.
Qed.

Lemma FlagsOnly_refl s : FlagsOnly s s.
Proof. by repeat split. Qed.

Lemma FlagsOnly_gtUpd s s1 p f :
  (∀ n, unflag (f n) = unflag n) → FlagsOnly s s1 → FlagsOnly s (gtUpd p f s1).
Proof.
  intros Hf (Hu & Hk & Hr). split; [|split].
  - intros q. rewrite <- Hu. by apply (gt_gtUpd_proj unflag).
  - intros q. rewrite <- Hk. apply gtUpd_is_Some.
  - done.
Qed.

Lemma FlagsOnly_SetContained s s1 p : FlagsOnly s s1 → FlagsOnly s (SetContained p s1).
Proof. unfold SetContained. by apply FlagsOnly_gtUpd. Qed.

Lemma FlagsOnly_ClearContained s s1 p : FlagsOnly s s1 → FlagsOnly s (ClearContained p s1).
Proof. unfold ClearContained. by apply FlagsOnly_gtUpd. Qed.

Lemma FlagsOnly_ClearRegOptional s s1 p :
  FlagsOnly s s1 → FlagsOnly s (ClearRegOptional p s1).
Proof. unfold ClearRegOptional. by apply FlagsOnly_gtUpd. Qed.

Lemma FlagsOnly_SetRegOptional s s1 p : FlagsOnly s s1 → FlagsOnly s (SetRegOptional p s1).
Proof. unfold SetRegOptional. by apply FlagsOnly_gtUpd. Qed.

Lemma FlagsOnly_proj {A} (proj : GenTree → A) s s' :
  (∀ n, proj (unflag n) = proj n) → FlagsOnly s s' → ∀ q, proj (gt s' q) = proj (gt s q).
Proof. intros Hp (Hu & _) q. rewrite <- (Hp (gt s' q)), <- (Hp (gt s q)). by rewrite Hu. Qed.

Lemma FlagsOnly_Op s s' p i : FlagsOnly s s' → Op s' p i = Op s p i.
Proof. intros H. unfold Op. by rewrite (FlagsOnly_proj gtOperands s s'). Qed.

Lemma FlagsOnly_OperIs s s' p o : FlagsOnly s s' → OperIs s' p o = OperIs s p o.
Proof. intros H. unfold OperIs. by rewrite (FlagsOnly_proj gtOper s s'). Qed.

Lemma isContained_SetContained_mono p s q :
  isContained s q = true → isContained (SetContained p s) q = true.
Proof.
  unfold isContained, SetContained. apply (gt_gtUpd_pred (λ n, GTF_CONTAINED n = true)). done.
Qed.

Lemma RegOptional_SetContained p s q :
  LIR_RegOptional (gt (SetContained p s) q) = LIR_RegOptional (gt s q).
Proof. unfold SetContained. by apply (gt_gtUpd_proj LIR_RegOptional). Qed.

Lemma RMWStatus_flag_proj p f s q :
  (∀ n, gtRMWStatus (f n) = gtRMWStatus n) →
  GetRMWStatus (gtUpd p f s) q = GetRMWStatus s q.
Proof. intros H. unfold GetRMWStatus. by apply (gt_gtUpd_proj gtRMWStatus). Qed.

(** What [LowerRMWMemOp] does with the answer of the detector. *)
Lemma LowerRMWMemOp_result comp s storeInd :
  let indirSrc := gtGetOp2 s storeInd in
  GetRMWStatus s storeInd = STOREIND_RMW_STATUS_UNKNOWN →
  StoreIndWellFormed s storeInd →
  ∃ r s1 s',
    IsRMWMemOpRootedAtStoreInd comp storeInd s = Some (r, s1)
    ∧ LowerRMWMemOp comp storeInd s = Some (rmwFound r, s')
    ∧ rmwFound r = IsRMWMemoryOp s1 storeInd
    ∧ (rmwFound r = false → s' = s1)
    ∧ (rmwFound r = true →
       outIndirCandidate r ∈ gtOperands (gt s indirSrc)
       ∧ FlagsOnly s1 s'
       ∧ isContained s' indirSrc = true
       ∧ isContained s' (outIndirCandidate r) = true
       ∧ isContained s' (gtGetOp1 s (outIndirCandidate r)) = true
       ∧ LIR_RegOptional (gt s' (gtGetOp1 s indirSrc)) = false).
Proof.
  intros indirSrc Hunk Hwf.
  destruct (IsRMWMemOpRootedAtStoreInd_unknown comp s storeInd Hunk Hwf)
    as (st & r & s1 & Hrun & Hres & Hst & Haddr & _ & _ & Hop1 & Hop2).
  pose proof (DetectorResult_proj gtOper _ _ _ _ _ (λ _ _, eq_refl) Hres) as Hoper.
  pose proof (λ p i, DetectorResult_Op _ _ _ _ _ p i Hres) as HOp.
  pose proof (DetectorResult_proj gtOperands _ _ _ _ _ (λ _ _, eq_refl) Hres) as Hopnds.
  destruct Hres as (Hstatus & Hfound & Hno & _).
  unfold LowerRMWMemOp. rewrite Hrun. cbn [mbind option_bind].
  exists r, s1.
  assert (Hrmw : rmwFound r = IsRMWMemoryOp s1 storeInd).
  { unfold IsRMWMemoryOp. by rewrite Hstatus. }
  destruct (rmwFound r) eqn:Ef; cbn [negb].
  2: { exists s1. by repeat split. }
  unfold gtGetOp1, gtGetOp2 in *. fold indirSrc in Hop1, Hop2.
  assert (H0 : gtNodes s !! 0 = None) by by destruct Hwf.
  assert (Hfacts : ∃ i, outIndirCandidate r = Op s indirSrc i
            ∧ OperIs s (outIndirCandidate r) GT_IND = true
            ∧ gtOper (gt s (Op s (outIndirCandidate r) 1)) = gtOper (gt s (Op s storeInd 1))
            ∧ (OperIs s (Op s storeInd 1) GT_LEA || OperIs s (Op s storeInd 1) GT_LCL_VAR
               || OperIs s (Op s storeInd 1) GT_CNS_INT || IsLclVarAddr s (Op s storeInd 1))
              = true).
  { assert (Hsup : (OperIs s (Op s storeInd 1) GT_LEA || OperIs s (Op s storeInd 1) GT_LCL_VAR
               || OperIs s (Op s storeInd 1) GT_CNS_INT || IsLclVarAddr s (Op s storeInd 1))
              = true).
    { destruct (_ || _ || _ || _) eqn:E; [done|].
      specialize (Haddr eq_refl). rewrite Haddr in Hfound. by cbn in Hfound. }
    repeat (apply elem_of_cons in Hst as [-> | Hst]); [..|by apply elem_of_nil in Hst];
      cbn in Hfound; try done.
    - destruct (Hop1 eq_refl) as (Hc & _ & Hind & Hch & _). exists 1.
      rewrite Hc. by repeat split.
    - destruct (Hop2 eq_refl) as (_ & Hc & _ & Hind & Hch). exists 2.
      rewrite Hc. by repeat split. }
  destruct Hfacts as (i & Hcand & Hind & Hchild & Hsup).
  set (cand := outIndirCandidate r) in *.
  set (child := Op s cand 1) in *.
  assert (Hcand_some : is_Some (gtNodes s1 !! cand)).
  { apply (OperIs_is_Some _ _ GT_IND); [done|]. unfold OperIs. by rewrite Hoper. }
  assert (Hcand0 : cand ≠ 0).
  { intros E. apply (OperIs_is_Some _ _ GT_IND) in Hind; [|done].
    rewrite E, H0 in Hind. by destruct Hind. }
  assert (Hcand_in : cand ∈ gtOperands (gt s indirSrc)) by by apply (Op_elem s indirSrc i).
  assert (Hsrc_some : is_Some (gtNodes s1 !! indirSrc)).
  { apply operands_is_Some. rewrite Hopnds. intros E. rewrite E in Hcand_in.
    by apply elem_of_nil in Hcand_in. }
  assert (Hchild_some : is_Some (gtNodes s1 !! child)).
  { apply gt_is_Some. rewrite Hoper, Hchild.
    unfold IsLclVarAddr, OperIs in Hsup.
    destruct (gtOper (gt s (Op s storeInd 1))); try done. }
  rewrite !HOp. fold indirSrc. rewrite !Hoper.
  set (s2 := ClearRegOptional (Op s indirSrc 1) s1).
  assert (F2 : FlagsOnly s1 s2) by apply FlagsOnly_ClearRegOptional, FlagsOnly_refl.
  assert (R2 : LIR_RegOptional (gt s2 (Op s indirSrc 1)) = false).
  { unfold s2, ClearRegOptional, gt, gtUpd. simpl. rewrite lookup_alter, decide_True by done.
    by destruct (gtNodes s1 !! Op s indirSrc 1). }
  set (s3 := if OperIsBinary (gtOper (gt s indirSrc)) then _ else s2).
  assert (F3 : FlagsOnly s1 s3 ∧ LIR_RegOptional (gt s3 (Op s indirSrc 1)) = false).
  { unfold s3. destruct (OperIsBinary _); [|done].
    destruct (IsContainableMemoryOp comp s2 (outIndirOpSource r)).
    - split; [by apply FlagsOnly_ClearRegOptional, FlagsOnly_ClearContained, F2|].
      unfold ClearRegOptional, ClearContained.
      apply (gt_gtUpd_pred (λ n, LIR_RegOptional n = false)); [done|].
      by apply (gt_gtUpd_pred (λ n, LIR_RegOptional n = false)).
    - split; [by apply FlagsOnly_ClearRegOptional|].
      unfold ClearRegOptional.
      by apply (gt_gtUpd_pred (λ n, LIR_RegOptional n = false)). }
  destruct F3 as [F3 R3]. clearbody s3.
  set (s4 := SetContained indirSrc s3).
  set (s5 := SetContained cand s4).
  assert (F5 : FlagsOnly s1 s5) by by apply FlagsOnly_SetContained, FlagsOnly_SetContained, F3.
  rewrite (FlagsOnly_Op s1 s5) by done. rewrite HOp. fold child.
  set (s6 := SetContained child s5).
  assert (F6 : FlagsOnly s1 s6) by by apply FlagsOnly_SetContained.
  assert (P6 : isContained s6 indirSrc = true ∧ isContained s6 cand = true
               ∧ isContained s6 child = true
               ∧ LIR_RegOptional (gt s6 (Op s indirSrc 1)) = false).
  { split; [|split; [|split]].
    - unfold s6, s5. do 2 apply isContained_SetContained_mono.
      apply isContained_SetContained_eq. by apply F3.
    - unfold s6. apply isContained_SetContained_mono.
      apply isContained_SetContained_eq.
      pose proof (FlagsOnly_SetContained s1 s3 indirSrc F3) as F4. by apply F4.
    - apply isContained_SetContained_eq. by apply F5.
    - unfold s6, s5, s4. by rewrite !RegOptional_SetContained. }
  clearbody s6.
  assert (Hstep : ∀ p sA,
            FlagsOnly s1 sA ∧ isContained sA indirSrc = true ∧ isContained sA cand = true
            ∧ isContained sA child = true
            ∧ LIR_RegOptional (gt sA (Op s indirSrc 1)) = false →
            FlagsOnly s1 (SetContained p sA) ∧ isContained (SetContained p sA) indirSrc = true
            ∧ isContained (SetContained p sA) cand = true
            ∧ isContained (SetContained p sA) child = true
            ∧ LIR_RegOptional (gt (SetContained p sA) (Op s indirSrc 1)) = false).
  { intros p sA (HF & H1 & H2 & H3 & H4).
    split; [by apply FlagsOnly_SetContained|].
    rewrite RegOptional_SetContained. repeat split; try done;
      by apply isContained_SetContained_mono. }
  assert (Hfin : ∀ sA,
            FlagsOnly s1 sA ∧ isContained sA indirSrc = true ∧ isContained sA cand = true
            ∧ isContained sA child = true
            ∧ LIR_RegOptional (gt sA (Op s indirSrc 1)) = false →
            cand ∈ gtOperands (gt s indirSrc) ∧ FlagsOnly s1 sA
            ∧ isContained sA indirSrc = true ∧ isContained sA cand = true
            ∧ isContained sA child = true
            ∧ LIR_RegOptional (gt sA (Op s indirSrc 1)) = false).
  { intros sA H. by split. }
  assert (P6' := conj F6 P6).
  destruct (OperIs s6 child GT_LEA).
  { eexists. split; [reflexivity|]. split; [reflexivity|]. split; [done|]. split; [done|].
    intros _.
    apply Hfin. apply Hstep.
    destruct (bool_decide (Op _ child 2 ≠ 0)), (bool_decide (Op s6 child 1 ≠ 0));
      repeat apply Hstep; done. }
  destruct (OperIs s6 child GT_LCL_ADDR && _).
  { eexists. split; [reflexivity|]. split; [reflexivity|]. split; [done|]. split; [done|].
    intros _.
    by apply Hfin, Hstep. }
  destruct (IsCnsIntOrI s6 child && _).
  { eexists. split; [reflexivity|]. split; [reflexivity|]. split; [done|]. split; [done|].
    intros _.
    by apply Hfin, Hstep. }
  eexists. split; [reflexivity|]. split; [reflexivity|]. split; [done|]. split; [done|].
    intros _.
  by apply Hfin.
Qed.

Ltac wf_compute := unfold StoreIndWellFormed, TreeOrder; repeat split; by_compute.









(** ** Flag immediates *)

(** X5: for each of the ten integer conditions [TruthifyingFlags] returns a
    flag immediate under which the condition holds (with exactly the flags of
    the immediate set); for every other condition code it does not return
    (the [NO_WAY]). *)
Theorem TruthifyingFlags_makes_condition_true condition f :
  TruthifyingFlags condition = Some f →
  GenCondition_holds condition (insCflags_state f) = Some true
  ∧ condition ∈ [GenCondition_EQ; GenCondition_NE; GenCondition_SLT; GenCondition_SLE;
                 GenCondition_SGE; GenCondition_SGT; GenCondition_ULT; GenCondition_ULE;
                 GenCondition_UGE; GenCondition_UGT].
Proof.
  destruct condition; cbn; intros [= <-]; (split; [reflexivity|]); repeat constructor.
Qed.

Lemma TruthifyingFlags_makes_condition_true_witness :
  GenCondition_holds GenCondition_SLT (insCflags_state INS_FLAGS_SF) = Some true.
Proof.
  apply (TruthifyingFlags_makes_condition_true GenCondition_SLT INS_FLAGS_SF). reflexivity.
Defined.

(** ** Reg-optional preference *)

(** X6: with two operands at hand, when exactly one of them is a local
    variable it is the preferred one, in either order of the arguments; when
    both are tracked locals that may be enregistered, with different weighted
    reference counts, the one with the lower count is preferred, in either
    order; in every other case the order decides: with equal counts of two
    such locals the second argument is preferred, otherwise the first. *)
Theorem PreferredRegOptionalOperand_order lvaGetDesc s op1 op2 :
  let isLcl1 := OperIs s op1 GT_LCL_VAR in
  let isLcl2 := OperIs s op2 GT_LCL_VAR in
  let v1 := lvaGetDesc (gtLclNum (gt s op1)) in
  let v2 := lvaGetDesc (gtLclNum (gt s op2)) in
  let bothCandidates :=
    isLcl1 && isLcl2 && negb (lvDoNotEnregister v1) && negb (lvDoNotEnregister v2)
    && lvTracked v1 && lvTracked v2 in
  let P := PreferredRegOptionalOperand lvaGetDesc s in
  op1 ≠ 0 → op2 ≠ 0 →
  (isLcl1 = true → isLcl2 = false → P op1 op2 = op1 ∧ P op2 op1 = op1)
  ∧ (isLcl1 = false → isLcl2 = true → P op1 op2 = op2 ∧ P op2 op1 = op2)
  ∧ (bothCandidates = true → (lvRefCntWtd v1 < lvRefCntWtd v2)%Z →
     P op1 op2 = op1 ∧ P op2 op1 = op1)
  ∧ (bothCandidates = true → (lvRefCntWtd v2 < lvRefCntWtd v1)%Z →
     P op1 op2 = op2 ∧ P op2 op1 = op2)
  ∧ (bothCandidates = true → lvRefCntWtd v1 = lvRefCntWtd v2 →
     P op1 op2 = op2 ∧ P op2 op1 = op1)
  ∧ (bothCandidates = false → isLcl1 = isLcl2 → P op1 op2 = op1 ∧ P op2 op1 = op2).
Proof.
  intros isLcl1 isLcl2 v1 v2 bothCandidates P H1 H2.
  unfold P, PreferredRegOptionalOperand.
  rewrite !(bool_decide_eq_false_2 (_ = 0)) by done.
  fold isLcl1 isLcl2 v1 v2. unfold bothCandidates.
  destruct isLcl1, isLcl2, (lvDoNotEnregister v1), (lvDoNotEnregister v2),
    (lvTracked v1), (lvTracked v2); cbn [andb negb];
    repeat split; intros; try done;
    repeat case_bool_decide; try done; lia.
Qed.

Lemma PreferredRegOptionalOperand_order_witness :
  PreferredRegOptionalOperand (λ n, mkLclVarDsc false true (Z.of_nat n)) storeAddOfInd 1 4 = 1
  ∧ PreferredRegOptionalOperand (λ n, mkLclVarDsc false true (Z.of_nat n)) storeAddOfInd 4 1 = 1.
Proof.
  destruct (PreferredRegOptionalOperand_order (λ n, mkLclVarDsc false true (Z.of_nat n))
              storeAddOfInd 1 4) as (_ & _ & H & _); [lia | lia |].
  apply H; [reflexivity | vm_compute; reflexivity].
Defined.

(** ** Byte swaps *)

Lemma LowerBswapOp_FlagsOnly comp node s : FlagsOnly s (LowerBswapOp comp node s).
Proof.
  unfold LowerBswapOp, MakeSrcContained.
  repeat case_match; first [apply FlagsOnly_refl | apply FlagsOnly_SetContained, FlagsOnly_refl].
Qed.

Lemma LowerBswapOp_other comp node s q :
  q ≠ gtGetOp1 s node → gt (LowerBswapOp comp node s) q = gt s q.
Proof.
  intros Hq. unfold LowerBswapOp, MakeSrcContained, SetContained.
  repeat case_match; try done; by rewrite gt_gtUpd_ne.
Qed.

(** X7: a byte swap that is stored is contained in the store, never together
    with its own operand.  Whatever [LowerBswapOp] decided for the operand of
    the swap, when the store of the swap is checked afterwards (optimizations
    on, the instruction set at hand, the swap as wide as the store and
    invariant in the range) the swap ends contained in the store and its
    operand not contained. *)
Theorem LowerBswapOp_then_ContainCheckStoreIndir comp s node src :
  let operand := gtGetOp1 s src in
  let addr := gtGetOp1 s node in
  let s1 := LowerBswapOp comp src s in
  let s' := ContainCheckStoreIndir comp node s1 in
  gtGetOp2 s node = src →
  OperIs s src GT_BSWAP = true ∨ OperIs s src GT_BSWAP16 = true →
  opts_OptimizationEnabled comp = true →
  compOpportunisticallyDependsOn comp InstructionSet_AVX2 = true →
  (if OperIs s src GT_BSWAP16 then 2 else genTypeSizeOf comp s src) = genTypeSizeOf comp s node →
  IsInvariantInRange comp s1 src node = true →
  src ≠ operand → addr ≠ src → addr ≠ operand →
  isContained s' src = true ∧ isContained s' operand = false.
Proof.
  intros operand addr s1 s' Hsrc Hoper Hopt Hisa Hsize Hinv Hso Has Hao.
  pose proof (LowerBswapOp_FlagsOnly comp src s) as F1. fold s1 in F1.
  assert (Hsrc_some : is_Some (gtNodes s !! src)).
  { destruct Hoper as [H | H]; eapply OperIs_is_Some; try exact H; done. }
  assert (HOp : ∀ p i, Op s1 p i = Op s p i) by (intros; by apply FlagsOnly_Op).
  assert (HIs : ∀ p o, OperIs s1 p o = OperIs s p o) by (intros; by apply FlagsOnly_OperIs).
  assert (Hty : ∀ p, gtType (gt s1 p) = gtType (gt s p)).
  { intros p. by apply (FlagsOnly_proj gtType s s1). }
  assert (Himm : IsContainableImmed comp s1 node src = false).
  { unfold IsContainableImmed, IsIntCnsFitsInI32, IsCnsIntOrI. rewrite HIs.
    unfold OperIs in *. destruct Hoper as [H | H]; apply bool_decide_eq_true in H;
      rewrite (bool_decide_eq_false_2 (_ = GT_CNS_INT)) by congruence; done. }
  unfold s', ContainCheckStoreIndir, gtGetOp1, gtGetOp2 in *.
  rewrite !HOp, Hsrc, Himm. cbn [andb]. rewrite Hopt, !HIs, Hisa.
  assert (Hor : OperIs s src GT_BSWAP || OperIs s src GT_BSWAP16 = true).
  { destruct Hoper as [-> | ->]; [done | by rewrite orb_true_r]. }
  rewrite Hor. cbn [andb]. unfold genTypeSizeOf in *. rewrite !Hty.
  rewrite bool_decide_eq_true_2 by done. rewrite Hinv. cbn [andb].
  rewrite !HOp. fold operand.
  set (s2 := MakeSrcContained node src (ClearContained operand s1)).
  assert (Haddr2 : Op s2 node 1 = addr).
  { unfold s2, MakeSrcContained, SetContained, ClearContained. by rewrite !Op_gtUpd, HOp. }
  assert (Hg1 : gtGetOp1 s2 node ≠ src) by (unfold gtGetOp1; by rewrite Haddr2).
  assert (Hg2 : gtGetOp1 s2 node ≠ operand) by (unfold gtGetOp1; by rewrite Haddr2).
  unfold isContained.
  rewrite (ContainCheckIndir_other comp node s2 src Hg1).
  rewrite (ContainCheckIndir_other comp node s2 operand Hg2).
  unfold s2, MakeSrcContained. split.
  - apply isContained_SetContained_eq. apply ClearContained_is_Some. by apply F1.
  - fold (isContained (SetContained src (ClearContained operand s1)) operand).
    rewrite isContained_SetContained_ne by done.
    unfold isContained, ClearContained, gt, gtUpd. simpl.
    rewrite lookup_alter, decide_True by done. by destruct (gtNodes s1 !! operand).
Qed.

Lemma LowerBswapOp_then_ContainCheckStoreIndir_witness :
  isContained (LowerBswapOp x64 4 storeOfBswap) 3 = true
  ∧ isContained (ContainCheckStoreIndir x64 5 (LowerBswapOp x64 4 storeOfBswap)) 4 = true
  ∧ isContained (ContainCheckStoreIndir x64 5 (LowerBswapOp x64 4 storeOfBswap)) 3 = false.
Proof.
  split; [by_compute|].
  apply (LowerBswapOp_then_ContainCheckStoreIndir x64 storeOfBswap 5 4);
    first [ left; by_compute | by_compute ].
Defined.

(** ** Shifts and rotates *)

(** X8: [ContainCheckShiftRotate] away from the long shifts of x86.  The
    count is contained exactly when it is a containable immediate between 0
    and 255, and is left alone otherwise.  The source is left alone whenever
    the node sets flags or the instruction set is missing, for a shift whose
    count is a contained immediate (the flagless shifts take the count in a
    register), and for a rotate whose count is not contained (the flagless
    rotate takes an immediate).  No other node changes. *)
Theorem ContainCheckShiftRotate_count_and_source comp s node :
  let source := gtGetOp1 s node in
  let shiftBy := gtGetOp2 s node in
  let oper := gtOper (gt s node) in
  let imm :=
    IsContainableImmed comp s node shiftBy
    && bool_decide (gtIconVal (gt s shiftBy) ≤ 255)%Z
    && bool_decide (0 ≤ gtIconVal (gt s shiftBy))%Z in
  let s' := ContainCheckShiftRotate comp node s in
  TARGET_X86 comp && (OperIs s node GT_LSH_HI || OperIs s node GT_RSH_LO) = false →
  source ≠ shiftBy →
  (imm = true → isContained s' shiftBy = true)
  ∧ (imm = false → gt s' shiftBy = gt s shiftBy)
  ∧ (OperIsShift oper = true → imm = true → gt s' source = gt s source)
  ∧ (OperIsShift oper = false → imm = false → isContained s shiftBy = false →
     gt s' source = gt s source)
  ∧ (GTF_SET_FLAGS (gt s node) = true
     ∨ compOpportunisticallyDependsOn comp InstructionSet_AVX2 = false →
     gt s' source = gt s source)
  ∧ (∀ q, q ≠ source → q ≠ shiftBy → gt s' q = gt s q).
Proof.
  intros source shiftBy oper imm s' Hx86 Hne.
  unfold s', ContainCheckShiftRotate. rewrite Hx86.
  fold source shiftBy. fold imm.
  set (s2 := if imm then MakeSrcContained node shiftBy s else s).
  assert (F2 : FlagsOnly s s2).
  { unfold s2, MakeSrcContained. destruct imm;
      [apply FlagsOnly_SetContained|]; apply FlagsOnly_refl. }
  assert (Hsrc2 : gt s2 source = gt s source).
  { unfold s2, MakeSrcContained, SetContained. destruct imm; [|done]. by rewrite gt_gtUpd_ne. }
  assert (Hother2 : ∀ q, q ≠ shiftBy → gt s2 q = gt s q).
  { intros q Hq. unfold s2, MakeSrcContained, SetContained. destruct imm; [|done].
    by rewrite gt_gtUpd_ne. }
  assert (Hby_some : imm = true → is_Some (gtNodes s !! shiftBy)).
  { unfold imm, IsContainableImmed, IsIntCnsFitsInI32, IsCnsIntOrI.
    destruct (OperIs s shiftBy GT_CNS_INT) eqn:E; [|done]. intros _.
    by apply (OperIs_is_Some _ _ GT_CNS_INT). }
  assert (Hby2 : isContained s2 shiftBy = if imm then true else isContained s shiftBy).
  { unfold s2, MakeSrcContained. destruct imm eqn:E; [|done].
    apply isContained_SetContained_eq. by apply Hby_some. }
  assert (Hoper2 : gtOper (gt s2 node) = oper) by by apply (FlagsOnly_proj gtOper s s2).
  assert (Hflags2 : GTF_SET_FLAGS (gt s2 node) = GTF_SET_FLAGS (gt s node)).
  { by apply (FlagsOnly_proj GTF_SET_FLAGS s s2). }
  rewrite Hby2, Hoper2, Hflags2.
  set (c := negb (isContained s2 source) && _).
  set (final := if c && _ && _ && _ then _ else s2).
  assert (Hfinal_by : gt final shiftBy = gt s2 shiftBy).
  { unfold final, MakeSrcContained, MakeSrcRegOptional, SetContained, SetRegOptional.
    repeat case_match; try done; by rewrite gt_gtUpd_ne. }
  assert (Hfinal_other : ∀ q, q ≠ source → gt final q = gt s2 q).
  { intros q Hq.
    unfold final, MakeSrcContained, MakeSrcRegOptional, SetContained, SetRegOptional.
    repeat case_match; try done; by rewrite gt_gtUpd_ne. }
  split; [|split; [|split; [|split; [|split]]]].
  - intros Himm. unfold isContained. rewrite Hfinal_by. fold (isContained s2 shiftBy).
    by rewrite Hby2, Himm.
  - intros Himm. rewrite Hfinal_by. unfold s2. by rewrite Himm.
  - intros Hshift Himm. unfold final. rewrite Himm, Hshift. cbn [eqb negb].
    by rewrite !andb_false_r.
  - intros Hshift Himm Hby. unfold final. rewrite Himm, Hshift, Hby. cbn [eqb negb].
    by rewrite !andb_false_r.
  - intros Hcase. unfold final.
    destruct Hcase as [-> | ->]; cbn [negb]; by rewrite ?andb_false_r.
  - intros q Hq1 Hq2. rewrite Hfinal_other by done. by apply Hother2.
Qed.

Lemma ContainCheckShiftRotate_count_and_source_witness :
  isContained (ContainCheckShiftRotate x64 3 shiftByThree) 2 = true
  ∧ gt (ContainCheckShiftRotate x64 3 shiftByThree) 1 = gt shiftByThree 1.
Proof.
  destruct (ContainCheckShiftRotate_count_and_source x64 shiftByThree 3)
    as (H1 & _ & H3 & _); [by_compute | by_compute |].
  split; [apply H1 | apply H3]; by_compute.
Defined.

(** ** Division *)

(** X9: [ContainCheckDivOrMod] on an integer division changes containment
    and reg-optional flags only, and only on the two operands.  The dividend
    is touched only on x86 when it is a [GT_LONG] pair, which is then
    contained and the divisor is never made reg-optional; the divisor is never
    both contained and made reg-optional by the check, and it is not contained
    when its type differs from the type of the division. *)
Theorem ContainCheckDivOrMod_operands comp s node :
  let dividend := gtGetOp1 s node in
  let divisor := gtGetOp2 s node in
  let longDividend := TARGET_X86 comp && OperIs s dividend GT_LONG in
  let s' := ContainCheckDivOrMod comp node s in
  varTypeIsFloating (gtType (gt s node)) = false →
  dividend ≠ divisor →
  FlagsOnly s s'
  ∧ (∀ q, q ≠ dividend → q ≠ divisor → gt s' q = gt s q)
  ∧ (longDividend = false → gt s' dividend = gt s dividend)
  ∧ (longDividend = true →
     (is_Some (gtNodes s !! dividend) → isContained s' dividend = true)
     ∧ LIR_RegOptional (gt s' divisor) = LIR_RegOptional (gt s divisor))
  ∧ (GTF_CONTAINED (gt s' divisor) = GTF_CONTAINED (gt s divisor)
     ∨ LIR_RegOptional (gt s' divisor) = LIR_RegOptional (gt s divisor))
  ∧ (gtType (gt s divisor) ≠ gtType (gt s node) →
     GTF_CONTAINED (gt s' divisor) = GTF_CONTAINED (gt s divisor)).
Proof.
  intros dividend divisor longDividend s' Hflt Hne.
  unfold s', ContainCheckDivOrMod. rewrite Hflt. fold dividend divisor. fold longDividend.
  set (s1 := if longDividend then MakeSrcContained node dividend s else s).
  assert (Hpair : (if longDividend then (false, MakeSrcContained node dividend s) else (true, s))
                  = (negb longDividend, s1)).
  { unfold s1. by destruct longDividend. }
  rewrite Hpair. clear Hpair.
  assert (F1 : FlagsOnly s s1).
  { unfold s1, MakeSrcContained. destruct longDividend;
      [apply FlagsOnly_SetContained|]; apply FlagsOnly_refl. }
  assert (H1other : ∀ q, q ≠ dividend → gt s1 q = gt s q).
  { intros q Hq. unfold s1, MakeSrcContained, SetContained. destruct longDividend; [|done].
    by rewrite gt_gtUpd_ne. }
  assert (Hty : ∀ q, gtType (gt s1 q) = gtType (gt s q)).
  { intros q. by apply (FlagsOnly_proj gtType s s1). }
  rewrite !Hty.
  set (final := if _ && _ && _ then _ else _).
  assert (Hfinal_other : ∀ q, q ≠ divisor → gt final q = gt s1 q).
  { intros q Hq. unfold final, MakeSrcContained, SetContained, SetRegOptional.
    repeat case_match; try done; by rewrite gt_gtUpd_ne. }
  assert (Hfinal_flags : FlagsOnly s final).
  { unfold final, MakeSrcContained. repeat case_match; try done;
      [by apply FlagsOnly_SetContained | by apply FlagsOnly_SetRegOptional]. }
  assert (Hdiv1 : gt s1 divisor = gt s divisor) by by apply H1other.
  split; [done|]. split; [|split; [|split; [|split]]].
  - intros q Hq1 Hq2. rewrite Hfinal_other by done. by apply H1other.
  - intros Hlong. rewrite Hfinal_other by done. unfold s1. by rewrite Hlong.
  - intros Hlong. split.
    + intros Hsome. unfold isContained. rewrite Hfinal_other by done.
      unfold s1, MakeSrcContained. rewrite Hlong.
      by apply isContained_SetContained_eq.
    + rewrite <- Hdiv1. unfold final. rewrite Hlong. cbn [negb andb].
      case_match; [|done]. unfold MakeSrcContained. apply RegOptional_SetContained.
  - rewrite <- Hdiv1. unfold final, MakeSrcContained, SetContained, SetRegOptional.
    repeat case_match.
    + right. by apply (gt_gtUpd_proj LIR_RegOptional).
    + left. by apply (gt_gtUpd_proj GTF_CONTAINED).
    + by left.
  - intros Hty'. rewrite <- Hdiv1. unfold final.
    rewrite (bool_decide_eq_false_2 (gtType (gt s divisor) = gtType (gt s node))) by done.
    rewrite andb_false_r. cbn [andb]. unfold SetRegOptional.
    case_match; [|done]. by apply (gt_gtUpd_proj GTF_CONTAINED).
Qed.

Lemma ContainCheckDivOrMod_operands_witness :
  FlagsOnly divByIndir (ContainCheckDivOrMod x64 4 divByIndir)
  ∧ isContained (ContainCheckDivOrMod x64 4 divByIndir) 3 = true
  ∧ gt (ContainCheckDivOrMod x64 4 divByIndir) 1 = gt divByIndir 1.
Proof.
  destruct (ContainCheckDivOrMod_operands x64 divByIndir 4)
    as (H1 & _ & H3 & _); [by_compute | by_compute |].
  split; [exact H1|]. split; [by_compute | apply H3; by_compute].
Defined.

(** ** Ternary logic: the operand swaps *)

Ltac perm3 :=
  solve [ reflexivity
        | apply perm_swap
        | constructor; apply perm_swap
        | etrans; [apply perm_swap | constructor; apply perm_swap]
        | symmetry; apply (Permutation_rev [_; _; _]) ].

(** X10: the operand swaps of [LowerHWIntrinsicTernaryLogic] keep the control
    operand last and permute the other three; the use-flag class they leave
    is one of none, C, BC, ABC, and it names, at the new positions, exactly
    the operands that the class before the swaps named, in the same order;
    no node but the ternary-logic node and its control constant changes. *)
Theorem TernaryLogic_Normalize_used_operands_last
    comp node op4 control useFlags s o1 o2 o3 control' useFlags' s1 :
  gtOperands (gt s node) = [o1; o2; o3; op4] →
  TernaryLogic_Normalize comp node op4 control useFlags s = (control', useFlags', s1) →
  ∃ p1 p2 p3,
    gtOperands (gt s1 node) = [p1; p2; p3; op4]
    ∧ [p1; p2; p3] ≡ₚ [o1; o2; o3]
    ∧ useFlags' ∈ [TLUF_None; TLUF_C; TLUF_BC; TLUF_ABC]
    ∧ TernaryLogic_usedOperands useFlags' p1 p2 p3
      = TernaryLogic_usedOperands useFlags o1 o2 o3
    ∧ (∀ q, q ≠ node → q ≠ op4 → gt s1 q = gt s q)
    ∧ m_blockRange s1 = m_blockRange s.
Proof.
  intros Hops Hn.
  assert (Hnode : is_Some (gtNodes s !! node)) by (apply operands_is_Some; by rewrite Hops).
  assert (HO1 : Op s node 1 = o1) by (unfold Op; by rewrite Hops).
  assert (HO2 : Op s node 2 = o2) by (unfold Op; by rewrite Hops).
  assert (HO3 : Op s node 3 = o3) by (unfold Op; by rewrite Hops).
  assert (Hswap_other : ∀ i j s0 q, q ≠ node → gt (SwapOps node i j s0) q = gt s0 q).
  { intros i j s0 q Hq. unfold SwapOps, SetOp. by rewrite !gt_gtUpd_ne. }
  unfold TernaryLogic_Normalize in Hn.
  destruct useFlags; injection Hn as <- <- <-.
  - exists o1, o2, o3. repeat split; try done. set_solver.
  - exists o3, o2, o1. unfold SetIconValue.
    rewrite (gt_gtUpd_proj gtOperands) by done.
    rewrite SwapOps_operands, HO1, HO3, Hops by done. cbn.
    split; [done|]. split; [perm3|].
    split; [set_solver|]. split; [done|]. split; [|done].
    intros q Hq1 Hq2. rewrite gt_gtUpd_ne by done. by apply Hswap_other.
  - exists o1, o3, o2. unfold SetIconValue.
    rewrite (gt_gtUpd_proj gtOperands) by done.
    rewrite SwapOps_operands, HO2, HO3, Hops by done. cbn.
    split; [done|]. split; [perm3|].
    split; [set_solver|]. split; [done|]. split; [|done].
    intros q Hq1 Hq2. rewrite gt_gtUpd_ne by done. by apply Hswap_other.
  - exists o1, o2, o3. repeat split; try done. set_solver.
  - exists o3, o1, o2. unfold SetIconValue.
    rewrite (gt_gtUpd_proj gtOperands) by done.
    assert (Hn2 : is_Some (gtNodes (SwapOps node 2 3 s) !! node)) by by apply SwapOps_is_Some.
    rewrite SwapOps_operands by done. unfold Op.
    rewrite SwapOps_operands, HO2, HO3, Hops by done. cbn.
    split; [done|]. split; [perm3|].
    split; [set_solver|]. split; [done|]. split; [|done].
    intros q Hq1 Hq2. rewrite gt_gtUpd_ne by done. rewrite !Hswap_other by done. done.
  - exists o2, o1, o3. unfold SetIconValue.
    rewrite (gt_gtUpd_proj gtOperands) by done.
    rewrite SwapOps_operands, HO1, HO2, Hops by done. cbn.
    split; [done|]. split; [perm3|].
    split; [set_solver|]. split; [done|]. split; [|done].
    intros q Hq1 Hq2. rewrite gt_gtUpd_ne by done. by apply Hswap_other.
  - exists o1, o2, o3. repeat split; try done. set_solver.
  - exists o1, o2, o3. repeat split; try done. set_solver.
Qed.

Lemma TernaryLogic_Normalize_used_operands_last_witness :
  ∃ p1 p2 p3 control' useFlags' s1,
    TernaryLogic_Normalize x64 5 4 240 TLUF_A (ternaryLogic 240) = (control', useFlags', s1)
    ∧ gtOperands (gt s1 5) = [p1; p2; p3; 4]
    ∧ TernaryLogic_usedOperands useFlags' p1 p2 p3 = [1].
Proof.
  destruct (TernaryLogic_Normalize x64 5 4 240 TLUF_A (ternaryLogic 240))
    as [[control' useFlags'] s1] eqn:E.
  destruct (TernaryLogic_Normalize_used_operands_last x64 5 4 240 TLUF_A (ternaryLogic 240)
              1 2 3 control' useFlags' s1) as (p1 & p2 & p3 & H1 & _ & _ & H2 & _);
    [reflexivity | exact E |].
  by exists p1, p2, p3, control', useFlags', s1.
Defined.

(** ** Rewrites that happen in place or not at all *)

(** X11: [TryLowerMulWithConstant] never hands back a node other than the
    multiplication itself, and when it hands back none it has changed
    nothing. *)
Theorem TryLowerMulWithConstant_in_place comp node s r s' :
  TryLowerMulWithConstant comp node s = Some (r, s') →
  (r = None ∧ s' = s) ∨ r = Some node.
Proof.
  unfold TryLowerMulWithConstant. intros H.
  repeat case_match; simplify_option_eq; auto.
Qed.

Lemma TryLowerMulWithConstant_in_place_witness :
  TryLowerMulWithConstant x86 3 (mulByConstant 7) = Some (None, mulByConstant 7).
Proof.
  destruct (TryLowerMulWithConstant x86 3 (mulByConstant 7)) as [[r s']|] eqn:E;
    [|vm_compute in E; discriminate].
  destruct (TryLowerMulWithConstant_in_place x86 3 (mulByConstant 7) r s' E) as [[-> ->] | ->];
    [reflexivity|].
  vm_compute in E. discriminate.
Defined.

(** X12: [TryLowerAndOpToResetLowestSetBit] either changes nothing and
    returns no node, or returns a node that the arena did not hold before and
    takes the [AND] out of the range. *)
Theorem TryLowerAndOpToResetLowestSetBit_all_or_nothing comp andNode s r s' :
  TryLowerAndOpToResetLowestSetBit comp andNode s = (r, s') →
  (r = None ∧ s' = s)
  ∨ (∃ blsrNode sBefore,
       r = Some blsrNode ∧ gtNodes s !! blsrNode = None
       ∧ s' = ContainCheckHWIntrinsic comp blsrNode sBefore
       ∧ (andNode ∉ m_blockRange sBefore)
       ∧ is_Some (BlockRange_TryGetUse s andNode)).
Proof.
  unfold TryLowerAndOpToResetLowestSetBit, gtNewScalarHWIntrinsicNode. intros H.
  repeat case_match; simplify_eq; auto; right;
    match goal with E : gtAlloc _ _ = (_, _) |- _ =>
      destruct (gtAlloc_spec _ _ _ _ E) as (Hf & _) end;
    (eexists _, _; split; [done|]; split; [done|]; split; [done|]; split; [|eauto]);
    rewrite !range_Remove, !elem_of_remove; tauto.
Qed.

Lemma TryLowerAndOpToResetLowestSetBit_all_or_nothing_witness :
  ∃ blsrNode s', TryLowerAndOpToResetLowestSetBit x64 5 andAddMinusOne = (Some blsrNode, s')
                 ∧ gtNodes andAddMinusOne !! blsrNode = None.
Proof.
  destruct (TryLowerAndOpToResetLowestSetBit x64 5 andAddMinusOne) as [r s'] eqn:E.
  destruct (TryLowerAndOpToResetLowestSetBit_all_or_nothing x64 5 andAddMinusOne r s' E)
    as [[-> _] | (blsrNode & sBefore & -> & Hfresh & _)].
  - vm_compute in E. discriminate.
  - by exists blsrNode, s'.
Defined.

(** ** The callers of the read-modify-write detector *)

Lemma OperandsPrecede_ext ops ops' l :
  (∀ q, ops' q = ops q) → OperandsPrecede ops l → OperandsPrecede ops' l.
Proof.
  intros He. induction l as [|q l IH]; simpl; [done|].
  intros [H1 H2]. rewrite He. auto.
Qed.

Lemma TreeOrder_ext ops ops' l :
  (∀ q, ops' q = ops q) → TreeOrder ops l → TreeOrder ops' l.
Proof.
  intros He (H1 & H2 & H3). split; [done|]. split.
  - by rewrite (list_bind_ext ops' ops l l).
  - by apply (OperandsPrecede_ext ops).
Qed.

(** Well-formedness looks at operand lists, marks, the handles of the arena
    and the range only. *)
Lemma StoreIndWellFormed_gtUpd p f s storeInd :
  (∀ n, gtOperands (f n) = gtOperands n) → (∀ n, LIR_Mark (f n) = LIR_Mark n) →
  StoreIndWellFormed s storeInd → StoreIndWellFormed (gtUpd p f s) storeInd.
Proof.
  intros Hops Hmark (H0 & Hord & Hall). split; [|split].
  - destruct (gtNodes (gtUpd p f s) !! 0) eqn:E; [|done].
    assert (is_Some (gtNodes s !! 0)) as [? ?]; [|congruence].
    apply (gtUpd_is_Some p f). eauto.
  - rewrite range_gtUpd. eapply TreeOrder_ext; [|exact Hord].
    intros q. cbv beta. by apply (gt_gtUpd_proj gtOperands).
  - rewrite range_gtUpd. eapply Forall_impl; [exact Hall|].
    intros q [Hs Hm]. cbv beta. split; [by apply gtUpd_is_Some|].
    by rewrite (gt_gtUpd_proj LIR_Mark).
Qed.

Lemma StoreIndWellFormed_is_Some s storeInd :
  StoreIndWellFormed s storeInd → is_Some (gtNodes s !! storeInd).
Proof. intros (_ & _ & Hall). apply Forall_cons in Hall as [[H _] _]. exact H. Qed.

Lemma LowerStoreIndir_result comp s node :
  StoreIndWellFormed s node →
  varTypeIsFloating (gtType (gt s node)) = false →
  ∃ r s1 s',
    IsRMWMemOpRootedAtStoreInd comp node (SetRMWStatusDefault node s) = Some (r, s1)
    ∧ GetRMWStatus s1 node ≠ STOREIND_RMW_STATUS_UNKNOWN
    ∧ (∀ q, q ≠ node → gt s1 q = gt s q)
    ∧ (rmwFound r = true →
       LowerStoreIndir comp node s = Some (gtNext s node, s')
       ∧ FlagsOnly s1 s'
       ∧ IsRMWMemoryOp s' node = true
       ∧ isContained s' (gtGetOp2 s node) = true)
    ∧ (rmwFound r = false →
       LowerStoreIndir comp node s = Some (LowerStoreIndir_containment comp node s1)
       ∧ IsRMWMemoryOp s1 node = false).
Proof.
  intros Hwf Hflt.
  pose proof (StoreIndWellFormed_is_Some s node Hwf) as Hsome.
  set (s0 := SetRMWStatusDefault node s).
  assert (Hwf0 : StoreIndWellFormed s0 node) by by apply StoreIndWellFormed_gtUpd.
  assert (Hunk : GetRMWStatus s0 node = STOREIND_RMW_STATUS_UNKNOWN).
  { unfold GetRMWStatus, s0, SetRMWStatusDefault, SetRMWStatus. by rewrite gt_gtUpd_eq. }
  assert (Hty : gtType (gt s0 node) = gtType (gt s node)) by by apply (gt_gtUpd_proj gtType).
  assert (HOp0 : ∀ p i, Op s0 p i = Op s p i) by (intros; by apply Op_gtUpd).
  destruct (IsRMWMemOpRootedAtStoreInd_again comp s0 node Hunk Hwf0) as (r0 & s10 & Hrun0 & _ & Hknown).
  destruct (LowerRMWMemOp_result comp s0 node Hunk Hwf0)
    as (r & s1 & s' & Hrun & Hlow & Hfound & Hno & Hyes).
  assert (r0 = r ∧ s10 = s1) as [-> ->] by (split; congruence).
  destruct (IsRMWMemOpRootedAtStoreInd_unknown comp s0 node Hunk Hwf0)
    as (st & r1 & s11 & Hrun1 & Hres & _).
  assert (r1 = r ∧ s11 = s1) as [-> ->] by (split; congruence).
  exists r, s1, s'. split; [done|]. split; [done|].
  assert (Hother : ∀ q, q ≠ node → gt s1 q = gt s q).
  { intros q Hq. destruct Hres as (_ & _ & _ & _ & Ho & _). rewrite Ho by done.
    unfold s0, SetRMWStatusDefault, SetRMWStatus. by rewrite gt_gtUpd_ne. }
  split; [done|].
  unfold LowerStoreIndir. fold s0. rewrite Hty, Hflt. cbn [negb]. rewrite Hlow.
  cbn [mbind option_bind]. split.
  - intros Ef. rewrite Ef. destruct (Hyes Ef) as (_ & Hfl & Hc & _).
    assert (Hr1 : m_blockRange s1 = m_blockRange s).
    { destruct Hres as (_ & _ & _ & _ & _ & ->). done. }
    assert (Hr' : m_blockRange s' = m_blockRange s).
    { destruct Hfl as (_ & _ & ->). done. }
    split; [unfold gtNext; by rewrite Hr'|]. split; [done|]. split.
    + unfold IsRMWMemoryOp, GetRMWStatus.
      rewrite (FlagsOnly_proj gtRMWStatus s1 s') by done.
      rewrite Ef in Hfound. done.
    + unfold gtGetOp2 in *. by rewrite HOp0 in Hc.
  - intros Ef. rewrite Ef. rewrite (Hno Ef). split; [done|]. by rewrite <- Hfound.
Qed.



(** From any status: a known status is answered from the cache, an unknown
    one by a run of the detector. *)
Lemma IsRMWMemOpRootedAtStoreInd_any_status comp s storeInd :
  StoreIndWellFormed s storeInd →
  ∃ r s',
    IsRMWMemOpRootedAtStoreInd comp storeInd s = Some (r, s')
    ∧ rmwFound r = IsRMWMemoryOp s' storeInd
    ∧ (∀ q, q ≠ storeInd → gt s' q = gt s q)
    ∧ m_blockRange s' = m_blockRange s.
Proof.
  intros Hwf.
  destruct (decide (GetRMWStatus s storeInd = STOREIND_RMW_STATUS_UNKNOWN)) as [Hunk | Hknown].
  - destruct (IsRMWMemOpRootedAtStoreInd_unknown comp s storeInd Hunk Hwf)
      as (st & r & s' & Hrun & (Hst & Hf & _ & _ & Ho & Hr) & _).
    exists r, s'. unfold IsRMWMemoryOp. rewrite Hst. done.
  - unfold IsRMWMemOpRootedAtStoreInd, IsNonRMWMemoryOp, IsRMWMemoryOp, IsRMWDstOp1.
    destruct (GetRMWStatus s storeInd) eqn:E; try done; cbn;
      repeat case_match; eexists _, s; (split; [reflexivity|]); by rewrite ?E.
Qed.

Lemma IsBinOpInRMWStoreInd_result comp s tree :
  (∀ use, BlockRange_TryGetUse s tree = Some use → StoreIndWellFormed s (Use_User use)) →
  ∃ b s',
    IsBinOpInRMWStoreInd comp tree s = Some (b, s')
    ∧ m_blockRange s' = m_blockRange s
    ∧ (∀ q, (∀ use, BlockRange_TryGetUse s tree = Some use → Use_User use ≠ q) →
            gt s' q = gt s q)
    ∧ (b = true →
       ∃ use, BlockRange_TryGetUse s tree = Some use
              ∧ OperIs s (Use_User use) GT_STOREIND = true
              ∧ gtGetOp2 s (Use_User use) = tree
              ∧ IsRMWMemoryOp s' (Use_User use) = true
              ∧ (OperIs s (gtGetOp1 s tree) GT_IND = true
                 ∨ OperIs s (gtGetOp2 s tree) GT_IND = true)).
Proof.
  intros Hwf. unfold IsBinOpInRMWStoreInd.
  destruct (bool_decide (gtOper (gt s (gtGetOp1 s tree)) ≠ GT_IND)
            && bool_decide (gtOper (gt s (gtGetOp2 s tree)) ≠ GT_IND)) eqn:Eind.
  { exists false, s. by repeat split. }
  destruct (BlockRange_TryGetUse s tree) as [use|] eqn:Euse.
  2: { exists false, s. by repeat split. }
  destruct (bool_decide (gtOper (gt s (Use_User use)) ≠ GT_STOREIND)
            || bool_decide (gtGetOp2 s (Use_User use) ≠ tree)) eqn:Euser.
  { exists false, s. by repeat split. }
  destruct (IsRMWMemOpRootedAtStoreInd_any_status comp s (Use_User use) (Hwf use eq_refl))
    as (r & s' & Hrun & Hf & Ho & Hr).
  rewrite Hrun. cbn [mbind option_bind]. exists (rmwFound r), s'.
  split; [done|]. split; [done|]. split.
  - intros q Hq. apply Ho. intros ->. by apply (Hq use).
  - intros Ef. exists use. split; [done|].
    apply orb_false_iff in Euser as [E1 E2].
    apply bool_decide_eq_false in E1, E2. apply dec_stable in E1, E2.
    split; [unfold OperIs; by apply bool_decide_eq_true|]. split; [done|].
    split; [by rewrite <- Hf|].
    apply andb_false_iff in Eind as [E | E];
      apply bool_decide_eq_false in E; apply dec_stable in E;
      [left | right]; unfold OperIs; by apply bool_decide_eq_true.
Qed.


